(** * form-mcp: the session engine of [src/formEngine.ts]

    A shallow embedding of the form engine (question-order derivation,
    session store, field mutation, schema validation pass, navigation)
    and of the tools of [src/mcpServer.ts] that call it, with the
    properties of the engine that the design document states and further
    properties that the code shows.

    Conventions of the embedding.
    - A JavaScript plain object used as a dictionary ([Record<string, T>])
      is an association list kept in the order in which [Object.keys] /
      [Object.entries] enumerate it: array-index keys first, ascending,
      then the other keys in insertion order.  The list holds the own
      properties.  No prototype is kept: every object is taken to inherit
      from [Object.prototype] (an array through [Array.prototype]), and
      [Object.prototype] to be as the language defines it.
    - Twelve names are inherited by every object ([inherited_names]):
      eleven methods and the accessor [__proto__].  A method read through
      such a name is a function, which the engine takes for a missing
      property wherever it only tests what it read; an assignment under
      such a name makes an own property.  The accessor is different: a
      read returns the prototype, an assignment makes no property and may
      replace the prototype.  [JsObj.write] says what the accessor does to
      [data]; where a definition does not follow the code under one of the
      twelve names, its comment says so, and the statements that depend
      on it are made for paths without these names ([no_proto],
      [ordinary_session], [ordinary_operation]).
    - Answer values ([unknown] in the source) are primitives or
      references into a heap of objects and arrays.  The nested document
      that a validation pass builds stores the references it finds in
      [data], and writes through them: the heap is threaded through every
      engine function, and is kept when a call throws.
    - A JavaScript [Map] is a [gmap]; where the order of its entries
      shows ([listForms], [listSessions], the tools), it is the list of
      its entries in insertion order, and the two are shown to agree.
    - A session object that the store holds is changed in place by the
      engine; the tools put the changed session back under its key,
      also when the engine throws.
    - The external collaborators are parameters: the JSON-Schema
      validator (ajv), ECMAScript's conversion of a value to an array
      length, and [uuidv4].  The parsing of tool arguments (zod) and the
      serialization of results are not modelled: a tool gets the
      arguments its input schema lets through and returns a structured
      result. *)

From Stdlib Require Import ZArith NArith Ascii String List Bool Lia.
From stdpp Require Import base option list strings gmap.

Set Warnings "-register-all".

Local Open Scope string_scope.
Local Open Scope Z_scope.
Local Open Scope list_scope.

(** ** Strings *)

Module Str.

Definition dot : ascii := "."%char.
Definition slash : ascii := "/"%char.

(** [s.split(".")]: never empty, [""] splits to [[""]]. *)
Fixpoint split_dot (s : string) : list string :=
  match s with
  | EmptyString => [EmptyString]
  | String c rest =>
      if Ascii.eqb c dot then EmptyString :: split_dot rest
      else match split_dot rest with
           | [] => [String c EmptyString]
           | h :: t => String c h :: t
           end
  end.

(** [s.replace(/\//g, ".")] *)
Fixpoint replace_slashes (s : string) : string :=
  match s with
  | EmptyString => EmptyString
  | String c rest =>
      String (if Ascii.eqb c slash then dot else c) (replace_slashes rest)
  end.

(** [s.replace(/^\//, "")] *)
Definition strip_leading_slash (s : string) : string :=
  match s with
  | String c rest => if Ascii.eqb c slash then rest else s
  | EmptyString => s
  end.

Definition is_digit (c : ascii) : bool :=
  let n := N_of_ascii c in ((48 <=? n) && (n <=? 57))%N.

Fixpoint digits_value (s : string) (acc : N) : option N :=
  match s with
  | EmptyString => Some acc
  | String c rest =>
      if is_digit c
      then digits_value rest (10 * acc + (N_of_ascii c - 48))%N
      else None
  end.

(** ECMAScript "array index": the canonical decimal spelling of an
    integer in [0, 2^32 - 2]. *)
Definition array_index (k : string) : option N :=
  match k with
  | EmptyString => None
  | String c rest =>
      if Ascii.eqb c "0"%char && negb (String.eqb rest EmptyString) then None
      else match digits_value k 0%N with
           | Some n => if (n <? 2 ^ 32 - 1)%N then Some n else None
           | None => None
           end
  end.

End Str.

(** ** JavaScript objects as ordered dictionaries *)

Module JsObj.

Section Dict.
Context {V : Type}.

(** [o[k]] for an own property; [None] is [undefined]. *)
Fixpoint get (o : list (string * V)) (k : string) : option V :=
  match o with
  | [] => None
  | (k', v) :: rest => if String.eqb k' k then Some v else get rest k
  end.

Definition has (o : list (string * V)) (k : string) : bool :=
  match get o k with Some _ => true | None => false end.

(** Overwriting an existing property keeps its place in the order. *)
Fixpoint replace (k : string) (v : V) (o : list (string * V)) : list (string * V) :=
  match o with
  | [] => []
  | (k', v') :: rest =>
      if String.eqb k' k then (k, v) :: rest else (k', v') :: replace k v rest
  end.

(** A new array-index key goes after the smaller indices and before
    everything else. *)
Fixpoint insert_index (n : N) (k : string) (v : V) (o : list (string * V))
  : list (string * V) :=
  match o with
  | [] => [(k, v)]
  | (k', v') :: rest =>
      match Str.array_index k' with
      | Some m => if (m <? n)%N then (k', v') :: insert_index n k v rest
                  else (k, v) :: o
      | None => (k, v) :: o
      end
  end.

(** [o[k] = v] where [k] is an own property or a name that is free to
    become one. *)
Definition set (k : string) (v : V) (o : list (string * V)) : list (string * V) :=
  if has o k then replace k v o
  else match Str.array_index k with
       | Some n => insert_index n k v o
       | None => o ++ [(k, v)]
       end.

(** [o[k] = v] on a dictionary that inherits from [Object.prototype].
    The name [__proto__], unless [o] has it as an own property, is the
    inherited accessor: the assignment makes no property, whatever [v]
    is.  When [v] is an object or [null] it replaces the prototype, which
    the embedding does not keep: a dictionary that has lost
    [Object.prototype] in this way is not followed further. *)
Definition write (k : string) (v : V) (o : list (string * V)) : list (string * V) :=
  if String.eqb k "__proto__" && negb (has o k) then o else set k v o.

End Dict.

End JsObj.

(** ** Values and the heap *)

(** A value as the parsing of JSON produces it, or [undefined]: a
    primitive, or the address of an object or array in the heap.  A number
    carries an integer; the engine looks at numbers through [typeof] and
    truthiness only. *)
Inductive JsValue :=
| VUndefined
| VNull
| VBool (b : bool)
| VNumber (n : Z)
| VString (s : string)
| VRef (address : nat).

(** An object of the heap: its own properties and, for an array, its
    [length]. *)
Record JsObject := mkJsObject {
  array_length : option N;
  own : list (string * JsValue)
}.

Abbreviation Heap := (list JsObject).

(** [{}] *)
Definition empty_object : JsObject := mkJsObject None [].

Inductive JsType := TUndefined | TObject | TBoolean | TNumber | TString.

(** [typeof v] *)
Definition typeof (v : JsValue) : JsType :=
  match v with
  | VUndefined => TUndefined
  | VNull => TObject
  | VBool _ => TBoolean
  | VNumber _ => TNumber
  | VString _ => TString
  | VRef _ => TObject
  end.

(** [!!v] *)
Definition truthy (v : JsValue) : bool :=
  match v with
  | VUndefined | VNull => false
  | VBool b => b
  | VNumber n => negb (n =? 0)
  | VString s => negb (String.eqb s EmptyString)
  | VRef _ => true
  end.

(** ** Exceptions and effects *)

Inductive JsError :=
| Error (message : string)
| RangeError (message : string)
| TypeError (message : string).

(** The completion of a call: it returns a value or throws. *)
Inductive Completion (A : Type) :=
| Normal (a : A)
| Throw (e : JsError).
Arguments Normal {A} a.
Arguments Throw {A} e.

Definition returns {A} (c : Completion A) : bool :=
  match c with Normal _ => true | Throw _ => false end.

(** A computation on the heap.  What it did to the heap before throwing
    stays done. *)
Definition Js (A : Type) : Type := Heap -> Completion A * Heap.

#[global] Instance Js_ret : MRet Js := fun A a h => (Normal a, h).
#[global] Instance Js_bind : MBind Js :=
  fun A B f m h =>
    match m h with
    | (Normal a, h') => f a h'
    | (Throw e, h') => (Throw e, h')
    end.

(** A new object; its address is the next free one. *)
Definition alloc (o : JsObject) : Js JsValue :=
  fun h => (Normal (VRef (length h)), h ++ [o]).

Fixpoint for_each {A} (f : A -> Js unit) (l : list A) : Js unit :=
  match l with
  | [] => mret ()
  | x :: rest => _ ← f x; for_each f rest
  end.

(** ** Property access *)

(** What ECMAScript's ArraySetLength makes of the value assigned to the
    [length] of an array: [Some n] when the value converts to the
    unsigned 32-bit integer [n], [None] when the assignment throws.  The
    conversion of strings (number parsing) is not spelled out here; the
    one law the development uses is that an empty plain object converts
    to NaN, which is no length. *)
Class ArrayLengthConversion := {
  array_length_of : Heap -> JsValue -> option N;
  array_length_of_empty_object h address :
    h !! address = Some empty_object -> array_length_of h (VRef address) = None
}.

(** [current[key]] in heap [h], with [undefined] for a missing property.
    The methods that arrays and objects inherit are functions, which the
    engine treats like a missing property ([typeof] is not ["object"]).
    Under the name [__proto__], where it is not an own property, the code
    reads the prototype, which is an object and lies outside the heap:
    there [read] does not follow the code, and what is stated about the
    reconstruction of paths is stated for paths without that segment
    ([no_proto]). *)
Definition read (h : Heap) (current : JsValue) (key : string) : JsValue :=
  match current with
  | VRef address =>
      match h !! address with
      | Some (mkJsObject (Some len) own) =>
          if String.eqb key "length" then VNumber (Z.of_N len)
          else default VUndefined (JsObj.get own key)
      | Some (mkJsObject None own) => default VUndefined (JsObj.get own key)
      | None => VUndefined
      end
  | _ => VUndefined
  end.

Definition prop_get (current : JsValue) (key : string) : Js JsValue :=
  fun h => (Normal (read h current key), h).

(** Shrinking an array deletes the elements at and beyond the new length. *)
Definition truncate (n : N) (own : list (string * JsValue)) : list (string * JsValue) :=
  List.filter (fun kv => match Str.array_index kv.1 with
                         | Some i => (i <? n)%N
                         | None => true
                         end) own.

(** The object [o] after [o[key] = v].  As for [read], the name
    [__proto__] is followed only where it is an own property, as in an
    object that [JSON.parse] made from a text with that key. *)
Definition assign `{ArrayLengthConversion}
    (h : Heap) (o : JsObject) (key : string) (v : JsValue) : Completion JsObject :=
  match o.(array_length) with
  | None => Normal (mkJsObject None (JsObj.set key v o.(own)))
  | Some len =>
      if String.eqb key "length" then
        match array_length_of h v with
        | Some n => Normal (mkJsObject (Some n) (truncate n o.(own)))
        | None => Throw (RangeError "Invalid array length")
        end
      else
        match Str.array_index key with
        | Some i => Normal (mkJsObject (Some (N.max len (i + 1))) (JsObj.set key v o.(own)))
        | None => Normal (mkJsObject (Some len) (JsObj.set key v o.(own)))
        end
  end.

(** [current[key] = v] in strict mode.  In the engine [current] is always
    the address of an object; the two [TypeError] cases are there for the
    other values. *)
Definition prop_set `{ArrayLengthConversion}
    (current : JsValue) (key : string) (v : JsValue) : Js unit :=
  fun h =>
    match current with
    | VRef address =>
        match h !! address with
        | Some o =>
            match assign h o key v with
            | Normal o' => (Normal (), <[address := o']> h)
            | Throw e => (Throw e, h)
            end
        | None => (Throw (TypeError "Cannot set properties of undefined"), h)
        end
    | _ => (Throw (TypeError "Cannot create property on a primitive value"), h)
    end.

(** [!current[key] || typeof current[key] !== "object"] *)
Definition needs_container (v : JsValue) : bool :=
  negb (truthy v) || negb (match typeof v with TObject => true | _ => false end).

(** The loop of [setDeepValue], from segment [i] on: [parts] are the
    segments still to walk and [current] the container reached. *)
Fixpoint setDeepValue_loop `{ArrayLengthConversion}
    (current : JsValue) (parts : list string) (value : JsValue) : Js unit :=
  match parts with
  | [] => mret ()
  | [key] => prop_set current key value
  | key :: rest =>
      found ← prop_get current key;
      _ ← (if needs_container found
           then fresh ← alloc empty_object; prop_set current key fresh
           else mret ());
      next ← prop_get current key;
      setDeepValue_loop next rest value
  end.

Definition setDeepValue `{ArrayLengthConversion}
    (target : JsValue) (path : string) (value : JsValue) : Js unit :=
  setDeepValue_loop target (Str.split_dot path) value.

(** ** Data model ([src/formTypes.ts]) *)

(** [type?: string | string[]] *)
Inductive SchemaType :=
| TypeAbsent
| TypeName (name : string)
| TypeNames (names : list string).

(** [JsonSchema].  [properties] lists the named properties in the order of
    [Object.keys]; [keywords] carries every other keyword ([format],
    [minimum], [items], ...), which only the validator reads. *)
Inductive JsonSchema := mkJsonSchema {
  schema_type : SchemaType;
  properties : option (list (string * JsonSchema));
  required : option (list string);
  keywords : list (string * JsValue)
}.

Record FormFieldState := mkFormFieldState {
  path : string;
  value : JsValue;
  schemaValid : bool;
  messages : list string;
  touched : bool
}.

Inductive FormStatus := NotStarted | InProgress | Complete.

Inductive FormOverallValidity := Unknown | Valid | Invalid.

Record FormDefinition := mkFormDefinition {
  id : string;
  name : string;
  schema : JsonSchema
}.

(** [data] and [fields] are dictionaries.  [fields] is only ever assigned
    objects, which the accessor [__proto__] keeps as the prototype and
    gives back when read: an entry of [fields] under that name stands for
    the object kept there.  It is no own property, and while it is there
    [fields] inherits the names [path], [value], [schemaValid], [messages]
    and [touched] from it, which the embedding does not follow. *)
Record FormSession := mkFormSession {
  sessionId : string;
  userId : option string;
  formId : string;
  definitionSnapshot : FormDefinition;
  data : list (string * JsValue);
  fields : list (string * FormFieldState);
  status : FormStatus;
  overallValidity : FormOverallValidity;
  questionOrder : list string;
  currentQuestionIndex : Z
}.

Definition with_data (d : list (string * JsValue)) (s : FormSession) : FormSession :=
  mkFormSession s.(sessionId) s.(userId) s.(formId) s.(definitionSnapshot) d
    s.(fields) s.(status) s.(overallValidity) s.(questionOrder) s.(currentQuestionIndex).

Definition with_fields (f : list (string * FormFieldState)) (s : FormSession) : FormSession :=
  mkFormSession s.(sessionId) s.(userId) s.(formId) s.(definitionSnapshot) s.(data)
    f s.(status) s.(overallValidity) s.(questionOrder) s.(currentQuestionIndex).

Definition with_status (st : FormStatus) (s : FormSession) : FormSession :=
  mkFormSession s.(sessionId) s.(userId) s.(formId) s.(definitionSnapshot) s.(data)
    s.(fields) st s.(overallValidity) s.(questionOrder) s.(currentQuestionIndex).

Definition with_overallValidity (v : FormOverallValidity) (s : FormSession) : FormSession :=
  mkFormSession s.(sessionId) s.(userId) s.(formId) s.(definitionSnapshot) s.(data)
    s.(fields) s.(status) v s.(questionOrder) s.(currentQuestionIndex).

Definition with_currentQuestionIndex (i : Z) (s : FormSession) : FormSession :=
  mkFormSession s.(sessionId) s.(userId) s.(formId) s.(definitionSnapshot) s.(data)
    s.(fields) s.(status) s.(overallValidity) s.(questionOrder) i.

(** ** The schema validator (ajv) *)

(** The part of ajv's [ErrorObject] that the engine reads. *)
Record ErrorObject := mkErrorObject {
  instancePath : string;
  message : option string
}.

(** One run of a compiled validator: the boolean it returns and the
    [errors] it leaves behind ([None] is [null]). *)
Record ValidationRun := mkValidationRun {
  valid : bool;
  errors : option (list ErrorObject)
}.

(** [ajv.compile(schema)] throws on a schema it cannot compile, and
    otherwise returns the validating function, which reads the document
    it is given in the heap.

    The engine has one ajv instance, and the instance remembers: a schema
    object that compiled once is answered from its cache, with the same
    function; a schema object that it refused has been put into the cache
    before it was checked, so that a later call with it may return.  An
    [Ajv] gives one completion per schema: it describes the calls of
    [ajv.compile] up to and including the first one that throws for the
    schema, and all of them when none throws.  What is stated about more
    than one pass over a session assumes that its schema compiles, or
    allows for whatever [ajv.compile] throws. *)
Class Ajv := {
  ajv_compile : JsonSchema -> Completion (Heap -> JsValue -> ValidationRun)
}.

(** ** The engine ([src/formEngine.ts]) *)

Definition normalizeAjvPath (instancePath : string) : string :=
  if String.eqb instancePath "" then ""
  else Str.replace_slashes (Str.strip_leading_slash instancePath).

(** [basePath ? `${basePath}.${key}` : key] *)
Definition childPath (basePath key : string) : string :=
  if String.eqb basePath "" then key else basePath +:+ "." +:+ key.

Fixpoint deriveQuestionOrder (schema : JsonSchema) (basePath : string) : list string :=
  match schema with
  | mkJsonSchema (TypeName ty) (Some props) _ _ =>
      if String.eqb ty "object" then
        (fix each (props : list (string * JsonSchema)) : list string :=
           match props with
           | [] => []
           | (key, child) :: rest =>
               childPath basePath key
                 :: deriveQuestionOrder child (childPath basePath key) ++ each rest
           end) props
      else []
  | _ => []
  end.

(** The first loop of [runSchemaValidation]: the nested document
    [grouped], built from the entries of [data] in enumeration order. *)
Definition reconstruct `{ArrayLengthConversion}
    (data : list (string * JsValue)) : Js JsValue :=
  grouped ← alloc empty_object;
  _ ← for_each (fun entry => setDeepValue grouped entry.1 entry.2) data;
  mret grouped.

(** The second loop: [fieldErrors], the messages grouped by path. *)
Definition collect_error (fieldErrors : gmap string (list string)) (err : ErrorObject)
  : gmap string (list string) :=
  let path := normalizeAjvPath err.(instancePath) in
  let fieldErrors :=
    match fieldErrors !! path with
    | Some _ => fieldErrors
    | None => <[path := []]> fieldErrors
    end in
  alter (fun msgs => msgs ++ [default "Validation error" err.(message)]) path fieldErrors.

Definition group_errors (errors : list ErrorObject) : gmap string (list string) :=
  foldl collect_error ∅ errors.

(** The third loop, one path of [questionOrder].  [existing] is the entry
    that [fields] holds as an own property, or the default.  When [path]
    is one of the [inherited_names] and [fields] has no entry for it, the
    code finds the inherited method (or, for [__proto__], the prototype)
    instead of the default and writes an entry without [path], [value]
    and [touched]; a [FormFieldState] cannot say that, and what is stated
    about the entries that the pass writes is stated for questions with
    other names ([ordinary_session]). *)
Definition rewrite_field (fieldErrors : gmap string (list string))
    (fields : list (string * FormFieldState)) (path : string)
  : list (string * FormFieldState) :=
  let existing :=
    default (mkFormFieldState path VUndefined true [] false) (JsObj.get fields path) in
  let errs := default [] (fieldErrors !! path) in
  let '(mkFormFieldState existing_path existing_value _ _ existing_touched) := existing in
  JsObj.set path
    (mkFormFieldState existing_path existing_value
       (Nat.eqb (length errs) 0) errs existing_touched)
    fields.

(** [runSchemaValidation(session)]: the completion of the call, the heap
    and the session afterwards.  Both throwing steps come before the first
    write to the session; the writes of the reconstruction to the heap
    stay. *)
Definition runSchemaValidation `{ArrayLengthConversion} `{Ajv}
    (h : Heap) (session : FormSession) : Completion unit * Heap * FormSession :=
  let schema := session.(definitionSnapshot).(schema) in
  match reconstruct session.(data) h with
  | (Throw e, h) => (Throw e, h, session)
  | (Normal grouped, h) =>
      match ajv_compile schema with
      | Throw e => (Throw e, h, session)
      | Normal validate =>
          let run := validate h grouped in
          let errors := default [] run.(errors) in
          let fieldErrors := group_errors errors in
          let session :=
            with_fields (foldl (rewrite_field fieldErrors) session.(fields)
                               session.(questionOrder)) session in
          let session :=
            with_overallValidity (if run.(valid) then Valid else Invalid) session in
          let session :=
            if run.(valid) then with_status Complete session else session in
          (Normal (), h, session)
      end
  end.

(** The writes of [setFieldValue] that precede the validation pass.
    [existing] is used for its [schemaValid] and [messages] only: an
    inherited method has neither, like a missing entry. *)
Definition record_answer (session : FormSession) (path : string) (value : JsValue)
  : FormSession :=
  let session := with_data (JsObj.write path value session.(data)) session in
  let existing := JsObj.get session.(fields) path in
  let updated :=
    mkFormFieldState path value
      (default false (schemaValid <$> existing))
      (default [] (messages <$> existing))
      true in
  let session := with_fields (JsObj.set path updated session.(fields)) session in
  if session.(status) is NotStarted then with_status InProgress session else session.

Definition setFieldValue `{ArrayLengthConversion} `{Ajv}
    (h : Heap) (session : FormSession) (path : string) (value : JsValue)
  : Completion unit * Heap * FormSession :=
  runSchemaValidation h (record_answer session path value).

Definition moveToNextQuestion (session : FormSession) : FormSession :=
  if session.(currentQuestionIndex) <? Z.of_nat (length session.(questionOrder)) - 1
  then with_currentQuestionIndex (session.(currentQuestionIndex) + 1) session
  else session.

Definition moveToPreviousQuestion (session : FormSession) : FormSession :=
  if session.(currentQuestionIndex) >? 0
  then with_currentQuestionIndex (session.(currentQuestionIndex) - 1) session
  else session.

Definition getCurrentQuestionPath (session : FormSession) : option string :=
  if session.(currentQuestionIndex) <? 0 then None
  else session.(questionOrder) !! Z.to_nat session.(currentQuestionIndex).

(** ** The store ([InMemoryFormStore]) *)

Record InMemoryFormStore := mkStore {
  forms : gmap string FormDefinition;
  sessions : gmap string FormSession
}.

Definition emptyStore : InMemoryFormStore := mkStore ∅ ∅.

Definition registerForm (store : InMemoryFormStore) (def : FormDefinition) : InMemoryFormStore :=
  mkStore (<[def.(id) := def]> store.(forms)) store.(sessions).

Definition getForm (store : InMemoryFormStore) (id : string) : option FormDefinition :=
  store.(forms) !! id.

(** [createSession(formId, userId)].  [uuid] is the string that the call
    of [uuidv4()] returns; the result is the completion and the store
    afterwards. *)
Definition createSession (store : InMemoryFormStore)
    (formId : string) (userId : option string) (uuid : string)
  : Completion FormSession * InMemoryFormStore :=
  match store.(forms) !! formId with
  | None => (Throw (Error ("Form not found: " +:+ formId)), store)
  | Some form =>
      let questionOrder := deriveQuestionOrder form.(schema) "" in
      let sessionId := uuid in
      let session :=
        mkFormSession sessionId userId formId form [] [] NotStarted Unknown
          questionOrder 0 in
      (Normal session, mkStore store.(forms) (<[sessionId := session]> store.(sessions)))
  end.

Definition getSession (store : InMemoryFormStore) (sessionId : string) : option FormSession :=
  store.(sessions) !! sessionId.

(** [uuidv4()] of the [uuid] package, where the session ids come from.  A
    call returns an id and leaves the generator in its next state.  What
    the package promises of its ids, and all that the store relies on,
    is that none comes twice: [issued] lists the ids that a generator
    has returned so far. *)
Class UuidV4 := {
  Generator : Type;
  uuidv4 : Generator -> string * Generator;
  issued : Generator -> list string;
  uuidv4_fresh : forall g, (uuidv4 g).1 ∉ issued g;
  uuidv4_issued : forall g, issued (uuidv4 g).2 = (uuidv4 g).1 :: issued g
}.

(** [createSession(formId, userId)] together with its call of [uuidv4],
    which it makes once the form is found: the completion, the store and
    the generator afterwards. *)
Definition createSession_uuidv4 `{UuidV4} (g : Generator) (store : InMemoryFormStore)
    (formId : string) (userId : option string)
  : Completion FormSession * InMemoryFormStore * Generator :=
  match store.(forms) !! formId with
  | None => (Throw (Error ("Form not found: " +:+ formId)), store, g)
  | Some _ => (createSession store formId userId (uuidv4 g).1, (uuidv4 g).2)
  end.

(** The stores that the program gets to, with the generator as it then
    is: the store starts empty; forms are registered; sessions are
    created, with ids from [uuidv4]; and a session that the store holds
    is changed in place by the engine, which leaves its [sessionId]
    alone. *)
Inductive reachable `{UuidV4} : Generator -> InMemoryFormStore -> Prop :=
| reachable_empty g : reachable g emptyStore
| reachable_registerForm g store def :
    reachable g store -> reachable g (registerForm store def)
| reachable_createSession g store formId userId :
    reachable g store ->
    reachable (createSession_uuidv4 g store formId userId).2
            (createSession_uuidv4 g store formId userId).1.2
| reachable_changed g store key session session' :
    reachable g store ->
    store.(sessions) !! key = Some session ->
    session'.(sessionId) = session.(sessionId) ->
    reachable g (mkStore store.(forms) (<[key := session']> store.(sessions))).

(** ** Sequences of operations *)

(** The operations on a session, with the heap they run in.  A call that
    throws leaves heap and session as they were at the throw. *)
Inductive Operation :=
| SetFieldValue (path : string) (value : JsValue)
| RunSchemaValidation
| MoveToNextQuestion
| MoveToPreviousQuestion.

Definition perform `{ArrayLengthConversion} `{Ajv}
    (state : Heap * FormSession) (op : Operation) : Heap * FormSession :=
  match op with
  | SetFieldValue path value =>
      let r := setFieldValue state.1 state.2 path value in (r.1.2, r.2)
  | RunSchemaValidation =>
      let r := runSchemaValidation state.1 state.2 in (r.1.2, r.2)
  | MoveToNextQuestion => (state.1, moveToNextQuestion state.2)
  | MoveToPreviousQuestion => (state.1, moveToPreviousQuestion state.2)
  end.

Definition perform_all `{ArrayLengthConversion} `{Ajv}
    (state : Heap * FormSession) (ops : list Operation) : Heap * FormSession :=
  foldl perform state ops.


(** ** Sample collaborators and forms, for the examples *)

(** A length conversion that is exact on [undefined], [null], booleans,
    integral numbers and plain objects; no example assigns a string or an
    array to [length]. *)
Definition sample_array_length_of (h : Heap) (v : JsValue) : option N :=
  match v with
  | VNull => Some 0%N
  | VBool b => Some (if b then 1 else 0)%N
  | VNumber n => if (0 <=? n) && (n <? 2 ^ 32) then Some (Z.to_N n) else None
  | _ => None
  end.

Definition sample_conversion : ArrayLengthConversion :=
  {| array_length_of := sample_array_length_of;
     array_length_of_empty_object := fun _ _ _ => eq_refl |}.

Definition error_at (pointer message : string) : ErrorObject :=
  mkErrorObject pointer (Some message).

(** A property name as a segment of a JSON pointer (RFC 6901): ["~"] is
    written ["~0"] and ["/"] is written ["~1"].  This is how ajv writes
    the names on an instance path. *)
Fixpoint escape_pointer (key : string) : string :=
  match key with
  | EmptyString => EmptyString
  | String c rest =>
      if Ascii.eqb c "~"%char then String "~" (String "0" (escape_pointer rest))
      else if Ascii.eqb c Str.slash then String "~" (String "1" (escape_pointer rest))
      else String c (escape_pointer rest)
  end.

(** A small structural validator in the manner of ajv with [allErrors]:
    an [object] schema wants a plain object, with every [required]
    property, whose present properties satisfy their sub-schemas; a
    [string] schema wants a string; errors carry the JSON pointer of the
    instance. *)
Fixpoint sample_errors (schema : JsonSchema) (h : Heap) (v : JsValue) (pointer : string)
  : list ErrorObject :=
  match schema with
  | mkJsonSchema (TypeName ty) props req _ =>
      if String.eqb ty "object" then
        match v with
        | VRef address =>
            match h !! address with
            | Some (mkJsObject None own) =>
                flat_map
                  (fun key =>
                     if JsObj.has own key then []
                     else [error_at pointer ("must have required property '" +:+ key +:+ "'")])
                  (default [] req)
                ++ match props with
                   | Some props =>
                       (fix each (props : list (string * JsonSchema)) : list ErrorObject :=
                          match props with
                          | [] => []
                          | (key, child) :: rest =>
                              match JsObj.get own key with
                              | Some x =>
                                  sample_errors child h x
                                    (pointer +:+ "/" +:+ escape_pointer key)
                              | None => []
                              end ++ each rest
                          end) props
                   | None => []
                   end
            | _ => [error_at pointer "must be object"]
            end
        | _ => [error_at pointer "must be object"]
        end
      else if String.eqb ty "string" then
        match v with
        | VString _ => []
        | _ => [error_at pointer "must be string"]
        end
      else []
  | _ => []
  end.

Definition sample_validate (schema : JsonSchema) (h : Heap) (doc : JsValue) : ValidationRun :=
  match sample_errors schema h doc "" with
  | [] => mkValidationRun true None
  | errs => mkValidationRun false (Some errs)
  end.

Definition sample_ajv : Ajv :=
  {| ajv_compile := fun schema => Normal (sample_validate schema) |}.

Definition leaf (ty : string) : JsonSchema :=
  mkJsonSchema (TypeName ty) None None [].

Definition object_of (props : list (string * JsonSchema)) (req : option (list string)) : JsonSchema :=
  mkJsonSchema (TypeName "object") (Some props) req [].

(** [demoForm] of [src/mcpServer.ts]. *)
Definition demoForm : FormDefinition :=
  mkFormDefinition "demo-contact" "Demo Contact Form"
    (mkJsonSchema (TypeName "object")
       (Some [("fullName", leaf "string");
              ("age", mkJsonSchema (TypeName "integer") None None [("minimum", VNumber 0)]);
              ("email", mkJsonSchema (TypeName "string") None None [("format", VString "email")]);
              ("bio", leaf "string")])
       (Some ["fullName"; "email"]) []).

(** A form without required properties. *)
Definition optionalForm : FormDefinition :=
  mkFormDefinition "optional" "Optional Form"
    (object_of [("nickname", leaf "string")] None).

(** The schema [{object: {a: string, b: {object: {c: string}}}}]. *)
Definition nestedSchema : JsonSchema :=
  object_of [("a", leaf "string"); ("b", object_of [("c", leaf "string")] None)] None.

(** A form with a nested object: [a.b] must have a property [c]. *)
Definition addressForm : FormDefinition :=
  mkFormDefinition "address" "Address Form"
    (object_of
       [("a", object_of [("b", object_of [("c", leaf "number")] (Some ["c"]))] None)]
       None).

(** A form with a property whose name holds a ["/"]. *)
Definition ratioForm : FormDefinition :=
  mkFormDefinition "ratio" "Ratio Form"
    (object_of [("width/height", leaf "string")] None).

Definition demoStore : InMemoryFormStore :=
  registerForm (registerForm emptyStore demoForm) optionalForm.

(** A generator for the examples.  It counts: its ids are ["id"],
    ["xid"], ["xxid"], one more mark for every id issued before. *)
Fixpoint sample_id (n : nat) : string :=
  match n with
  | O => "id"
  | S n => String "x" (sample_id n)
  end.

Fixpoint issued_by (n : nat) : list string :=
  match n with
  | O => []
  | S n => sample_id n :: issued_by n
  end.

Definition sample_uuidv4 : UuidV4.
Proof.
  refine {| Generator := nat;
            uuidv4 := fun n => (sample_id n, S n);
            issued := issued_by |}; [|done].
  assert (forall n, String.length (sample_id n) = S (S n)) as Hlength
    by (induction n as [|n IH]; simpl; by rewrite ?IH).
  assert (forall n m, (n <= m)%nat -> sample_id m ∉ issued_by n) as Hfresh.
  { induction n as [|n IH]; intros m Hm; simpl; [apply not_elem_of_nil|].
    apply not_elem_of_cons. split; [|apply IH; lia].
    intros Heq. apply (f_equal String.length) in Heq. rewrite !Hlength in Heq. lia. }
  intros n. by apply Hfresh.
Defined.

(** The session that [createSession] makes for [form]. *)
Definition sessionOf (form : FormDefinition) (uuid : string) : FormSession :=
  mkFormSession uuid None form.(id) form [] [] NotStarted Unknown
    (deriveQuestionOrder form.(schema) "") 0.

(** ** Vocabulary of the properties *)

(** The violations of a validation pass attributed to [path]: the
    messages of the errors whose normalized instance path is [path], in
    the order the validator reported them. *)
Definition violations (path : string) (errors : list ErrorObject) : list string :=
  map (fun err => default "Validation error" err.(message))
      (List.filter (fun err => String.eqb (normalizeAjvPath err.(instancePath)) path) errors).

(** [0 <= currentQuestionIndex <= max(0, len(questionOrder) - 1)] *)
Definition index_in_bounds (session : FormSession) : Prop :=
  0 <= session.(currentQuestionIndex)
       <= Z.max 0 (Z.of_nat (length session.(questionOrder)) - 1).

(** The entry that the validation pass writes for [path], given the entry
    found there. *)
Definition rewritten (fieldErrors : gmap string (list string)) (p : string)
    (existing : option FormFieldState) : FormFieldState :=
  let errs := default [] (fieldErrors !! p) in
  match existing with
  | Some f => mkFormFieldState f.(path) f.(value) (Nat.eqb (length errs) 0) errs f.(touched)
  | None => mkFormFieldState p VUndefined (Nat.eqb (length errs) 0) errs false
  end.

(** Whether a call ended with a pass that reported overall validity. *)
Definition reports_valid (r : Completion unit * Heap * FormSession) : bool :=
  returns r.1.1 && (if r.2.(overallValidity) is Valid then true else false).

(** Whether [deriveQuestionOrder] expands a schema: it is typed
    ["object"] and has named properties. *)
Definition expands (schema : JsonSchema) : bool :=
  match schema.(schema_type), schema.(properties) with
  | TypeName ty, Some _ => String.eqb ty "object"
  | _, _ => false
  end.

(** A value that is a primitive or the address of an object of [h]. *)
Definition in_heap (h : Heap) (v : JsValue) : bool :=
  match v with
  | VRef address => bool_decide (address < length h)%nat
  | _ => true
  end.

(** A heap without arrays and without dangling addresses. *)
Definition plain_object (h : Heap) (o : JsObject) : bool :=
  (if o.(array_length) is None then true else false)
  && forallb (fun kv => in_heap h kv.2) o.(own).

Definition plain_heap (h : Heap) : bool := forallb (plain_object h) h.

(** An answer that is not an object or an array. *)
Definition scalar (v : JsValue) : bool :=
  match v with VRef _ => false | _ => true end.

(** Moving a block of objects [d] addresses up. *)
Definition shift_value (d : nat) (v : JsValue) : JsValue :=
  match v with VRef address => VRef (d + address) | _ => v end.

Definition shift_object (d : nat) (o : JsObject) : JsObject :=
  mkJsObject o.(array_length) (map (fun kv => (kv.1, shift_value d kv.2)) o.(own)).

Definition shift_heap (d : nat) (block : Heap) : Heap := map (shift_object d) block.

(** The block of objects that the reconstruction builds for [data], at
    base address 0; its first object is the document. *)
Definition document `{ArrayLengthConversion} (data : list (string * JsValue)) : Heap :=
  (reconstruct data []).2.

(** A validator that looks at the document only: neither at the address
    the document lies at nor at the rest of the heap. *)
Definition document_only (validate : Heap -> JsValue -> ValidationRun) : Prop :=
  forall (h block : Heap),
    plain_heap block = true ->
    validate (h ++ shift_heap (length h) block) (VRef (length h)) = validate block (VRef 0).

(** ** Vocabulary of the further properties *)

(** [parts.join(".")] *)
Fixpoint join_dot (parts : list string) : string :=
  match parts with
  | [] => ""
  | [p] => p
  | p :: rest => p +:+ "." +:+ join_dot rest
  end.

Fixpoint contains (c : ascii) (s : string) : bool :=
  match s with
  | EmptyString => false
  | String c' rest => Ascii.eqb c' c || contains c rest
  end.

(** The JSON pointer of a chain of property names that need no escaping. *)
Fixpoint pointer_of (keys : list string) : string :=
  match keys with
  | [] => ""
  | key :: rest => "/" +:+ key +:+ pointer_of rest
  end.

(** The path that [deriveQuestionOrder] gives to the property reached from
    [basePath] through [keys]. *)
Definition question_path (basePath : string) (keys : list string) : string :=
  foldl childPath basePath keys.

(** [keys] leads from [schema] down through named properties of object
    schemas. *)
Inductive property_chain : JsonSchema -> list string -> Prop :=
| chain_property schema key child :
    expands schema = true ->
    (key, child) ∈ default [] schema.(properties) ->
    property_chain schema [key]
| chain_nested schema key child keys :
    expands schema = true ->
    (key, child) ∈ default [] schema.(properties) ->
    property_chain child keys ->
    property_chain schema (key :: keys).

(** ** Inherited names *)

(** The names that every object inherits from [Object.prototype]: the
    accessor [__proto__] and eleven methods. *)
Definition inherited_names : list string :=
  ["__proto__"; "constructor"; "hasOwnProperty"; "isPrototypeOf";
   "propertyIsEnumerable"; "toLocaleString"; "toString"; "valueOf";
   "__defineGetter__"; "__defineSetter__"; "__lookupGetter__"; "__lookupSetter__"].

Definition inherited (key : string) : bool :=
  existsb (String.eqb key) inherited_names.

(** A path none of whose segments is [__proto__]: on its way
    [setDeepValue] meets own properties, methods and missing properties
    only. *)
Definition no_proto (path : string) : bool :=
  forallb (fun key => negb (String.eqb key "__proto__")) (Str.split_dot path).

(** The answers of a session are filed under such paths. *)
Definition proto_free (session : FormSession) : bool :=
  forallb (fun entry => no_proto entry.1) session.(data).

(** A session in which the inherited names play no part: its answers are
    filed under paths without [__proto__], its [fields] have been given
    no prototype, and none of its questions goes by an inherited name. *)
Definition ordinary_session (session : FormSession) : bool :=
  proto_free session
  && negb (JsObj.has session.(fields) "__proto__")
  && forallb (fun question => negb (inherited question)) session.(questionOrder).

Definition ordinary_operation (op : Operation) : bool :=
  match op with
  | SetFieldValue path _ => no_proto path
  | _ => true
  end.

(** ** Instance paths *)

(** [s.split("/")] *)
Fixpoint split_slash (s : string) : list string :=
  match s with
  | EmptyString => [EmptyString]
  | String c rest =>
      if Ascii.eqb c Str.slash then EmptyString :: split_slash rest
      else match split_slash rest with
           | [] => [String c EmptyString]
           | h :: t => String c h :: t
           end
  end.

(** A segment of a JSON pointer read back as a property name (RFC 6901):
    ["~1"] is ["/"] and ["~0"] is ["~"]. *)
Fixpoint unescape_pointer (segment : string) : string :=
  match segment with
  | EmptyString => EmptyString
  | String c rest =>
      match rest with
      | String d rest' =>
          if Ascii.eqb c "~"%char && Ascii.eqb d "1"%char
          then String "/" (unescape_pointer rest')
          else if Ascii.eqb c "~"%char && Ascii.eqb d "0"%char
          then String "~" (unescape_pointer rest')
          else String c (unescape_pointer rest)
      | EmptyString => String c EmptyString
      end
  end.

(** The property names that a JSON pointer leads through, from the root
    of the document: [""] is the root itself, ["/a/b"] is the property [b]
    of the property [a]. *)
Definition pointer_keys (pointer : string) : list string :=
  map unescape_pointer (tail (split_slash pointer)).

(** Whether a violation is a violation of the question [question]: its
    instance path leads to a property, and [question] is the path that
    [deriveQuestionOrder] gives to that property.  This is said without
    [normalizeAjvPath]. *)
Definition violates (question : string) (err : ErrorObject) : bool :=
  match pointer_keys err.(instancePath) with
  | [] => false
  | keys => String.eqb (question_path "" keys) question
  end.

(** The messages of the violations of [question], in the order the
    validator reported them. *)
Definition violations_of (question : string) (errors : list ErrorObject) : list string :=
  map (fun err => default "Validation error" err.(message))
      (List.filter (violates question) errors).

(** An instance path that is the empty pointer, or that leads through
    names that are not empty and hold no ["~"]: no name on it is written
    otherwise than it is. *)
Definition plain_pointer (pointer : string) : bool :=
  match split_slash pointer with
  | first :: keys =>
      String.eqb first ""
      && forallb (fun key => negb (String.eqb key "") && negb (contains "~"%char key)) keys
  | [] => false
  end.

(** Every entry of [fields] is filed under its own [path]. *)
Definition filed_by_path (session : FormSession) : Prop :=
  forall p f, JsObj.get session.(fields) p = Some f -> f.(path) = p.

(** [fields] and [data] tell the same story: an answer in [data] has a
    touched entry with that value, a touched entry has its value in
    [data], and an untouched entry has neither value nor answer. *)
Definition fields_agree_with_data (session : FormSession) : Prop :=
  (forall p v, JsObj.get session.(data) p = Some v ->
     exists f, JsObj.get session.(fields) p = Some f /\
               f.(touched) = true /\ f.(value) = v) /\
  (forall p f, JsObj.get session.(fields) p = Some f ->
     if f.(touched) then JsObj.get session.(data) p = Some f.(value)
     else f.(value) = VUndefined /\ JsObj.get session.(data) p = None).

(** What [status] and [overallValidity] say about each other and about
    [data]. *)
Definition status_consistent (session : FormSession) : Prop :=
  (session.(overallValidity) = Valid -> session.(status) = Complete) /\
  (session.(status) = NotStarted -> session.(data) = []) /\
  (session.(status) = Complete -> session.(overallValidity) <> Unknown).

(** The values of [data] are primitives or addresses of objects of [h]. *)
Definition answers_in_heap (h : Heap) (session : FormSession) : bool :=
  forallb (fun entry => in_heap h entry.2) session.(data).

Definition answer_in_heap (h : Heap) (op : Operation) : bool :=
  match op with
  | SetFieldValue _ value => in_heap h value
  | _ => true
  end.


(** The completion of one operation, and the completions of a sequence of
    operations, each run in the state its predecessors left. *)
Definition completion_of `{ArrayLengthConversion} `{Ajv}
    (state : Heap * FormSession) (op : Operation) : Completion unit :=
  match op with
  | SetFieldValue path value => (setFieldValue state.1 state.2 path value).1.1
  | RunSchemaValidation => (runSchemaValidation state.1 state.2).1.1
  | MoveToNextQuestion | MoveToPreviousQuestion => Normal ()
  end.

Fixpoint completions `{ArrayLengthConversion} `{Ajv}
    (state : Heap * FormSession) (ops : list Operation) : list (Completion unit) :=
  match ops with
  | [] => []
  | op :: rest => completion_of state op :: completions (perform state op) rest
  end.

(** A property name that is its own path segment: not empty and without
    ["."]. *)
Definition path_key (key : string) : bool :=
  negb (String.eqb key "") && negb (contains Str.dot key).

(** A property name that is its own path segment and its own pointer
    segment: also without the ["/"] and ["~"] that a JSON pointer
    escapes. *)
Definition plain_key (key : string) : bool :=
  path_key key
  && negb (contains Str.slash key)
  && negb (contains "~"%char key).



Fixpoint is_prefix (p q : list string) : bool :=
  match p, q with
  | [], _ => true
  | _ :: _, [] => false
  | x :: p, y :: q => String.eqb x y && is_prefix p q
  end.

(** Two paths neither of which leads through the other. *)
Definition unrelated (p q : list string) : bool :=
  negb (is_prefix p q) && negb (is_prefix q p).




(** A schema whose property names, wherever [deriveQuestionOrder] goes,
    are path segments that differ from each other, as the keys of one
    object do. *)
Fixpoint well_keyed (schema : JsonSchema) : bool :=
  match schema with
  | mkJsonSchema (TypeName ty) (Some props) _ _ =>
      if String.eqb ty "object" then
        forallb path_key (map fst props)
        && bool_decide (NoDup (map fst props))
        && (fix each (props : list (string * JsonSchema)) : bool :=
              match props with
              | [] => true
              | (_, child) :: rest => well_keyed child && each rest
              end) props
      else true
  | _ => true
  end.

(** ** The store, with the order of its listings *)

(** A JavaScript [Map] enumerates its entries in insertion order; [set]
    on a key that is there keeps the key's place. *)
Module JsMap.

Section Map.
Context {V : Type}.

Definition set (k : string) (v : V) (m : list (string * V)) : list (string * V) :=
  if JsObj.has m k then JsObj.replace k v m else m ++ [(k, v)].

(** [[...m.values()]] *)
Definition values (m : list (string * V)) : list V := map snd m.

End Map.

End JsMap.

(** [InMemoryFormStore] once more, with its two maps as lists of entries,
    for the functions that show the order of the entries. *)
Module Ordered.

Record InMemoryFormStore := mkStore {
  forms : list (string * FormDefinition);
  sessions : list (string * FormSession)
}.

Definition emptyStore : InMemoryFormStore := mkStore [] [].

Definition registerForm (store : InMemoryFormStore) (def : FormDefinition)
  : InMemoryFormStore :=
  mkStore (JsMap.set def.(id) def store.(forms)) store.(sessions).

Definition listForms (store : InMemoryFormStore) : list FormDefinition :=
  JsMap.values store.(forms).

Definition getForm (store : InMemoryFormStore) (id : string) : option FormDefinition :=
  JsObj.get store.(forms) id.

Definition createSession (store : InMemoryFormStore)
    (formId : string) (userId : option string) (uuid : string)
  : Completion FormSession * InMemoryFormStore :=
  match JsObj.get store.(forms) formId with
  | None => (Throw (Error ("Form not found: " +:+ formId)), store)
  | Some form =>
      let questionOrder := deriveQuestionOrder form.(schema) "" in
      let sessionId := uuid in
      let session :=
        mkFormSession sessionId userId formId form [] [] NotStarted Unknown
          questionOrder 0 in
      (Normal session, mkStore store.(forms) (JsMap.set sessionId session store.(sessions)))
  end.

Definition getSession (store : InMemoryFormStore) (sessionId : string)
  : option FormSession :=
  JsObj.get store.(sessions) sessionId.

(** [listSessions(filter?)]: [filter] is [None] when the argument is
    left out, and [Some None] when it has no [userId].  An empty
    [userId] is falsy, and filters nothing. *)
Definition listSessions (store : InMemoryFormStore) (filter : option (option string))
  : list FormSession :=
  let all := JsMap.values store.(sessions) in
  match filter with
  | Some (Some wanted) =>
      if String.eqb wanted "" then all
      else List.filter
             (fun s => match s.(userId) with
                       | Some user => String.eqb user wanted
                       | None => false
                       end) all
  | _ => all
  end.

(** The session object that the map holds under [sessionId], after the
    engine has changed it in place. *)
Definition mutated (store : InMemoryFormStore) (sessionId : string) (session : FormSession)
  : InMemoryFormStore :=
  mkStore store.(forms) (JsObj.replace sessionId session store.(sessions)).

End Ordered.

(** The store as the two maps alone. *)
Definition store_of (store : Ordered.InMemoryFormStore) : InMemoryFormStore :=
  mkStore (list_to_map store.(Ordered.forms)) (list_to_map store.(Ordered.sessions)).

(** ** The tools of the server ([src/mcpServer.ts]) *)

Record SessionSummary := mkSessionSummary {
  summary_sessionId : string;
  summary_formId : string;
  summary_status : FormStatus;
  summary_overallValidity : FormOverallValidity;
  currentQuestionPath : option string
}.

Definition summarizeSession (session : FormSession) : SessionSummary :=
  mkSessionSummary session.(sessionId) session.(formId) session.(status)
    session.(overallValidity) (getCurrentQuestionPath session).

(** [v ?? undefined] *)
Definition or_undefined (v : option JsValue) : JsValue :=
  match v with
  | Some VNull | None => VUndefined
  | Some v => v
  end.

(** An element of the result of [list_forms]. *)
Record FormListing := mkFormListing {
  listing_id : string;
  listing_name : string;
  title : JsValue;
  description : JsValue
}.

Definition listing (f : FormDefinition) : FormListing :=
  mkFormListing f.(id) f.(name)
    (or_undefined (JsObj.get f.(schema).(keywords) "title"))
    (or_undefined (JsObj.get f.(schema).(keywords) "description")).

(** The state of the server process: the store and the heap that the
    answers live in. *)
Record ServerState := mkServerState {
  store : Ordered.InMemoryFormStore;
  heap : Heap
}.

(** The arguments of a tool call, as the tool's input schema hands them
    to the handler. *)
Inductive ToolInput :=
| ListForms
| StartFormSession (formId : string) (userId : option string)
| ListUserForms (userId : string)
| GetFormState (sessionId : string)
| SetFieldValueOf (sessionId : string) (path : string) (value : JsValue)
| NextQuestion (sessionId : string)
| PreviousQuestion (sessionId : string)
| ValidateForm (sessionId : string).

(** What the handlers return. *)
Inductive ToolOutput :=
| FormsOutput (forms : list FormListing)
| SessionOutput (session : SessionSummary)
| SessionsOutput (sessions : list SessionSummary)
| StateOutput (session : SessionSummary)
    (data : list (string * JsValue)) (fields : list (string * FormFieldState))
| FieldOutput (session : SessionSummary) (field : option FormFieldState)
| ValidationOutput (session : SessionSummary) (fields : list (string * FormFieldState)).

Definition toolName (input : ToolInput) : string :=
  match input with
  | ListForms => "list_forms"
  | StartFormSession _ _ => "start_form_session"
  | ListUserForms _ => "list_user_forms"
  | GetFormState _ => "get_form_state"
  | SetFieldValueOf _ _ _ => "set_field_value"
  | NextQuestion _ => "next_question"
  | PreviousQuestion _ => "previous_question"
  | ValidateForm _ => "validate_form"
  end.

(** The names of [registeredTools], in the order of registration. *)
Definition registeredTools : list string :=
  ["list_forms"; "start_form_session"; "list_user_forms"; "get_form_state";
   "set_field_value"; "next_question"; "previous_question"; "validate_form"].

(** The handlers that start with [store.getSession(sessionId)]: [act]
    is what the handler does to the session it finds, in place, and
    [output] what it returns.  What [act] did before it threw stays
    done. *)
Definition on_session (sessionId : string)
    (act : Heap -> FormSession -> Completion unit * Heap * FormSession)
    (output : FormSession -> ToolOutput)
    (state : ServerState) : Completion ToolOutput * ServerState :=
  match Ordered.getSession state.(store) sessionId with
  | None => (Throw (Error "Session not found"), state)
  | Some session =>
      let '(completion, h, session) := act state.(heap) session in
      let state := mkServerState (Ordered.mutated state.(store) sessionId session) h in
      match completion with
      | Normal _ => (Normal (output session), state)
      | Throw e => (Throw e, state)
      end
  end.

(** The handler of each tool.  [uuid] is what [uuidv4()] returns if this
    call asks for it. *)
Definition handler `{ArrayLengthConversion} `{Ajv}
    (uuid : string) (input : ToolInput) (state : ServerState)
  : Completion ToolOutput * ServerState :=
  match input with
  | ListForms =>
      (Normal (FormsOutput (map listing (Ordered.listForms state.(store)))), state)
  | StartFormSession formId userId =>
      match Ordered.createSession state.(store) formId userId uuid with
      | (Normal session, store) =>
          (Normal (SessionOutput (summarizeSession session)),
           mkServerState store state.(heap))
      | (Throw e, store) => (Throw e, mkServerState store state.(heap))
      end
  | ListUserForms userId =>
      let sessions := Ordered.listSessions state.(store) (Some (Some userId)) in
      (Normal (SessionsOutput (map summarizeSession sessions)), state)
  | GetFormState sessionId =>
      on_session sessionId (fun h session => (Normal (), h, session))
        (fun session =>
           StateOutput (summarizeSession session) session.(data) session.(fields))
        state
  | SetFieldValueOf sessionId path value =>
      on_session sessionId (fun h session => setFieldValue h session path value)
        (fun session =>
           FieldOutput (summarizeSession session) (JsObj.get session.(fields) path))
        state
  | NextQuestion sessionId =>
      on_session sessionId (fun h session => (Normal (), h, moveToNextQuestion session))
        (fun session => SessionOutput (summarizeSession session)) state
  | PreviousQuestion sessionId =>
      on_session sessionId (fun h session => (Normal (), h, moveToPreviousQuestion session))
        (fun session => SessionOutput (summarizeSession session)) state
  | ValidateForm sessionId =>
      on_session sessionId (fun h session => runSchemaValidation h session)
        (fun session => ValidationOutput (summarizeSession session) session.(fields))
        state
  end.

(** A [tools/call] request: the name of a registered tool with arguments
    that the tool's input schema accepts, or another name. *)
Inductive Request :=
| CallTool (input : ToolInput)
| CallOther (name : string).

(** The result of [tools/call]; [ErrorContent] is the one with
    [isError: true]. *)
Inductive CallToolResult :=
| Content (result : ToolOutput)
| ErrorContent (text : string).

(** [err.message] *)
Definition message_of (e : JsError) : string :=
  match e with
  | Error message | RangeError message | TypeError message => message
  end.

(** The [tools/call] request handler. *)
Definition tools_call `{ArrayLengthConversion} `{Ajv}
    (uuid : string) (request : Request) (state : ServerState)
  : Completion CallToolResult * ServerState :=
  match request with
  | CallOther name => (Throw (Error ("Tool not found: " +:+ name)), state)
  | CallTool input =>
      match handler uuid input state with
      | (Normal result, state) => (Normal (Content result), state)
      | (Throw e, state) => (Normal (ErrorContent ("Error: " +:+ message_of e)), state)
      end
  end.

(** The server after a sequence of requests, each with the identifier
    that [uuidv4()] has ready for it. *)
Definition serve `{ArrayLengthConversion} `{Ajv}
    (state : ServerState) (calls : list (string * Request)) : ServerState :=
  foldl (fun state call => (tools_call call.1 call.2 state).2) state calls.

(** The server when it starts, before it loads forms from disk. *)
Definition initialState : ServerState :=
  mkServerState (Ordered.registerForm Ordered.emptyStore demoForm) [].

(** The [sessionId] argument of the tools that work on a session. *)
Definition sessionId_of (input : ToolInput) : option string :=
  match input with
  | GetFormState sessionId | SetFieldValueOf sessionId _ _
  | NextQuestion sessionId | PreviousQuestion sessionId | ValidateForm sessionId =>
      Some sessionId
  | ListForms | StartFormSession _ _ | ListUserForms _ => None
  end.

(** The session that a call addresses: the one it names, or the one it
    creates. *)
Definition addressed (uuid : string) (input : ToolInput) : option string :=
  match input with
  | StartFormSession _ _ => Some uuid
  | _ => sessionId_of input
  end.

(** The engine operations that a tool applies to its session. *)
Definition operations_of (input : ToolInput) : list Operation :=
  match input with
  | SetFieldValueOf _ path value => [SetFieldValue path value]
  | NextQuestion _ => [MoveToNextQuestion]
  | PreviousQuestion _ => [MoveToPreviousQuestion]
  | ValidateForm _ => [RunSchemaValidation]
  | ListForms | StartFormSession _ _ | ListUserForms _ | GetFormState _ => []
  end.

(** The [session] member of a result. *)
Definition summary_of (output : ToolOutput) : option SessionSummary :=
  match output with
  | SessionOutput session | StateOutput session _ _
  | FieldOutput session _ | ValidationOutput session _ => Some session
  | FormsOutput _ | SessionsOutput _ => None
  end.

(** What holds of every stored session: it is filed under its own
    identifier and its index is in bounds. *)
Definition sessions_well_kept (store : Ordered.InMemoryFormStore) : Prop :=
  forall sid session,
    Ordered.getSession store sid = Some session ->
    session.(sessionId) = sid /\ index_in_bounds session /\
    status_consistent session /\ filed_by_path session /\
    fields_agree_with_data session.

(** What holds of the forms: each is filed under its own [id]. *)
Definition forms_well_kept (store : Ordered.InMemoryFormStore) : Prop :=
  NoDup (map fst store.(Ordered.forms)) /\
  forall key def, (key, def) ∈ store.(Ordered.forms) -> def.(id) = key.

(** The responses to a sequence of requests. *)
Fixpoint responses `{ArrayLengthConversion} `{Ajv}
    (state : ServerState) (calls : list (string * Request))
  : list (Completion CallToolResult) :=
  match calls with
  | [] => []
  | call :: rest =>
      (tools_call call.1 call.2 state).1
        :: responses (tools_call call.1 call.2 state).2 rest
  end.

(** The answers of every stored session are primitives or objects of
    [h]. *)
Definition store_in_heap (h : Heap) (store : Ordered.InMemoryFormStore) : bool :=
  forallb (fun entry => answers_in_heap h entry.2) store.(Ordered.sessions).

(** The value that a call brings is a primitive or an object of [h]. *)
Definition value_in_heap (h : Heap) (call : string * Request) : bool :=
  match call.2 with
  | CallTool (SetFieldValueOf _ _ value) => in_heap h value
  | _ => true
  end.

(** The responses that say that something was not there. *)
Definition not_found (response : Completion CallToolResult) : Prop :=
  response = Normal (ErrorContent "Error: Session not found") \/
  (exists formId, response = Normal (ErrorContent ("Error: Form not found: " +:+ formId))) \/
  (exists name, response = Throw (Error ("Tool not found: " +:+ name))).

Definition succeeded (response : Completion CallToolResult) : Prop :=
  exists result, response = Normal (Content result).

(** The response to a call that came to a schema that ajv does not
    compile. *)
Definition refused `{Ajv} (response : Completion CallToolResult) : Prop :=
  exists schema e,
    ajv_compile schema = Throw e /\
    response = Normal (ErrorContent ("Error: " +:+ message_of e)).

(** A store in which the inherited names play no part: the questions of
    its forms go by other names, and its sessions are ordinary. *)
Definition ordinary_store (store : Ordered.InMemoryFormStore) : bool :=
  forallb (fun entry =>
             forallb (fun question => negb (inherited question))
                     (deriveQuestionOrder entry.2.(schema) ""))
          store.(Ordered.forms)
  && forallb (fun entry => ordinary_session entry.2) store.(Ordered.sessions).

(** The answers of every stored session are filed under paths without
    [__proto__]. *)
Definition proto_free_store (store : Ordered.InMemoryFormStore) : bool :=
  forallb (fun entry => proto_free entry.2) store.(Ordered.sessions).

(** A call that sets no path with the segment [__proto__]. *)
Definition ordinary_call (call : string * Request) : bool :=
  match call.2 with
  | CallTool (SetFieldValueOf _ path _) => no_proto path
  | _ => true
  end.

(** ** Sample requests, for the examples *)

(** A second definition under the id of [demoForm]. *)
Definition secondForm : FormDefinition :=
  mkFormDefinition "demo-contact" "Contact Form, second edition"
    (object_of [("nickname", leaf "string")] None).

(** Two sessions are started, the first is answered and moved, a tool is
    called that does not exist on a session that does not exist. *)
Definition sampleCalls : list (string * Request) :=
  [("s1", CallTool (StartFormSession "demo-contact" (Some "ann")));
   ("s2", CallTool (StartFormSession "demo-contact" None));
   ("s3", CallTool (SetFieldValueOf "s1" "email" (VNumber 7)));
   ("s3", CallTool (NextQuestion "s1"));
   ("s3", CallTool (ValidateForm "nobody"));
   ("s3", CallOther "delete_form")].

(** * Properties *)

(** ** Ordered dictionaries *)

Section DictFacts.
Context {V : Type}.
Implicit Types (o : list (string * V)) (k : string) (v : V).

Lemma get_replace_eq o k v :
  JsObj.has o k = true → JsObj.get (JsObj.replace k v o) k = Some v.
Proof.
  unfold JsObj.has. induction o as [|[k' v'] o IH]; simpl; [done|].
  destruct (String.eqb_spec k' k) as [->|Hne]; simpl.
  - by rewrite String.eqb_refl.
  - intros Hhas. apply String.eqb_neq in Hne. rewrite Hne. by apply IH.
Qed.

Lemma get_replace_ne o k k' v :
  k ≠ k' → JsObj.get (JsObj.replace k v o) k' = JsObj.get o k'.
Proof.
  intros Hne. induction o as [|[k0 v0] o IH]; simpl; [done|].
  destruct (String.eqb_spec k0 k) as [->|Hne0]; simpl.
  - apply String.eqb_neq in Hne. by rewrite Hne.
  - by rewrite IH.
Qed.

Lemma replace_id o k v :
  JsObj.get o k = Some v → JsObj.replace k v o = o.
Proof.
  induction o as [|[k0 v0] o IH]; simpl; [done|].
  destruct (String.eqb_spec k0 k) as [->|Hne0].
  - by intros [= ->].
  - intros Hget. by rewrite IH.
Qed.

Lemma get_insert_index_eq o n k v :
  JsObj.get o k = None → JsObj.get (JsObj.insert_index n k v o) k = Some v.
Proof.
  induction o as [|[k0 v0] o IH]; simpl.
  - by rewrite String.eqb_refl.
  - destruct (String.eqb_spec k0 k) as [->|Hne0]; [done|].
    intros Hget. destruct (Str.array_index k0) as [m|]; simpl.
    + destruct (m <? n)%N; simpl.
      * apply String.eqb_neq in Hne0. rewrite Hne0. by apply IH.
      * by rewrite String.eqb_refl.
    + by rewrite String.eqb_refl.
Qed.

Lemma get_insert_index_ne o n k k' v :
  k ≠ k' → JsObj.get (JsObj.insert_index n k v o) k' = JsObj.get o k'.
Proof.
  intros Hne. apply String.eqb_neq in Hne.
  induction o as [|[k0 v0] o IH]; simpl.
  - by rewrite Hne.
  - destruct (Str.array_index k0) as [m|]; simpl.
    + destruct (m <? n)%N; simpl; [by rewrite IH | by rewrite Hne].
    + by rewrite Hne.
Qed.

Lemma get_app_end_eq o k v :
  JsObj.get o k = None → JsObj.get (o ++ [(k, v)]) k = Some v.
Proof.
  induction o as [|[k0 v0] o IH]; simpl.
  - by rewrite String.eqb_refl.
  - destruct (String.eqb k0 k); [done | apply IH].
Qed.

Lemma get_app_end_ne o k k' v :
  k ≠ k' → JsObj.get (o ++ [(k, v)]) k' = JsObj.get o k'.
Proof.
  intros Hne. apply String.eqb_neq in Hne.
  induction o as [|[k0 v0] o IH]; simpl.
  - by rewrite Hne.
  - by rewrite IH.
Qed.

(** Reading back the property just written. *)
Lemma get_set_eq o k v : JsObj.get (JsObj.set k v o) k = Some v.
Proof.
  unfold JsObj.set. destruct (JsObj.has o k) eqn:Hhas.
  - by apply get_replace_eq.
  - assert (JsObj.get o k = None) as Hnone.
    { unfold JsObj.has in Hhas. by destruct (JsObj.get o k). }
    destruct (Str.array_index k).
    + by apply get_insert_index_eq.
    + by apply get_app_end_eq.
Qed.

(** A write leaves the other properties alone. *)
Lemma get_set_ne o k k' v : k ≠ k' → JsObj.get (JsObj.set k v o) k' = JsObj.get o k'.
Proof.
  intros Hne. unfold JsObj.set. destruct (JsObj.has o k).
  - by apply get_replace_ne.
  - destruct (Str.array_index k).
    + by apply get_insert_index_ne.
    + by apply get_app_end_ne.
Qed.

(** Writing the value a property already has changes nothing, not even
    the enumeration order. *)
Lemma set_id o k v : JsObj.get o k = Some v → JsObj.set k v o = o.
Proof.
  intros Hget. unfold JsObj.set, JsObj.has. rewrite Hget. by apply replace_id.
Qed.

Lemma replace_replace o k v v' :
  JsObj.replace k v' (JsObj.replace k v o) = JsObj.replace k v' o.
Proof.
  induction o as [|[k0 v0] o IH]; simpl; [done|].
  destruct (String.eqb k0 k) eqn:Hk; simpl.
  - by rewrite String.eqb_refl.
  - by rewrite Hk, IH.
Qed.

(** Overwriting the property just written is the same as writing the
    later value in the first place. *)
Lemma replace_set o k v v' :
  JsObj.replace k v' (JsObj.set k v o) = JsObj.set k v' o.
Proof.
  unfold JsObj.set, JsObj.has. destruct (JsObj.get o k) eqn:Hget.
  - apply replace_replace.
  - destruct (Str.array_index k) as [n|].
    + induction o as [|[k0 v0] o IH]; simpl in *.
      * by rewrite String.eqb_refl.
      * destruct (String.eqb k0 k) eqn:Hk; [done|].
        destruct (Str.array_index k0) as [m|]; [destruct (m <? n)%N|]; simpl;
          rewrite ?Hk, ?String.eqb_refl; try done.
        by rewrite IH.
    + induction o as [|[k0 v0] o IH]; simpl in *.
      * by rewrite String.eqb_refl.
      * destruct (String.eqb k0 k) eqn:Hk; [done|]. by rewrite IH.
Qed.

(** A write to a dictionary with the inherited accessor: every name but
    [__proto__] is written, and [__proto__] changes nothing. *)
Lemma write_set o k v : k ≠ "__proto__" → JsObj.write k v o = JsObj.set k v o.
Proof. intros Hk%String.eqb_neq. unfold JsObj.write. by rewrite Hk. Qed.

Lemma write_proto o v :
  JsObj.get o "__proto__" = None → JsObj.write "__proto__" v o = o.
Proof. intros Hget. unfold JsObj.write, JsObj.has. by rewrite Hget. Qed.

Lemma write_cases o k v : JsObj.write k v o = o ∨ JsObj.write k v o = JsObj.set k v o.
Proof. unfold JsObj.write. destruct (_ && _); auto. Qed.

Lemma get_write_eq o k v : k ≠ "__proto__" → JsObj.get (JsObj.write k v o) k = Some v.
Proof. intros Hk. rewrite write_set by done. apply get_set_eq. Qed.

Lemma get_write_ne o k k' v : k ≠ k' → JsObj.get (JsObj.write k v o) k' = JsObj.get o k'.
Proof. intros Hne. destruct (write_cases o k v) as [->| ->]; [done|by apply get_set_ne]. Qed.

Lemma get_write_is_Some o k k' v :
  is_Some (JsObj.get o k') → is_Some (JsObj.get (JsObj.write k v o) k').
Proof.
  intros Hsome. destruct (write_cases o k v) as [->| ->]; [done|].
  destruct (decide (k = k')) as [->|Hne]; [by rewrite get_set_eq | by rewrite get_set_ne].
Qed.

(** What holds of every entry and of the entry written holds of every
    entry afterwards. *)
Lemma forallb_set (P : string * V → bool) o k v :
  forallb P o = true → P (k, v) = true → forallb P (JsObj.set k v o) = true.
Proof.
  intros Ho Hkv. unfold JsObj.set. destruct (JsObj.has o k).
  - induction o as [|[k0 v0] o IH]; simpl in *; [done|].
    apply andb_prop in Ho as [Hv0 Hrest].
    destruct (String.eqb k0 k); simpl; rewrite ?Hv0, ?Hkv, ?Hrest; auto.
  - destruct (Str.array_index k) as [n|].
    + induction o as [|[k0 v0] o IH]; simpl in *; [by rewrite Hkv|].
      apply andb_prop in Ho as [Hv0 Hrest].
      destruct (Str.array_index k0) as [m|]; [destruct (_ <? _)%N|];
        simpl; rewrite ?Hv0, ?Hkv, ?Hrest; auto.
    + rewrite forallb_app, Ho. simpl. by rewrite Hkv.
Qed.

Lemma forallb_replace (P : string * V → bool) o k v :
  forallb P o = true → P (k, v) = true → forallb P (JsObj.replace k v o) = true.
Proof.
  intros Ho Hkv. induction o as [|[k0 v0] o IH]; simpl in *; [done|].
  apply andb_prop in Ho as [Hv0 Hrest].
  destruct (String.eqb k0 k); simpl; rewrite ?Hv0, ?Hkv, ?Hrest; auto.
Qed.

Lemma forallb_map_set (P : string * V → bool) o k v :
  forallb P o = true → P (k, v) = true → forallb P (JsMap.set k v o) = true.
Proof.
  intros Ho Hkv. unfold JsMap.set. destruct (JsObj.has o k).
  - by apply forallb_replace.
  - rewrite forallb_app, Ho. simpl. by rewrite Hkv.
Qed.

Lemma forallb_write (P : string * V → bool) o k v :
  forallb P o = true → P (k, v) = true → forallb P (JsObj.write k v o) = true.
Proof.
  intros Ho Hkv. destruct (write_cases o k v) as [->| ->]; [done|by apply forallb_set].
Qed.

End DictFacts.

(** Mapping over the values commutes with reads and writes. *)
Section DictMap.
Context {V W : Type} (f : V → W).
Implicit Types (o : list (string * V)) (k : string) (v : V).

Lemma get_map o k :
  JsObj.get (map (fun kv => (kv.1, f kv.2)) o) k = f <$> JsObj.get o k.
Proof.
  induction o as [|[k0 v0] o IH]; simpl; [done|].
  by destruct (String.eqb k0 k).
Qed.

Lemma has_map o k :
  JsObj.has (map (fun kv => (kv.1, f kv.2)) o) k = JsObj.has o k.
Proof. unfold JsObj.has. rewrite get_map. by destruct (JsObj.get o k). Qed.

Lemma replace_map o k v :
  JsObj.replace k (f v) (map (fun kv => (kv.1, f kv.2)) o)
  = map (fun kv => (kv.1, f kv.2)) (JsObj.replace k v o).
Proof.
  induction o as [|[k0 v0] o IH]; simpl; [done|].
  destruct (String.eqb k0 k); simpl; [done|]. by rewrite IH.
Qed.

Lemma insert_index_map o n k v :
  JsObj.insert_index n k (f v) (map (fun kv => (kv.1, f kv.2)) o)
  = map (fun kv => (kv.1, f kv.2)) (JsObj.insert_index n k v o).
Proof.
  induction o as [|[k0 v0] o IH]; simpl; [done|].
  destruct (Str.array_index k0) as [m|]; [destruct (m <? n)%N|]; simpl; try done.
  by rewrite IH.
Qed.

Lemma set_map o k v :
  JsObj.set k (f v) (map (fun kv => (kv.1, f kv.2)) o)
  = map (fun kv => (kv.1, f kv.2)) (JsObj.set k v o).
Proof.
  unfold JsObj.set. rewrite has_map. destruct (JsObj.has o k).
  - apply replace_map.
  - destruct (Str.array_index k).
    + apply insert_index_map.
    + by rewrite map_app.
Qed.

End DictMap.

(** ** The validation pass *)

Section PassFacts.
Context `{ArrayLengthConversion} `{Ajv}.

Lemma collect_error_lookup (m : gmap string (list string)) (err : ErrorObject) (p : string) :
  default [] (collect_error m err !! p)
  = default [] (m !! p) ++ violations p [err].
Proof.
  unfold collect_error, violations. simpl.
  destruct (String.eqb_spec (normalizeAjvPath (instancePath err)) p) as [->|Hne]; simpl.
  - rewrite lookup_alter_eq.
    destruct (m !! p) as [msgs|] eqn:Hm.
    + by rewrite Hm.
    + by rewrite lookup_insert_eq.
  - rewrite lookup_alter_ne by done. rewrite app_nil_r.
    destruct (m !! normalizeAjvPath (instancePath err)); [done|].
    by rewrite lookup_insert_ne.
Qed.

Lemma violations_app (p : string) (errs1 errs2 : list ErrorObject) :
  violations p (errs1 ++ errs2) = violations p errs1 ++ violations p errs2.
Proof. unfold violations. by rewrite List.filter_app, map_app. Qed.

Lemma foldl_collect_error_lookup (errs : list ErrorObject) (m : gmap string (list string)) p :
  default [] (foldl collect_error m errs !! p)
  = default [] (m !! p) ++ violations p errs.
Proof.
  revert m. induction errs as [|err errs IH]; intros m; simpl.
  - by rewrite app_nil_r.
  - rewrite IH, collect_error_lookup, <- app_assoc.
    by rewrite <- violations_app.
Qed.

(** The grouping by path: each path gets exactly its own violations, in
    order. *)
Lemma group_errors_lookup (errs : list ErrorObject) (p : string) :
  default [] (group_errors errs !! p) = violations p errs.
Proof. unfold group_errors. by rewrite foldl_collect_error_lookup, lookup_empty. Qed.

Lemma rewrite_field_rewritten fe (flds : list (string * FormFieldState)) (p : string) :
  rewrite_field fe flds p = JsObj.set p (rewritten fe p (JsObj.get flds p)) flds.
Proof.
  unfold rewrite_field, rewritten.
  by destruct (JsObj.get flds p) as [[]|].
Qed.

Lemma rewritten_idem fe p existing :
  rewritten fe p (Some (rewritten fe p existing)) = rewritten fe p existing.
Proof. by destruct existing. Qed.

(** The third loop, seen from one path: a path of [questionOrder] ends
    with the rewritten entry, any other path keeps what it had. *)
Lemma rewrite_fields_lookup fe (qo : list string) (flds : list (string * FormFieldState)) p :
  JsObj.get (foldl (rewrite_field fe) flds qo) p
  = if bool_decide (p ∈ qo) then Some (rewritten fe p (JsObj.get flds p))
    else JsObj.get flds p.
Proof.
  revert flds. induction qo as [|q qo IH]; intros flds; cbn [foldl].
  - by rewrite bool_decide_eq_false_2 by apply not_elem_of_nil.
  - rewrite IH, rewrite_field_rewritten.
    destruct (decide (q = p)) as [->|Hne].
    + rewrite get_set_eq, rewritten_idem.
      rewrite (bool_decide_eq_true_2 (p ∈ p :: qo)) by apply list_elem_of_here.
      by destruct (bool_decide (p ∈ qo)).
    + rewrite get_set_ne by done.
      destruct (decide (p ∈ qo)) as [Hin|Hnin].
      * rewrite !bool_decide_eq_true_2; [done | by apply list_elem_of_further | done].
      * rewrite !bool_decide_eq_false_2; [done | | done].
        rewrite not_elem_of_cons. split; [congruence | done].
Qed.

(** Running the third loop again over rewritten fields changes nothing. *)
Lemma rewrite_fields_idem fe (qo : list string) (flds : list (string * FormFieldState)) :
  foldl (rewrite_field fe) (foldl (rewrite_field fe) flds qo) qo
  = foldl (rewrite_field fe) flds qo.
Proof.
  set (done_ := foldl (rewrite_field fe) flds qo).
  assert (∀ l, (∀ p, p ∈ l → p ∈ qo) → foldl (rewrite_field fe) done_ l = done_) as Hsub.
  { induction l as [|p l IH]; intros Hl; simpl; [done|].
    rewrite rewrite_field_rewritten.
    assert (JsObj.get done_ p = Some (rewritten fe p (JsObj.get flds p))) as Hget.
    { unfold done_. rewrite rewrite_fields_lookup.
      rewrite bool_decide_eq_true_2; [done|]. apply Hl, list_elem_of_here. }
    rewrite Hget, rewritten_idem, set_id by done.
    apply IH. intros q Hq. by apply Hl, list_elem_of_further. }
  by apply Hsub.
Qed.

(** What [runSchemaValidation] does, case by case. *)
Lemma runSchemaValidation_throws_reconstruct h session e h' :
  reconstruct session.(data) h = (Throw e, h') →
  runSchemaValidation h session = (Throw e, h', session).
Proof. intros Hr. unfold runSchemaValidation. by rewrite Hr. Qed.

Lemma runSchemaValidation_throws_compile h session grouped h' e :
  reconstruct session.(data) h = (Normal grouped, h') →
  ajv_compile session.(definitionSnapshot).(schema) = Throw e →
  runSchemaValidation h session = (Throw e, h', session).
Proof. intros Hr Hc. unfold runSchemaValidation. by rewrite Hr, Hc. Qed.

Lemma runSchemaValidation_returns h session grouped h' validate :
  reconstruct session.(data) h = (Normal grouped, h') →
  ajv_compile session.(definitionSnapshot).(schema) = Normal validate →
  let run := validate h' grouped in
  runSchemaValidation h session
  = (Normal (), h',
     mkFormSession session.(sessionId) session.(userId) session.(formId)
       session.(definitionSnapshot) session.(data)
       (foldl (rewrite_field (group_errors (default [] run.(errors))))
              session.(fields) session.(questionOrder))
       (if run.(valid) then Complete else session.(status))
       (if run.(valid) then Valid else Invalid)
       session.(questionOrder) session.(currentQuestionIndex)).
Proof.
  intros Hr Hc. unfold runSchemaValidation. rewrite Hr, Hc. simpl.
  by destruct (valid (validate h' grouped)).
Qed.

(** The three cases are all there are. *)
Lemma runSchemaValidation_cases h session :
  (∃ e h', runSchemaValidation h session = (Throw e, h', session)) ∨
  (∃ grouped h' validate,
      reconstruct session.(data) h = (Normal grouped, h') ∧
      ajv_compile session.(definitionSnapshot).(schema) = Normal validate).
Proof.
  destruct (reconstruct session.(data) h) as [[grouped|e] h'] eqn:Hr.
  - destruct (ajv_compile session.(definitionSnapshot).(schema)) as [validate|e] eqn:Hc.
    + right. by exists grouped, h', validate.
    + left. exists e, h'. by eapply runSchemaValidation_throws_compile.
  - left. exists e, h'. by apply runSchemaValidation_throws_reconstruct.
Qed.

End PassFacts.

(** ** What each operation leaves alone *)

Section Frames.
Context `{ArrayLengthConversion} `{Ajv}.

Ltac by_cases_of_pass h session :=
  destruct (runSchemaValidation_cases h session) as [(? & ? & ->)|(? & ? & ? & Hr & Hc)];
  [ | rewrite (runSchemaValidation_returns h session _ _ _ Hr Hc) ]; simpl.

Lemma runSchemaValidation_questionOrder h session :
  (runSchemaValidation h session).2.(questionOrder) = session.(questionOrder).
Proof. by by_cases_of_pass h session. Qed.

Lemma runSchemaValidation_index h session :
  (runSchemaValidation h session).2.(currentQuestionIndex) = session.(currentQuestionIndex).
Proof. by by_cases_of_pass h session. Qed.

(** The pass leaves [data] alone: the same paths, holding the same
    primitives and the same references. *)
Lemma runSchemaValidation_data h session :
  (runSchemaValidation h session).2.(data) = session.(data).
Proof. by by_cases_of_pass h session. Qed.

Lemma runSchemaValidation_definitionSnapshot h session :
  (runSchemaValidation h session).2.(definitionSnapshot) = session.(definitionSnapshot).
Proof. by by_cases_of_pass h session. Qed.

Lemma runSchemaValidation_status h session :
  (runSchemaValidation h session).2.(status) = Complete ∨
  (runSchemaValidation h session).2.(status) = session.(status).
Proof. by_cases_of_pass h session; [by right|]. destruct (valid _); [by left | by right]. Qed.

(** The pass neither creates nor rewrites the entry of a path that is not
    a question. *)
Lemma runSchemaValidation_untracked h session p :
  p ∉ session.(questionOrder) →
  JsObj.get (runSchemaValidation h session).2.(fields) p = JsObj.get session.(fields) p.
Proof.
  intros Hp. by_cases_of_pass h session; [done|].
  by rewrite rewrite_fields_lookup, bool_decide_eq_false_2.
Qed.

(** The pass keeps [path], [value] and [touched] of an entry it finds. *)
Lemma runSchemaValidation_keeps_answer h session p f :
  JsObj.get session.(fields) p = Some f →
  ∃ f', JsObj.get (runSchemaValidation h session).2.(fields) p = Some f' ∧
        f'.(path) = f.(path) ∧ f'.(value) = f.(value) ∧ f'.(touched) = f.(touched).
Proof.
  intros Hf. by_cases_of_pass h session; [by exists f|].
  rewrite rewrite_fields_lookup, Hf. case_bool_decide; eauto.
Qed.

Lemma record_answer_questionOrder session p v :
  (record_answer session p v).(questionOrder) = session.(questionOrder).
Proof. unfold record_answer. simpl. by destruct (status session). Qed.

Lemma record_answer_index session p v :
  (record_answer session p v).(currentQuestionIndex) = session.(currentQuestionIndex).
Proof. unfold record_answer. simpl. by destruct (status session). Qed.

Lemma record_answer_data session p v :
  (record_answer session p v).(data) = JsObj.write p v session.(data).
Proof. unfold record_answer. simpl. by destruct (status session). Qed.

Lemma record_answer_fields session p v :
  (record_answer session p v).(fields)
  = JsObj.set p
      (mkFormFieldState p v
         (default false (schemaValid <$> JsObj.get session.(fields) p))
         (default [] (messages <$> JsObj.get session.(fields) p)) true)
      session.(fields).
Proof. unfold record_answer. simpl. by destruct (status session). Qed.

Lemma record_answer_status session p v :
  (record_answer session p v).(status)
  = if session.(status) is NotStarted then InProgress else session.(status).
Proof. unfold record_answer. simpl. by destruct (status session) eqn:Hst; simpl; rewrite ?Hst. Qed.

Lemma record_answer_definitionSnapshot session p v :
  (record_answer session p v).(definitionSnapshot) = session.(definitionSnapshot).
Proof. unfold record_answer. simpl. by destruct (status session). Qed.

Lemma perform_questionOrder state op :
  (perform state op).2.(questionOrder) = state.2.(questionOrder).
Proof.
  destruct op; simpl.
  - unfold setFieldValue. by rewrite runSchemaValidation_questionOrder, record_answer_questionOrder.
  - apply runSchemaValidation_questionOrder.
  - unfold moveToNextQuestion. by destruct (_ <? _).
  - unfold moveToPreviousQuestion. by destruct (_ >? _).
Qed.

Lemma perform_all_questionOrder state ops :
  (perform_all state ops).2.(questionOrder) = state.2.(questionOrder).
Proof.
  revert state. induction ops as [|op ops IH]; intros state; [done|].
  unfold perform_all in *. simpl. by rewrite IH, perform_questionOrder.
Qed.



Lemma perform_status_complete state op :
  state.2.(status) = Complete → (perform state op).2.(status) = Complete.
Proof.
  intros Hst. destruct op as [p v| | |]; simpl.
  - unfold setFieldValue.
    destruct (runSchemaValidation_status state.1 (record_answer state.2 p v)) as [->| ->];
      [done|].
    by rewrite record_answer_status, Hst.
  - destruct (runSchemaValidation_status state.1 state.2) as [->| ->]; done.
  - unfold moveToNextQuestion. by destruct (_ <? _).
  - unfold moveToPreviousQuestion. by destruct (_ >? _).
Qed.

Lemma perform_index_in_bounds state op :
  index_in_bounds state.2 → index_in_bounds (perform state op).2.
Proof.
  unfold index_in_bounds. intros Hb. destruct op as [p v| | |]; simpl.
  - unfold setFieldValue.
    by rewrite runSchemaValidation_index, runSchemaValidation_questionOrder,
      record_answer_index, record_answer_questionOrder.
  - by rewrite runSchemaValidation_index, runSchemaValidation_questionOrder.
  - unfold moveToNextQuestion. destruct (Z.ltb_spec (currentQuestionIndex state.2)
      (Z.of_nat (length (questionOrder state.2)) - 1)); simpl; lia.
  - unfold moveToPreviousQuestion. destruct (Z.gtb_spec (currentQuestionIndex state.2) 0);
      simpl; lia.
Qed.

Lemma perform_all_index_in_bounds state ops :
  index_in_bounds state.2 → index_in_bounds (perform_all state ops).2.
Proof.
  revert state. induction ops as [|op ops IH]; intros state Hstate; [done|].
  unfold perform_all in *. simpl. by apply IH, perform_index_in_bounds.
Qed.

Lemma perform_all_status_complete state ops :
  state.2.(status) = Complete → (perform_all state ops).2.(status) = Complete.
Proof.
  revert state. induction ops as [|op ops IH]; intros state Hstate; [done|].
  unfold perform_all in *. simpl. by apply IH, perform_status_complete.
Qed.

End Frames.

(** ** The claims about the validation pass and the field mutator *)

Section EngineClaims.
Context `{ArrayLengthConversion} `{Ajv}.

(** After [runSchemaValidation(session)] returns, every path of
    [questionOrder], with or without violations, has an entry in
    [fields]; its [messages] are the messages of the errors whose
    instance path [normalizeAjvPath] maps to the path, whatever messages
    were stored before, and its [schemaValid] is true exactly when there
    are none. *)
Lemma runSchemaValidation_fields_by_normalized_path h session h' session' :
  runSchemaValidation h session = (Normal (), h', session') →
  ∃ grouped validate,
    reconstruct session.(data) h = (Normal grouped, h') ∧
    ajv_compile session.(definitionSnapshot).(schema) = Normal validate ∧
    session'.(data) = session.(data) ∧
    session'.(overallValidity) = (if (validate h' grouped).(valid) then Valid else Invalid) ∧
    session'.(status)
    = (if (validate h' grouped).(valid) then Complete else session.(status)) ∧
    let errs := default [] (validate h' grouped).(errors) in
    ∀ p, p ∈ session.(questionOrder) →
      ∃ f, JsObj.get session'.(fields) p = Some f ∧
           (f.(schemaValid) = true ↔ violations p errs = []) ∧
           f.(messages) = violations p errs.
Proof.
  intros Hrun.
  destruct (runSchemaValidation_cases h session)
    as [(e & h1 & He)|(grouped & h1 & validate & Hr & Hc)]; [congruence|].
  rewrite (runSchemaValidation_returns h session _ _ _ Hr Hc) in Hrun.
  injection Hrun as <- <-.
  exists grouped, validate. split; [done|]. split; [done|]. simpl.
  split; [done|]. split; [done|]. split; [done|]. intros p Hp.
  rewrite rewrite_fields_lookup, bool_decide_eq_true_2 by done.
  eexists. split; [done|].
  unfold rewritten. rewrite group_errors_lookup.
  destruct (JsObj.get (fields session) p); simpl;
    (split; [|done]); destruct (violations p _); simpl; split; done.
Qed.

(** C10.  A session that has not started and holds no answer, whose
    snapshot schema accepts the empty document, is made [valid] and
    [complete] by [runSchemaValidation]: the status skips [in-progress]. *)
Theorem runSchemaValidation_completes_unanswered h session validate :
  session.(status) = NotStarted →
  session.(data) = [] →
  ajv_compile session.(definitionSnapshot).(schema) = Normal validate →
  (validate (h ++ [empty_object]) (VRef (length h))).(valid) = true →
  ∃ h' session', runSchemaValidation h session = (Normal (), h', session') ∧
                 session'.(overallValidity) = Valid ∧
                 session'.(status) = Complete.
Proof.
  intros Hst Hdata Hc Hvalid.
  assert (reconstruct session.(data) h = (Normal (VRef (length h)), h ++ [empty_object]))
    as Hr by by rewrite Hdata.
  rewrite (runSchemaValidation_returns h session _ _ _ Hr Hc). simpl.
  rewrite Hvalid. eauto.
Qed.

Lemma runSchemaValidation_reports_valid h session grouped h' validate :
  reconstruct session.(data) h = (Normal grouped, h') →
  ajv_compile session.(definitionSnapshot).(schema) = Normal validate →
  reports_valid (runSchemaValidation h session) = (validate h' grouped).(valid).
Proof.
  intros Hr Hc. rewrite (runSchemaValidation_returns h session _ _ _ Hr Hc).
  unfold reports_valid. simpl. by destruct (valid _).
Qed.

Lemma runSchemaValidation_status_rule h session :
  (runSchemaValidation h session).2.(status)
  = if reports_valid (runSchemaValidation h session) then Complete else session.(status).
Proof.
  destruct (runSchemaValidation_cases h session)
    as [(e & h1 & He)|(grouped & h1 & validate & Hr & Hc)].
  - by rewrite He.
  - rewrite (runSchemaValidation_returns h session _ _ _ Hr Hc).
    unfold reports_valid. simpl. by destruct (valid _).
Qed.

(** C3.  The transitions of [status]: an answer given to a session that
    has not started leaves it [in-progress], unless the pass that
    [setFieldValue] runs reports validity; [runSchemaValidation] sets
    [complete] exactly when the pass reports overall validity and leaves
    the status alone otherwise; and no operation, failed or not, takes a
    [complete] session back. *)
Theorem status_transitions h session :
  (∀ p v, session.(status) = NotStarted →
          (record_answer session p v).(status) = InProgress ∧
          (setFieldValue h session p v).2.(status)
          = if reports_valid (setFieldValue h session p v) then Complete else InProgress) ∧
  (runSchemaValidation h session).2.(status)
  = (if reports_valid (runSchemaValidation h session) then Complete else session.(status)) ∧
  (session.(status) = Complete →
   ∀ ops, (perform_all (h, session) ops).2.(status) = Complete).
Proof.
  split; [|split].
  - intros p v Hst. rewrite record_answer_status, Hst. split; [done|].
    unfold setFieldValue. rewrite runSchemaValidation_status_rule.
    by rewrite record_answer_status, Hst.
  - apply runSchemaValidation_status_rule.
  - intros Hst ops. by apply (perform_all_status_complete (h, session)).
Qed.

(** What [setFieldValue(session, path, value)] has done when it returns,
    for every path but [__proto__]: [data[path]] is [value];
    [fields[path]] exists, touched, with that value; the status is no
    longer [not-started]; and the session is as a validation pass over
    the answers it now holds leaves it.  The document has been rebuilt
    from [data] with the new answer in it, the compiled schema has been
    run on it, [overallValidity] is its verdict, [valid] or [invalid], a
    [valid] session is [complete], and the entry of every question holds
    the messages of this run. *)
Theorem setFieldValue_postcondition h session p v h' session' :
  p ≠ "__proto__" →
  setFieldValue h session p v = (Normal (), h', session') →
  JsObj.get session'.(data) p = Some v ∧
  (∃ f, JsObj.get session'.(fields) p = Some f ∧ f.(touched) = true ∧ f.(value) = v) ∧
  session'.(status) ≠ NotStarted ∧
  ∃ grouped validate,
    reconstruct session'.(data) h = (Normal grouped, h') ∧
    ajv_compile session'.(definitionSnapshot).(schema) = Normal validate ∧
    let run := validate h' grouped in
    session'.(overallValidity) = (if run.(valid) then Valid else Invalid) ∧
    (run.(valid) = true → session'.(status) = Complete) ∧
    ∀ q, q ∈ session'.(questionOrder) →
      ∃ f, JsObj.get session'.(fields) q = Some f ∧
           (f.(schemaValid) = true ↔ violations q (default [] run.(errors)) = []) ∧
           f.(messages) = violations q (default [] run.(errors)).
Proof.
  unfold setFieldValue. intros Hp Hrun.
  set (answered := record_answer session p v) in *.
  destruct (runSchemaValidation_fields_by_normalized_path h answered h' session' Hrun)
    as (grouped & validate & Hr & Hc & Hdata & Hvalidity & Hstatus & Hfields).
  assert (session' = (runSchemaValidation h answered).2) as Hsession by by rewrite Hrun.
  split; [|split; [|split]].
  - rewrite Hdata. unfold answered. by rewrite record_answer_data, get_write_eq.
  - destruct (runSchemaValidation_keeps_answer h answered p
                (mkFormFieldState p v
                   (default false (schemaValid <$> JsObj.get session.(fields) p))
                   (default [] (messages <$> JsObj.get session.(fields) p)) true))
      as (f' & Hf' & _ & Hv & Ht).
    { unfold answered. by rewrite record_answer_fields, get_set_eq. }
    rewrite Hsession. by exists f'.
  - rewrite Hstatus. destruct (valid _); [done|].
    unfold answered. rewrite record_answer_status. by destruct (status session).
  - exists grouped, validate.
    assert (definitionSnapshot session' = definitionSnapshot answered) as ->
      by by rewrite Hsession, runSchemaValidation_definitionSnapshot.
    assert (questionOrder session' = questionOrder answered) as ->
      by by rewrite Hsession, runSchemaValidation_questionOrder.
    rewrite Hdata. split; [done|]. split; [done|]. simpl.
    split; [done|]. split; [|exact Hfields].
    intros Hvalid. by rewrite Hstatus, Hvalid.
Qed.

(** [setFieldValue] returns exactly when the pass it runs does: when the
    document can be rebuilt from the answers and the schema compiles. *)
Lemma setFieldValue_returns_iff h session p v :
  returns (setFieldValue h session p v).1.1 = true ↔
  ∃ grouped h' validate,
    reconstruct (JsObj.write p v session.(data)) h = (Normal grouped, h') ∧
    ajv_compile session.(definitionSnapshot).(schema) = Normal validate.
Proof.
  unfold setFieldValue.
  pose proof (record_answer_data session p v) as Hd.
  pose proof (record_answer_definitionSnapshot session p v) as Hs.
  destruct (runSchemaValidation_cases h (record_answer session p v))
    as [(e & h1 & He)|(grouped & h1 & validate & Hr & Hc)].
  - rewrite He. simpl. split; [done|]. intros (grouped & h' & validate & Hr & Hc).
    rewrite <- Hd in Hr. rewrite <- Hs in Hc.
    rewrite (runSchemaValidation_returns _ _ _ _ _ Hr Hc) in He. congruence.
  - rewrite (runSchemaValidation_returns _ _ _ _ _ Hr Hc). simpl. split; [|done].
    intros _. exists grouped, h1, validate. by rewrite <- Hd, <- Hs.
Qed.

End EngineClaims.

(** ** Navigation and untracked paths *)

Section SessionClaims.
Context `{ArrayLengthConversion} `{Ajv}.

(** C5.  From an index within bounds (where [createSession] puts it),
    [0 <= currentQuestionIndex <= max(0, len(questionOrder) - 1)] holds
    after every sequence of operations, navigation calls in particular;
    [moveToNextQuestion] at the last index, [moveToPreviousQuestion] at
    index 0, and both on an empty [questionOrder], leave the session
    unchanged: the index never wraps. *)
Theorem navigation_stays_in_bounds h session :
  index_in_bounds session →
  (∀ ops, index_in_bounds (perform_all (h, session) ops).2) ∧
  (session.(currentQuestionIndex) = Z.of_nat (length session.(questionOrder)) - 1 →
   moveToNextQuestion session = session) ∧
  (session.(currentQuestionIndex) = 0 → moveToPreviousQuestion session = session) ∧
  (session.(questionOrder) = [] →
   moveToNextQuestion session = session ∧ moveToPreviousQuestion session = session).
Proof.
  intros Hb. split; [|split; [|split]].
  - intros ops. by apply (perform_all_index_in_bounds (h, session)).
  - intros Hlast. unfold moveToNextQuestion. rewrite Hlast.
    by rewrite Z.ltb_irrefl.
  - intros Hfirst. unfold moveToPreviousQuestion. by rewrite Hfirst.
  - intros Hempty. unfold index_in_bounds in Hb. rewrite Hempty in Hb. simpl in Hb.
    assert (currentQuestionIndex session = 0) as Hzero by lia.
    unfold moveToNextQuestion, moveToPreviousQuestion.
    by rewrite Hempty, Hzero.
Qed.


End SessionClaims.

(** ** Question order *)

Lemma deriveQuestionOrder_leaf schema base :
  expands schema = false → deriveQuestionOrder schema base = [].
Proof.
  destruct schema as [[|ty|] [props|] req kw]; unfold expands; simpl; try done.
  by intros ->.
Qed.

Lemma deriveQuestionOrder_object props req kw base :
  deriveQuestionOrder (mkJsonSchema (TypeName "object") (Some props) req kw) base
  = flat_map (fun prop => childPath base prop.1
                            :: deriveQuestionOrder prop.2 (childPath base prop.1))
             props.
Proof.
  simpl. induction props as [|[key child] props IH]; simpl; [done|].
  by rewrite IH.
Qed.

(** C6.  [deriveQuestionOrder] walks the property tree depth-first in
    pre-order: a schema that is not an object with named properties
    yields nothing below its own path; an object schema yields, property
    by property in order, the property's path followed at once by the
    paths of that property's own children; and the schema
    [{object: {a: string, b: {object: {c: string}}}}] yields
    [["a", "b", "b.c"]]. *)
Theorem deriveQuestionOrder_preorder :
  (∀ schema base, expands schema = false → deriveQuestionOrder schema base = []) ∧
  (∀ (earlier later : list (string * JsonSchema)) key child req kw base,
     deriveQuestionOrder
       (mkJsonSchema (TypeName "object") (Some (earlier ++ (key, child) :: later)) req kw)
       base
     = deriveQuestionOrder (mkJsonSchema (TypeName "object") (Some earlier) req kw) base
       ++ childPath base key
       :: deriveQuestionOrder child (childPath base key)
       ++ deriveQuestionOrder (mkJsonSchema (TypeName "object") (Some later) req kw) base) ∧
  (∀ key child req kw base,
     expands child = false →
     deriveQuestionOrder (mkJsonSchema (TypeName "object") (Some [(key, child)]) req kw) base
     = [childPath base key]) ∧
  deriveQuestionOrder nestedSchema "" = ["a"; "b"; "b.c"].
Proof.
  split; [|split; [|split]].
  - apply deriveQuestionOrder_leaf.
  - intros. rewrite !deriveQuestionOrder_object, flat_map_app. by simpl.
  - intros key child req kw base Hleaf.
    rewrite deriveQuestionOrder_object. simpl.
    by rewrite (deriveQuestionOrder_leaf child _ Hleaf).
  - reflexivity.
Qed.

(** ** Session creation *)

Section SessionIds.
Context `{UuidV4}.

(** In a store that the program gets to, every session is kept under
    its own id, and that id is one that [uuidv4] has issued. *)
Lemma reachable_ids g store :
  reachable g store →
  ∀ key session, store.(sessions) !! key = Some session →
    session.(sessionId) = key ∧ key ∈ issued g.
Proof.
  induction 1 as [g|g store def _ IH|g store fid uid _ IH|g store key0 old new _ IH Hold Hid];
    intros key session.
  - simpl. by rewrite lookup_empty.
  - apply IH.
  - unfold createSession_uuidv4, createSession.
    destruct (forms store !! fid) as [form|]; simpl; [|apply IH].
    rewrite uuidv4_issued. destruct (decide ((uuidv4 g).1 = key)) as [<-|Hne].
    + rewrite lookup_insert_eq. intros [= <-]. split; [done|apply list_elem_of_here].
    + rewrite lookup_insert_ne by done. intros [? ?]%IH. split; [done|].
      by apply list_elem_of_further.
  - simpl. destruct (decide (key0 = key)) as [<-|Hne].
    + rewrite lookup_insert_eq. intros [= <-]. destruct (IH _ _ Hold) as [? ?].
      split; [congruence|done].
    + rewrite lookup_insert_ne by done. apply IH.
Qed.

(** C7.  [createSession(formId)] on an unregistered id throws "Form not
    found", leaves the store as it was and does not ask [uuidv4]; on a
    registered id it returns a session with the id that [uuidv4] gives
    it, which is fresh: no session is in the store under it, every
    session of the store has another id and stays where it was.  The
    session has no data, no fields, status [not-started], validity
    [unknown], index 0 and the question order derived from the registered
    schema, and it is in the store under its id.  This holds in every
    store that the program gets to, and the store it leaves is one. *)
Theorem createSession_spec g store fid uid :
  reachable g store →
  (store.(forms) !! fid = None →
   createSession_uuidv4 g store fid uid
   = (Throw (Error ("Form not found: " +:+ fid)), store, g)) ∧
  (∀ form, store.(forms) !! fid = Some form →
     ∃ session store' g',
       createSession_uuidv4 g store fid uid = (Normal session, store', g') ∧
       session.(sessionId) = (uuidv4 g).1 ∧
       store.(sessions) !! session.(sessionId) = None ∧
       (∀ key existing, store.(sessions) !! key = Some existing →
          existing.(sessionId) ≠ session.(sessionId) ∧
          store'.(sessions) !! key = Some existing) ∧
       session.(formId) = fid ∧
       session.(userId) = uid ∧
       session.(definitionSnapshot) = form ∧
       session.(data) = [] ∧
       session.(fields) = [] ∧
       session.(status) = NotStarted ∧
       session.(overallValidity) = Unknown ∧
       session.(currentQuestionIndex) = 0 ∧
       session.(questionOrder) = deriveQuestionOrder form.(schema) "" ∧
       store'.(forms) = store.(forms) ∧
       store'.(sessions) !! session.(sessionId) = Some session ∧
       reachable g' store').
Proof.
  intros Hreached. split.
  - intros Hnone. unfold createSession_uuidv4. by rewrite Hnone.
  - intros form Hform.
    pose proof (reachable_createSession g store fid uid Hreached) as Hnext.
    unfold createSession_uuidv4, createSession in *. rewrite Hform in *. simpl in Hnext.
    assert (sessions store !! (uuidv4 g).1 = None) as Hfresh.
    { destruct (sessions store !! (uuidv4 g).1) as [existing|] eqn:Hexisting; [|done].
      destruct (reachable_ids g store Hreached _ _ Hexisting) as [_ Hissued].
      by apply uuidv4_fresh in Hissued. }
    eexists _, _, _. split; [done|]. simpl. split; [done|]. split; [done|]. split.
    { intros key existing Hkey.
      destruct (reachable_ids g store Hreached _ _ Hkey) as [Hid _].
      assert (key ≠ (uuidv4 g).1) as Hne by congruence.
      split; [by rewrite Hid|]. by rewrite lookup_insert_ne. }
    repeat (split; [done|]). split; [by rewrite lookup_insert_eq|done].
Qed.

End SessionIds.

Lemma createSession_index_in_bounds store formId userId uuid session store' :
  createSession store formId userId uuid = (Normal session, store') →
  index_in_bounds session.
Proof.
  unfold createSession. destruct (forms store !! formId); [|done].
  intros [= <- _]. unfold index_in_bounds. simpl. lia.
Qed.

(** The sessions of the examples are those that [createSession] makes. *)
Lemma createSession_sessionOf store form uuid :
  store.(forms) !! form.(id) = Some form →
  (createSession store form.(id) None uuid).1 = Normal (sessionOf form uuid).
Proof. intros Hform. unfold createSession. by rewrite Hform. Qed.

(** A session fresh from [createSession] keeps its index in bounds,
    whatever is done with it. *)
Lemma created_session_stays_in_bounds `{ArrayLengthConversion} `{Ajv}
    store fid uid uuid session store' (h : Heap) ops :
  createSession store fid uid uuid = (Normal session, store') →
  index_in_bounds (perform_all (h, session) ops).2.
Proof.
  intros Hcreate.
  apply (perform_all_index_in_bounds (h, session)).
  by apply (createSession_index_in_bounds _ _ _ _ _ _ Hcreate).
Qed.

(** ** Document reconstruction

    The lemmas of this section are about [read] and [assign] as they
    are defined, whatever the key.  Of the code they speak for paths
    without the segment [__proto__] (see [read]); the theorems that are
    built on them have that in their statements. *)

Section Reconstruction.
Context `{ArrayLengthConversion}.

#[local] Arguments setDeepValue_loop : simpl never.

Lemma setDeepValue_loop_step current key next rest value :
  setDeepValue_loop current (key :: next :: rest) value
  = (found ← prop_get current key;
     _ ← (if needs_container found
          then fresh ← alloc empty_object; prop_set current key fresh
          else mret ());
     next' ← prop_get current key;
     setDeepValue_loop next' (next :: rest) value).
Proof. reflexivity. Qed.

Lemma needs_container_spec v :
  needs_container v = false ↔ ∃ address, v = VRef address.
Proof.
  unfold needs_container. destruct v; simpl; rewrite ?orb_true_r; split;
    try done; try (by intros [? ?]); eauto.
Qed.

(** One turn of the loop on a segment that is not the last, as a
    function of the heap. *)
Lemma setDeepValue_loop_run current key next rest value (h : Heap) :
  setDeepValue_loop current (key :: next :: rest) value h
  = if needs_container (read h current key)
    then match prop_set current key (VRef (length h)) (h ++ [empty_object]) with
         | (Normal _, h') =>
             setDeepValue_loop (read h' current key) (next :: rest) value h'
         | (Throw e, h') => (Throw e, h')
         end
    else setDeepValue_loop (read h current key) (next :: rest) value h.
Proof.
  rewrite setDeepValue_loop_step. unfold mbind, Js_bind, prop_get, alloc, mret, Js_ret.
  destruct (needs_container (read h current key)); [|done].
  by destruct (prop_set current key (VRef (length h)) (h ++ [empty_object])) as [[[]|e] h'].
Qed.

Lemma for_each_run {A} (f : A → Js unit) x rest (h : Heap) :
  for_each f (x :: rest) h
  = match f x h with
    | (Normal _, h') => for_each f rest h'
    | (Throw e, h') => (Throw e, h')
    end.
Proof. cbn [for_each]. unfold mbind, Js_bind. by destruct (f x h) as [[[]|e] h']. Qed.

Lemma reconstruct_run (data : list (string * JsValue)) (h : Heap) :
  reconstruct data h
  = match for_each (fun entry => setDeepValue (VRef (length h)) entry.1 entry.2) data
            (h ++ [empty_object]) with
    | (Normal _, h') => (Normal (VRef (length h)), h')
    | (Throw e, h') => (Throw e, h')
    end.
Proof.
  unfold reconstruct, mbind, Js_bind, alloc, mret, Js_ret.
  by destruct (for_each _ data (h ++ [empty_object])) as [[[]|e] h'].
Qed.

(** Inside an array, a path that goes through [length] cannot be walked:
    the number found there is no container, and an array refuses a
    container as its length.  The container made for it stays in the
    heap. *)
Lemma setDeepValue_loop_through_length h address len own next rest value :
  h !! address = Some (mkJsObject (Some len) own) →
  setDeepValue_loop (VRef address) ("length" :: next :: rest) value h
  = (Throw (RangeError "Invalid array length"), h ++ [empty_object]).
Proof.
  intros Harray. rewrite setDeepValue_loop_run.
  unfold read at 1. rewrite Harray. simpl.
  assert (needs_container (VNumber (Z.of_N len)) = true) as ->
    by (unfold needs_container; simpl; apply orb_true_r).
  unfold prop_set.
  rewrite lookup_app_l by by eapply lookup_lt_Some.
  rewrite Harray. unfold assign. simpl.
  rewrite array_length_of_empty_object; [done|].
  by rewrite lookup_app_r, Nat.sub_diag.
Qed.

(** *** Heaps without arrays *)

Lemma in_heap_mono (h h' : Heap) v :
  (length h ≤ length h')%nat → in_heap h v = true → in_heap h' v = true.
Proof.
  destruct v; simpl; try done. intros Hle Hin%bool_decide_eq_true.
  apply bool_decide_eq_true. lia.
Qed.

Lemma plain_object_mono (h h' : Heap) o :
  (length h ≤ length h')%nat → plain_object h o = true → plain_object h' o = true.
Proof.
  unfold plain_object. intros Hle [Harr Hown]%andb_true_iff.
  rewrite Harr. simpl. rewrite forallb_forall in *.
  intros kv Hkv. by eapply in_heap_mono, Hown.
Qed.

Lemma plain_heap_lookup (h : Heap) address o :
  plain_heap h = true → h !! address = Some o → plain_object h o = true.
Proof.
  unfold plain_heap. rewrite forallb_forall. intros Hall Hlookup.
  apply Hall, list_elem_of_In. by eapply list_elem_of_lookup_2.
Qed.

Lemma plain_heap_alloc (h : Heap) :
  plain_heap h = true → plain_heap (h ++ [empty_object]) = true.
Proof.
  unfold plain_heap. rewrite !forallb_forall. intros Hall o Ho.
  apply in_app_or in Ho as [Ho|Ho].
  - eapply plain_object_mono, Hall, Ho. rewrite length_app. lia.
  - destruct Ho as [<-|[]]. done.
Qed.

Lemma plain_heap_insert (h : Heap) address o :
  plain_heap h = true → plain_object h o = true →
  plain_heap (<[address := o]> h) = true.
Proof.
  unfold plain_heap. rewrite !forallb_forall. intros Hall Ho o' Ho'.
  apply list_elem_of_In, list_elem_of_lookup in Ho' as [i Hi].
  assert (plain_object h o' = true) as Hplain.
  { pose proof (lookup_lt_Some _ _ _ Hi) as Hlt. rewrite length_insert in Hlt.
    destruct (decide (address = i)) as [->|Hne].
    - rewrite list_lookup_insert_eq in Hi by done.
      by injection Hi as <-.
    - rewrite list_lookup_insert_ne in Hi by done.
      apply Hall, list_elem_of_In. by eapply list_elem_of_lookup_2. }
  eapply plain_object_mono, Hplain. by rewrite length_insert.
Qed.

Lemma in_heap_get (h : Heap) own key v :
  forallb (fun kv : string * JsValue => in_heap h kv.2) own = true →
  JsObj.get own key = Some v → in_heap h v = true.
Proof.
  induction own as [|[k' v'] own IH]; simpl; [done|].
  intros [Hv' Hown]%andb_true_iff. destruct (String.eqb k' key).
  - by intros [= <-].
  - by apply IH.
Qed.

Lemma in_heap_replace (h : Heap) own key v :
  forallb (fun kv : string * JsValue => in_heap h kv.2) own = true →
  in_heap h v = true →
  forallb (fun kv : string * JsValue => in_heap h kv.2) (JsObj.replace key v own) = true.
Proof.
  intros Hown Hv. induction own as [|[k' v'] own IH]; simpl; [done|].
  simpl in Hown. apply andb_true_iff in Hown as [Hv' Hown].
  destruct (String.eqb k' key); simpl.
  - by rewrite Hv, Hown.
  - by rewrite Hv', IH.
Qed.

Lemma in_heap_insert_index (h : Heap) own n key v :
  forallb (fun kv : string * JsValue => in_heap h kv.2) own = true →
  in_heap h v = true →
  forallb (fun kv : string * JsValue => in_heap h kv.2) (JsObj.insert_index n key v own) = true.
Proof.
  intros Hown Hv. induction own as [|[k' v'] own IH]; simpl.
  - by rewrite Hv.
  - simpl in Hown. apply andb_true_iff in Hown as [Hv' Hown].
    destruct (Str.array_index k') as [m|]; [destruct (m <? n)%N|]; simpl.
    + by rewrite Hv', IH.
    + by rewrite Hv, Hv', Hown.
    + by rewrite Hv, Hv', Hown.
Qed.

Lemma in_heap_set (h : Heap) own key v :
  forallb (fun kv : string * JsValue => in_heap h kv.2) own = true →
  in_heap h v = true →
  forallb (fun kv : string * JsValue => in_heap h kv.2) (JsObj.set key v own) = true.
Proof.
  intros Hown Hv. unfold JsObj.set. destruct (JsObj.has own key).
  - by apply in_heap_replace.
  - destruct (Str.array_index key).
    + by apply in_heap_insert_index.
    + rewrite forallb_app, Hown. simpl. by rewrite Hv.
Qed.

(** A property write on a heap without arrays returns. *)
Lemma prop_set_plain (h : Heap) address key v :
  plain_heap h = true → (address < length h)%nat → in_heap h v = true →
  ∃ h', prop_set (VRef address) key v h = (Normal (), h') ∧
        plain_heap h' = true ∧ length h' = length h ∧
        read h' (VRef address) key = v.
Proof.
  intros Hplain Haddr Hv.
  destruct (lookup_lt_is_Some_2 h address Haddr) as [o Ho].
  pose proof (plain_heap_lookup h address o Hplain Ho) as Hobj.
  destruct o as [[len|] own]; [done|].
  unfold plain_object in Hobj. simpl in Hobj.
  unfold prop_set. rewrite Ho. unfold assign. simpl.
  eexists. split; [done|]. split; [|split].
  - apply plain_heap_insert; [done|]. unfold plain_object. simpl.
    by apply in_heap_set.
  - by rewrite length_insert.
  - unfold read. rewrite list_lookup_insert_eq by done. by rewrite get_set_eq.
Qed.

(** What is read from a heap without arrays is in the heap. *)
Lemma read_plain (h : Heap) address key :
  plain_heap h = true → in_heap h (read h (VRef address) key) = true.
Proof.
  intros Hplain. unfold read.
  destruct (h !! address) as [[[len|] own]|] eqn:Ho; try done.
  - by pose proof (plain_heap_lookup h address _ Hplain Ho).
  - pose proof (plain_heap_lookup h address _ Hplain Ho) as Hobj.
    unfold plain_object in Hobj. simpl in Hobj.
    destruct (JsObj.get own key) as [v|] eqn:Hget; [|done].
    by eapply in_heap_get.
Qed.

(** Away from arrays, [setDeepValue] always returns. *)
Lemma setDeepValue_loop_plain parts (h : Heap) address value :
  plain_heap h = true → (address < length h)%nat → in_heap h value = true →
  ∃ h', setDeepValue_loop (VRef address) parts value h = (Normal (), h') ∧
        plain_heap h' = true ∧ (length h ≤ length h')%nat.
Proof.
  revert h address. induction parts as [|key rest IH]; intros h address Hplain Haddr Hval.
  - by exists h.
  - destruct rest as [|next rest].
    + destruct (prop_set_plain h address key value Hplain Haddr Hval)
        as (h' & Hset & Hplain' & Hlen & _).
      exists h'. split; [done|]. split; [done|lia].
    + rewrite setDeepValue_loop_run.
      destruct (needs_container (read h (VRef address) key)) eqn:Hneeds.
      * destruct (prop_set_plain (h ++ [empty_object]) address key (VRef (length h)))
          as (h1 & Hset & Hplain1 & Hlen1 & Hread1).
        { by apply plain_heap_alloc. }
        { rewrite length_app. lia. }
        { simpl. apply bool_decide_eq_true. rewrite length_app. simpl. lia. }
        rewrite Hset, Hread1.
        destruct (IH h1 (length h) Hplain1) as (h' & Hloop & Hplain' & Hlen').
        { rewrite Hlen1, length_app. simpl. lia. }
        { eapply in_heap_mono, Hval. rewrite Hlen1, length_app. lia. }
        exists h'. split; [done|]. split; [done|].
        rewrite Hlen1, length_app in Hlen'. lia.
      * apply needs_container_spec in Hneeds as [inner Hinner]. rewrite Hinner.
        pose proof (read_plain h address key Hplain) as Hin.
        rewrite Hinner in Hin. simpl in Hin. apply bool_decide_eq_true in Hin.
        by apply IH.
Qed.

Lemma for_each_setDeepValue_plain (data : list (string * JsValue)) (h : Heap) grouped :
  plain_heap h = true → (grouped < length h)%nat →
  forallb (fun entry => in_heap h entry.2) data = true →
  ∃ h', for_each (fun entry => setDeepValue (VRef grouped) entry.1 entry.2) data h
        = (Normal (), h') ∧ plain_heap h' = true.
Proof.
  revert h. induction data as [|[p v] data IH]; intros h Hplain Hg Hdata.
  - by exists h.
  - simpl in Hdata. apply andb_true_iff in Hdata as [Hv Hdata].
    destruct (setDeepValue_loop_plain (Str.split_dot p) h grouped v Hplain Hg Hv)
      as (h1 & Hset & Hplain1 & Hlen1).
    rewrite for_each_run. unfold setDeepValue at 1. simpl.
    rewrite Hset. apply IH; [done|lia|].
    rewrite forallb_forall in *. intros entry Hentry.
    by eapply in_heap_mono, Hdata.
Qed.

(** No combination of paths makes the reconstruction throw as long as the
    heap holds no array. *)
Lemma reconstruct_plain (data : list (string * JsValue)) (h : Heap) :
  plain_heap h = true →
  forallb (fun entry => in_heap h entry.2) data = true →
  ∃ h', reconstruct data h = (Normal (VRef (length h)), h') ∧ plain_heap h' = true.
Proof.
  intros Hplain Hdata. rewrite reconstruct_run.
  destruct (for_each_setDeepValue_plain data (h ++ [empty_object]) (length h))
    as (h' & Hloop & Hplain').
  { by apply plain_heap_alloc. }
  { rewrite length_app. simpl. lia. }
  { rewrite forallb_forall in *. intros entry Hentry.
    eapply in_heap_mono, Hdata, Hentry. rewrite length_app. lia. }
  rewrite Hloop. by exists h'.
Qed.

(** *** Scalar answers: the document depends on [data] only *)

Lemma shift_heap_length d (block : Heap) : length (shift_heap d block) = length block.
Proof. apply length_map. Qed.

Lemma shift_heap_lookup (h block : Heap) k :
  (h ++ shift_heap (length h) block) !! (length h + k)%nat
  = shift_object (length h) <$> block !! k.
Proof.
  rewrite lookup_app_r by lia.
  replace (length h + k - length h)%nat with k by lia.
  apply list_lookup_fmap.
Qed.

Lemma read_shift (h block : Heap) k key :
  read (h ++ shift_heap (length h) block) (VRef (length h + k)) key
  = shift_value (length h) (read block (VRef k) key).
Proof.
  unfold read. rewrite shift_heap_lookup.
  destruct (block !! k) as [[[len|] own]|]; simpl; try done.
  - destruct (String.eqb key "length"); [done|].
    rewrite get_map. by destruct (JsObj.get own key).
  - rewrite get_map. by destruct (JsObj.get own key).
Qed.

Lemma prop_set_shift (h block : Heap) k key v :
  plain_heap block = true → (k < length block)%nat → in_heap block v = true →
  ∃ block',
    prop_set (VRef k) key v block = (Normal (), block') ∧
    prop_set (VRef (length h + k)) key (shift_value (length h) v)
      (h ++ shift_heap (length h) block)
    = (Normal (), h ++ shift_heap (length h) block') ∧
    plain_heap block' = true ∧ length block' = length block ∧
    read block' (VRef k) key = v.
Proof.
  intros Hplain Hk Hv.
  destruct (lookup_lt_is_Some_2 block k Hk) as [o Ho].
  pose proof (plain_heap_lookup block k o Hplain Ho) as Hobj.
  destruct o as [[len|] own]; [done|].
  destruct (prop_set_plain block k key v Hplain Hk Hv) as (block' & Hset & Hplain' & Hlen & Hread).
  exists block'. split; [done|]. split; [|done].
  unfold prop_set in *. rewrite Ho in Hset. rewrite shift_heap_lookup, Ho.
  unfold assign in *. simpl in *. injection Hset as <-.
  f_equal. rewrite insert_app_r_alt by lia.
  replace (length h + k - length h)%nat with k by lia.
  f_equal. unfold shift_heap. rewrite list_fmap_insert. f_equal.
  unfold shift_object. simpl. f_equal. apply set_map.
Qed.

Lemma scalar_in_heap (h : Heap) v : scalar v = true → in_heap h v = true.
Proof. by destruct v. Qed.

Lemma scalar_shift d v : scalar v = true → shift_value d v = v.
Proof. by destruct v. Qed.

(** Walking a path for a scalar answer does the same to a block of
    objects wherever the block lies in the heap. *)
Lemma setDeepValue_loop_shift parts (h block : Heap) k value :
  plain_heap block = true → (k < length block)%nat → scalar value = true →
  ∃ block',
    setDeepValue_loop (VRef k) parts value block = (Normal (), block') ∧
    setDeepValue_loop (VRef (length h + k)) parts value (h ++ shift_heap (length h) block)
    = (Normal (), h ++ shift_heap (length h) block') ∧
    plain_heap block' = true ∧ (length block ≤ length block')%nat.
Proof.
  revert block k. induction parts as [|key rest IH]; intros block k Hplain Hk Hval.
  - by exists block.
  - destruct rest as [|next rest].
    + destruct (prop_set_shift h block k key value Hplain Hk (scalar_in_heap _ _ Hval))
        as (block' & Hset & Hset' & Hplain' & Hlen & _).
      rewrite scalar_shift in Hset' by done.
      exists block'. repeat split; try done. lia.
    + rewrite !setDeepValue_loop_run, read_shift.
      assert (needs_container (shift_value (length h) (read block (VRef k) key))
              = needs_container (read block (VRef k) key)) as ->
        by by destruct (read block (VRef k) key).
      destruct (needs_container (read block (VRef k) key)) eqn:Hneeds.
      * destruct (prop_set_shift h (block ++ [empty_object]) k key (VRef (length block)))
          as (block1 & Hset & Hset' & Hplain1 & Hlen1 & Hread1).
        { by apply plain_heap_alloc. }
        { rewrite length_app. lia. }
        { simpl. apply bool_decide_eq_true. rewrite length_app. simpl. lia. }
        rewrite Hset.
        replace ((h ++ shift_heap (length h) block) ++ [empty_object])
          with (h ++ shift_heap (length h) (block ++ [empty_object]))
          by (unfold shift_heap; by rewrite map_app, app_assoc).
        replace (length (h ++ shift_heap (length h) block))
          with (length h + length block)%nat
          by (by rewrite length_app, shift_heap_length).
        change (shift_value (length h) (VRef (length block)))
          with (VRef (length h + length block)) in Hset'.
        rewrite Hset', read_shift, Hread1.
        change (shift_value (length h) (VRef (length block)))
          with (VRef (length h + length block)).
        destruct (IH block1 (length block) Hplain1) as (block' & Hloop & Hloop' & Hplain' & Hlen').
        { rewrite Hlen1, length_app. simpl. lia. }
        { done. }
        exists block'. rewrite Hloop, Hloop'. repeat split; try done.
        rewrite Hlen1, length_app in Hlen'. lia.
      * apply needs_container_spec in Hneeds as [inner Hinner]. rewrite Hinner.
        change (shift_value (length h) (VRef inner)) with (VRef (length h + inner)).
        pose proof (read_plain block k key Hplain) as Hin.
        rewrite Hinner in Hin. simpl in Hin. apply bool_decide_eq_true in Hin.
        by apply IH.
Qed.

Lemma for_each_setDeepValue_shift (data : list (string * JsValue)) (h block : Heap) k :
  plain_heap block = true → (k < length block)%nat →
  forallb (fun entry => scalar entry.2) data = true →
  ∃ block',
    for_each (fun entry => setDeepValue (VRef k) entry.1 entry.2) data block
    = (Normal (), block') ∧
    for_each (fun entry => setDeepValue (VRef (length h + k)) entry.1 entry.2) data
      (h ++ shift_heap (length h) block)
    = (Normal (), h ++ shift_heap (length h) block') ∧
    plain_heap block' = true.
Proof.
  revert block. induction data as [|[p v] data IH]; intros block Hplain Hk Hdata.
  - by exists block.
  - simpl in Hdata. apply andb_true_iff in Hdata as [Hv Hdata].
    destruct (setDeepValue_loop_shift (Str.split_dot p) h block k v Hplain Hk Hv)
      as (block1 & Hset & Hset' & Hplain1 & Hlen1).
    rewrite !for_each_run. unfold setDeepValue at 1 3. simpl.
    rewrite Hset, Hset'. apply IH; [done|lia|done].
Qed.

(** With scalar answers the reconstruction never throws, and what it adds
    to the heap is the document of [data], moved to the next free
    addresses. *)
Lemma reconstruct_scalar (data : list (string * JsValue)) (h : Heap) :
  forallb (fun entry => scalar entry.2) data = true →
  reconstruct data h
  = (Normal (VRef (length h)), h ++ shift_heap (length h) (document data))
  ∧ plain_heap (document data) = true.
Proof.
  intros Hdata. unfold document. rewrite !reconstruct_run.
  destruct (for_each_setDeepValue_shift data h [empty_object] 0)
    as (block' & Hloop & Hloop' & Hplain'); [done|simpl; lia|done|].
  rewrite Nat.add_0_r in Hloop'.
  change ([] ++ [empty_object]) with [empty_object].
  change (length (@nil JsObject)) with 0%nat.
  change (h ++ shift_heap (length h) [empty_object]) with (h ++ [empty_object]) in Hloop'.
  by rewrite Hloop, Hloop'.
Qed.

(** An intermediate segment occupied by anything but an array or an
    object is overwritten with a fresh container, which then receives the
    rest of the path; an array or object found there is kept and walked
    into, whoever else holds it. *)
Lemma setDeepValue_loop_descends (h : Heap) address o key next rest value :
  h !! address = Some o → o.(array_length) = None →
  setDeepValue_loop (VRef address) (key :: next :: rest) value h
  = match JsObj.get o.(own) key with
    | Some (VRef inner) => setDeepValue_loop (VRef inner) (next :: rest) value h
    | _ =>
        setDeepValue_loop (VRef (length h)) (next :: rest) value
          (<[address := mkJsObject None (JsObj.set key (VRef (length h)) o.(own))]>
             (h ++ [empty_object]))
    end.
Proof.
  intros Ho Hplain. destruct o as [len own]. simpl in Hplain. subst len.
  assert (address < length h)%nat as Haddr by by eapply lookup_lt_Some.
  rewrite setDeepValue_loop_run. unfold read at 1 3. rewrite Ho. simpl.
  destruct (needs_container (default VUndefined (JsObj.get own key))) eqn:Hneeds.
  - unfold prop_set. rewrite lookup_app_l, Ho by done. unfold assign. simpl.
    unfold read. rewrite list_lookup_insert_eq by (rewrite length_app; lia).
    rewrite get_set_eq. simpl.
    by destruct (JsObj.get own key) as [[| | | | |inner]|].
  - apply needs_container_spec in Hneeds as [inner Hinner].
    destruct (JsObj.get own key) as [found|] eqn:Hget; simpl in Hinner; [subst found|done].
    done.
Qed.

End Reconstruction.

(** ** Repeated passes, and an input on which the reconstruction throws *)

Section Misbehaviour.
Context `{ArrayLengthConversion} `{Ajv}.

(** The heap after a pass is the heap after its reconstruction, whatever
    the validator does. *)
Lemma runSchemaValidation_heap h session :
  (runSchemaValidation h session).1.2 = (reconstruct session.(data) h).2.
Proof.
  unfold runSchemaValidation.
  destruct (reconstruct session.(data) h) as [[grouped|e] h']; [|done].
  by destruct (ajv_compile _).
Qed.

(** With scalar answers only, and a validator that looks at the document
    only, a second pass completes as the first did and leaves the session
    exactly as the first left it.  (Both passes get the completion that
    the one [Ajv] gives for the schema; of the code this is so when the
    schema compiles.) *)
Lemma runSchemaValidation_idempotent_scalar h session :
  forallb (fun entry => scalar entry.2) session.(data) = true →
  (∀ validate,
     ajv_compile session.(definitionSnapshot).(schema) = Normal validate →
     document_only validate) →
  let first := runSchemaValidation h session in
  let second := runSchemaValidation first.1.2 first.2 in
  second.1.1 = first.1.1 ∧ second.2 = first.2.
Proof.
  intros Hdata Hdoc.
  destruct (reconstruct_scalar session.(data) h Hdata) as [Hr Hplain].
  destruct (ajv_compile session.(definitionSnapshot).(schema)) as [validate|e] eqn:Hc.
  - specialize (Hdoc validate eq_refl).
    rewrite (runSchemaValidation_returns h session _ _ _ Hr Hc). cbn [fst snd].
    set (h1 := h ++ shift_heap (length h) (document session.(data))).
    destruct (reconstruct_scalar session.(data) h1 Hdata) as [Hr1 _].
    erewrite runSchemaValidation_returns; [|exact Hr1|exact Hc]. cbn [fst snd].
    rewrite (Hdoc h1) by done. unfold h1. rewrite (Hdoc h) by done. simpl.
    rewrite rewrite_fields_idem.
    by destruct (valid (validate (document (data session)) (VRef 0))).
  - rewrite (runSchemaValidation_throws_compile h session _ _ e Hr Hc). cbn [fst snd].
    destruct (reconstruct_scalar session.(data)
                (h ++ shift_heap (length h) (document session.(data))) Hdata) as [Hr1 _].
    by rewrite (runSchemaValidation_throws_compile _ session _ _ e Hr1 Hc).
Qed.

(** C9, at its failing input.  The answers are [{"tags": ["x"],
    "tags.length.x": 1}], given in that order.  The reconstruction walks
    into the array under [tags], finds a number at its [length], and
    assigns a fresh container there: the assignment throws [RangeError],
    so does [setFieldValue], and so does every later validation pass of
    the session. *)
Theorem reconstruction_throws_on_array_length :
  let tags := mkJsObject (Some 1%N) [("0", VString "x")] in
  let answered := perform ([tags], sessionOf optionalForm "s") (SetFieldValue "tags" (VRef 0)) in
  let failed := setFieldValue answered.1 answered.2 "tags.length.x" (VNumber 1) in
  answered.2.(data) = [("tags", VRef 0)] ∧
  failed.2.(data) = [("tags", VRef 0); ("tags.length.x", VNumber 1)] ∧
  failed.1.1 = Throw (RangeError "Invalid array length") ∧
  (runSchemaValidation failed.1.2 failed.2).1.1 = Throw (RangeError "Invalid array length").
Proof.
  intros tags answered failed.
  assert (answered.2.(data) = [("tags", VRef 0)]) as Hdata.
  { unfold answered. simpl. unfold setFieldValue.
    by rewrite runSchemaValidation_data, record_answer_data. }
  assert (failed.2.(data) = [("tags", VRef 0); ("tags.length.x", VNumber 1)]) as Hdata'.
  { unfold failed, setFieldValue.
    by rewrite runSchemaValidation_data, record_answer_data, Hdata. }
  assert (∀ h : Heap, h !! 0%nat = Some tags →
            ∃ h', reconstruct [("tags", VRef 0); ("tags.length.x", VNumber 1)] h
                  = (Throw (RangeError "Invalid array length"), h')
                  ∧ h' !! 0%nat = Some tags) as Hthrows.
  { intros h Htags.
    assert (0 < length h)%nat as Hlen by by eapply lookup_lt_Some.
    rewrite reconstruct_run, for_each_run. cbn [fst snd].
    set (grouped := length h).
    assert (setDeepValue (VRef grouped) "tags" (VRef 0) (h ++ [empty_object])
            = (Normal (), h ++ [mkJsObject None [("tags", VRef 0)]])) as ->.
    { unfold setDeepValue. change (Str.split_dot "tags") with ["tags"].
      unfold setDeepValue_loop, prop_set, grouped.
      rewrite lookup_app_r, Nat.sub_diag by done. simpl.
      f_equal. rewrite insert_app_r_alt, Nat.sub_diag by done. done. }
    rewrite for_each_run. cbn [fst snd]. unfold setDeepValue.
    change (Str.split_dot "tags.length.x") with ["tags"; "length"; "x"].
    rewrite (setDeepValue_loop_descends _ grouped (mkJsObject None [("tags", VRef 0)]));
      [|by (unfold grouped; rewrite lookup_app_r, Nat.sub_diag)|done].
    change (JsObj.get (own (mkJsObject None [("tags", VRef 0)])) "tags")
      with (Some (VRef 0)). cbv iota.
    rewrite (setDeepValue_loop_through_length _ 0 1 [("0", VString "x")]);
      [|by rewrite lookup_app_l].
    eexists. split; [done|]. by rewrite !lookup_app_l by (rewrite ?length_app; lia). }
  assert (answered.1 !! 0%nat = Some tags) as Htags.
  { unfold answered. simpl. unfold setFieldValue.
    rewrite runSchemaValidation_heap, record_answer_data. done. }
  split; [done|]. split; [done|].
  destruct (Hthrows answered.1 Htags) as (h1 & Hr1 & Htags1).
  assert (failed = (Throw (RangeError "Invalid array length"), h1,
                    record_answer answered.2 "tags.length.x" (VNumber 1))) as Hfailed.
  { unfold failed, setFieldValue. apply runSchemaValidation_throws_reconstruct.
    by rewrite record_answer_data, Hdata. }
  clearbody failed answered.
  split; [by rewrite Hfailed|].
  destruct (Hthrows h1 Htags1) as (h2 & Hr2 & _).
  assert (failed.1.2 = h1) as -> by by rewrite Hfailed.
  rewrite (runSchemaValidation_throws_reconstruct h1 failed.2
             (RangeError "Invalid array length") h2); [reflexivity|].
  rewrite Hdata'. exact Hr2.
Qed.

End Misbehaviour.

(** The sample validator looks at the document only. *)
Lemma sample_errors_shift schema (h block : Heap) v pointer :
  sample_errors schema (h ++ shift_heap (length h) block) (shift_value (length h) v) pointer
  = sample_errors schema block v pointer.
Proof.
  revert schema v pointer. fix IH 1.
  intros [[|ty|] props req kw] v pointer; try reflexivity.
  cbn [sample_errors]. destruct (String.eqb ty "object");
    [|destruct v; reflexivity].
  destruct v as [| | | | |k]; try reflexivity.
  cbn [shift_value]. rewrite shift_heap_lookup.
  destruct (block !! k) as [[[len|] entries]|]; try reflexivity.
  cbn [fmap option_fmap option_map shift_object array_length own].
  f_equal.
  - apply flat_map_ext. intros key. rewrite has_map. reflexivity.
  - destruct props as [props|]; [|reflexivity].
    induction props as [|[key child] props IHprops]; [reflexivity|].
    rewrite get_map. f_equal; [|exact IHprops].
    destruct (JsObj.get entries key) as [x|]; [|reflexivity]. apply IH.
Qed.

Lemma sample_validate_document_only schema : document_only (sample_validate schema).
Proof.
  intros h block _. unfold sample_validate.
  replace (VRef (length h)) with (shift_value (length h) (VRef 0))
    by (simpl; by rewrite Nat.add_0_r).
  by rewrite sample_errors_shift.
Qed.

(** * Further properties of the engine *)

(** ** Navigation *)

Lemma with_currentQuestionIndex_same session :
  with_currentQuestionIndex session.(currentQuestionIndex) session = session.
Proof. by destruct session. Qed.

Lemma moveToNextQuestion_index session :
  0 <= session.(currentQuestionIndex) →
  moveToNextQuestion session
  = with_currentQuestionIndex
      (Z.min (session.(currentQuestionIndex) + 1)
             (Z.max session.(currentQuestionIndex)
                    (Z.of_nat (length session.(questionOrder)) - 1)))
      session.
Proof.
  intros Hidx. unfold moveToNextQuestion.
  destruct (Z.ltb_spec (currentQuestionIndex session)
              (Z.of_nat (length (questionOrder session)) - 1)).
  - f_equal. lia.
  - rewrite <- (with_currentQuestionIndex_same session) at 1. f_equal. lia.
Qed.

Lemma moveToPreviousQuestion_index session :
  0 <= session.(currentQuestionIndex) →
  moveToPreviousQuestion session
  = with_currentQuestionIndex (Z.max (session.(currentQuestionIndex) - 1) 0) session.
Proof.
  intros Hidx. unfold moveToPreviousQuestion.
  destruct (Z.gtb_spec (currentQuestionIndex session) 0).
  - f_equal. lia.
  - rewrite <- (with_currentQuestionIndex_same session) at 1. f_equal. lia.
Qed.

Lemma iter_moveToNextQuestion n session :
  index_in_bounds session →
  Nat.iter n moveToNextQuestion session
  = with_currentQuestionIndex
      (Z.min (session.(currentQuestionIndex) + Z.of_nat n)
             (Z.max 0 (Z.of_nat (length session.(questionOrder)) - 1)))
      session.
Proof.
  unfold index_in_bounds. intros Hb. induction n as [|n IH].
  - simpl. rewrite <- (with_currentQuestionIndex_same session) at 1. f_equal. lia.
  - rewrite Nat.iter_succ, IH, moveToNextQuestion_index by (destruct session; simpl in *; lia).
    destruct session; simpl in *. unfold with_currentQuestionIndex. simpl. f_equal. lia.
Qed.

Lemma iter_moveToPreviousQuestion n session :
  0 <= session.(currentQuestionIndex) →
  Nat.iter n moveToPreviousQuestion session
  = with_currentQuestionIndex
      (Z.max (session.(currentQuestionIndex) - Z.of_nat n) 0) session.
Proof.
  intros Hb. induction n as [|n IH].
  - simpl. rewrite <- (with_currentQuestionIndex_same session) at 1. f_equal. lia.
  - rewrite Nat.iter_succ, IH, moveToPreviousQuestion_index by (destruct session; simpl in *; lia).
    destruct session; simpl in *. unfold with_currentQuestionIndex. simpl. f_equal. lia.
Qed.

(** X1.  [n] calls of [moveToNextQuestion] from an index in bounds put the
    index at [min(index + n, last)] and change nothing else; [n] calls of
    [moveToPreviousQuestion] put it at [max(index - n, 0)]. *)
Theorem navigation_closed_form n session :
  index_in_bounds session →
  Nat.iter n moveToNextQuestion session
  = with_currentQuestionIndex
      (Z.min (session.(currentQuestionIndex) + Z.of_nat n)
             (Z.max 0 (Z.of_nat (length session.(questionOrder)) - 1)))
      session ∧
  Nat.iter n moveToPreviousQuestion session
  = with_currentQuestionIndex
      (Z.max (session.(currentQuestionIndex) - Z.of_nat n) 0) session.
Proof.
  intros Hb. split.
  - by apply iter_moveToNextQuestion.
  - apply iter_moveToPreviousQuestion. unfold index_in_bounds in Hb. lia.
Qed.

(** X2.  Away from the ends the two moves undo each other: a step forward
    from an index before the last, then a step back, gives the session
    back, and so does a step back from an index after the first, then a
    step forward. *)
Theorem navigation_round_trip session :
  index_in_bounds session →
  (session.(currentQuestionIndex) < Z.of_nat (length session.(questionOrder)) - 1 →
   moveToPreviousQuestion (moveToNextQuestion session) = session) ∧
  (0 < session.(currentQuestionIndex) →
   moveToNextQuestion (moveToPreviousQuestion session) = session).
Proof.
  unfold index_in_bounds. intros Hb. split; intros Hidx.
  - unfold moveToNextQuestion.
    destruct (Z.ltb_spec (currentQuestionIndex session)
                (Z.of_nat (length (questionOrder session)) - 1)); [|lia].
    unfold moveToPreviousQuestion. simpl.
    destruct (Z.gtb_spec (currentQuestionIndex session + 1) 0); [|lia].
    destruct session; unfold with_currentQuestionIndex; simpl. f_equal. lia.
  - unfold moveToPreviousQuestion.
    destruct (Z.gtb_spec (currentQuestionIndex session) 0); [|lia].
    unfold moveToNextQuestion. simpl.
    destruct (Z.ltb_spec (currentQuestionIndex session - 1)
                (Z.of_nat (length (questionOrder session)) - 1)); [|lia].
    destruct session; unfold with_currentQuestionIndex; simpl. f_equal. lia.
Qed.

(** X3.  With the index in bounds, [getCurrentQuestionPath] is [null]
    exactly when there are no questions, and is otherwise the question at
    the index. *)
Theorem getCurrentQuestionPath_defined session :
  index_in_bounds session →
  (getCurrentQuestionPath session = None ↔ session.(questionOrder) = []) ∧
  (∀ p, getCurrentQuestionPath session = Some p →
        p ∈ session.(questionOrder) ∧
        session.(questionOrder) !! Z.to_nat session.(currentQuestionIndex) = Some p).
Proof.
  unfold index_in_bounds, getCurrentQuestionPath. intros Hb.
  destruct (Z.ltb_spec (currentQuestionIndex session) 0); [lia|]. split.
  - rewrite lookup_ge_None. split.
    + intros Hlen. destruct (questionOrder session); [done|]. simpl in *. lia.
    + intros ->. simpl. lia.
  - intros p Hp. split; [|done]. by eapply list_elem_of_lookup_2.
Qed.

(** X4.  Stepping forward [n] times from a new session shows the [n]-th
    question: navigation visits the questions in the derived order, and
    stays on the last one. *)
Theorem navigation_visits_in_order n session :
  session.(currentQuestionIndex) = 0 →
  getCurrentQuestionPath (Nat.iter n moveToNextQuestion session)
  = session.(questionOrder) !! Nat.min n (length session.(questionOrder) - 1).
Proof.
  intros Hzero.
  rewrite iter_moveToNextQuestion by (unfold index_in_bounds; lia).
  unfold getCurrentQuestionPath. rewrite Hzero. simpl.
  destruct (Z.ltb_spec (Z.min (0 + Z.of_nat n)
              (Z.max 0 (Z.of_nat (length (questionOrder session)) - 1))) 0); [lia|].
  f_equal. lia.
Qed.

(** ** What holds of a session throughout its life *)

Section SessionInvariants.
Context `{ArrayLengthConversion} `{Ajv}.

Ltac pass_cases h session :=
  destruct (runSchemaValidation_cases h session) as [(? & ? & ->)|(? & ? & ? & Hr & Hc)];
  [ | rewrite (runSchemaValidation_returns h session _ _ _ Hr Hc) ]; simpl.

(** A property of sessions that the writes of [setFieldValue], the
    validation pass and a change of the index keep is kept by every
    sequence of operations. *)
Lemma perform_all_preserves (P : FormSession → Prop) :
  (∀ session p v, P session → P (record_answer session p v)) →
  (∀ h session, P session → P (runSchemaValidation h session).2) →
  (∀ session i, P session → P (with_currentQuestionIndex i session)) →
  ∀ ops state, P state.2 → P (perform_all state ops).2.
Proof.
  intros Hanswer Hpass Hindex. induction ops as [|op ops IH]; intros state Hstate; [done|].
  unfold perform_all in *. simpl. apply IH.
  destruct op as [p v| | |]; simpl.
  - by apply Hpass, Hanswer.
  - by apply Hpass.
  - unfold moveToNextQuestion. destruct (_ <? _); [by apply Hindex | done].
  - unfold moveToPreviousQuestion. destruct (_ >? _); [by apply Hindex | done].
Qed.

(** The same for sequences of operations of a kind, when the writes of
    [setFieldValue] keep the property for operations of that kind. *)
Lemma perform_all_preserves_among (allowed : Operation → bool) (P : FormSession → Prop) :
  (∀ session p v, allowed (SetFieldValue p v) = true →
                  P session → P (record_answer session p v)) →
  (∀ h session, P session → P (runSchemaValidation h session).2) →
  (∀ session i, P session → P (with_currentQuestionIndex i session)) →
  ∀ ops state, forallb allowed ops = true → P state.2 → P (perform_all state ops).2.
Proof.
  intros Hanswer Hpass Hindex.
  induction ops as [|op ops IH]; intros state Hops Hstate; [done|].
  simpl in Hops. apply andb_prop in Hops as [Hop Hops].
  unfold perform_all in *. simpl. apply IH; [done|].
  destruct op as [p v| | |]; simpl.
  - by apply Hpass, Hanswer.
  - by apply Hpass.
  - unfold moveToNextQuestion. destruct (_ <? _); [by apply Hindex | done].
  - unfold moveToPreviousQuestion. destruct (_ >? _); [by apply Hindex | done].
Qed.

Lemma no_proto_ne p : no_proto p = true → p ≠ "__proto__".
Proof. by intros Hp ->. Qed.

Lemma inherited_proto questions :
  forallb (fun question => negb (inherited question)) questions = true →
  "__proto__" ∉ questions.
Proof.
  rewrite forallb_forall. intros Hall Hin%list_elem_of_In. by specialize (Hall _ Hin).
Qed.

Lemma record_answer_proto_free session p v :
  proto_free session = true → no_proto p = true →
  proto_free (record_answer session p v) = true.
Proof.
  unfold proto_free. rewrite record_answer_data. intros Hdata Hp. by apply forallb_write.
Qed.

Lemma record_answer_ordinary session p v :
  ordinary_session session = true → no_proto p = true →
  ordinary_session (record_answer session p v) = true.
Proof.
  unfold ordinary_session. intros [[Hdata Hfields]%andb_prop Hquestions]%andb_prop Hp.
  rewrite record_answer_proto_free, record_answer_questionOrder, Hquestions by done.
  rewrite record_answer_fields. unfold JsObj.has in *.
  rewrite get_set_ne by by apply no_proto_ne. by rewrite Hfields.
Qed.

Lemma runSchemaValidation_ordinary h session :
  ordinary_session session = true →
  ordinary_session (runSchemaValidation h session).2 = true.
Proof.
  unfold ordinary_session, proto_free.
  rewrite runSchemaValidation_data, runSchemaValidation_questionOrder.
  intros [[Hdata Hfields]%andb_prop Hquestions]%andb_prop.
  rewrite Hdata, Hquestions. unfold JsObj.has in *.
  rewrite runSchemaValidation_untracked by by apply inherited_proto.
  by rewrite Hfields.
Qed.

Lemma record_answer_filed session p v :
  filed_by_path session → filed_by_path (record_answer session p v).
Proof.
  unfold filed_by_path. intros Hs q f. rewrite record_answer_fields.
  destruct (decide (q = p)) as [->|Hq].
  - rewrite get_set_eq. by intros [= <-].
  - rewrite get_set_ne by done. apply Hs.
Qed.

Lemma runSchemaValidation_filed h session :
  filed_by_path session → filed_by_path (runSchemaValidation h session).2.
Proof.
  unfold filed_by_path. intros Hs q f. pass_cases h session; [apply Hs|].
  rewrite rewrite_fields_lookup. case_bool_decide; [|apply Hs].
  destruct (JsObj.get (fields session) q) as [f0|] eqn:Hf0; simpl; intros [= <-]; simpl;
    [by apply Hs | done].
Qed.

Lemma record_answer_agree session p v :
  p ≠ "__proto__" →
  fields_agree_with_data session → fields_agree_with_data (record_answer session p v).
Proof.
  unfold fields_agree_with_data. intros Hp [Hdata Hfields].
  rewrite record_answer_fields, record_answer_data. split.
  - intros q w. destruct (decide (q = p)) as [->|Hq].
    + rewrite get_write_eq, get_set_eq by done. intros [= <-]. eauto.
    + rewrite get_write_ne, get_set_ne by done. apply Hdata.
  - intros q f. destruct (decide (q = p)) as [->|Hq].
    + rewrite get_write_eq, get_set_eq by done. by intros [= <-].
    + rewrite get_write_ne, get_set_ne by done. apply Hfields.
Qed.

Lemma runSchemaValidation_agree h session :
  fields_agree_with_data session → fields_agree_with_data (runSchemaValidation h session).2.
Proof.
  unfold fields_agree_with_data. intros [Hdata Hfields].
  pass_cases h session; [done|]. split.
  - intros q w Hw. destruct (Hdata q w Hw) as (f & Hf & Htouched & Hvalue).
    rewrite rewrite_fields_lookup, Hf. case_bool_decide; eauto.
  - intros q f. rewrite rewrite_fields_lookup. case_bool_decide; [|apply Hfields].
    destruct (JsObj.get (fields session) q) as [f0|] eqn:Hf0; simpl; intros [= <-]; simpl.
    + by apply Hfields.
    + split; [done|]. destruct (JsObj.get (data session) q) as [w|] eqn:Hw; [|done].
      destruct (Hdata q w Hw) as (f & Hf & _). congruence.
Qed.

Lemma record_answer_status_consistent session p v :
  status_consistent session → status_consistent (record_answer session p v).
Proof.
  unfold status_consistent, record_answer. destruct session as [? ? ? ? ? ? st ? ? ?].
  simpl. intros (Hvalid & Hnew & Hcomplete).
  destruct st; simpl; repeat split; try done.
  intros Hv. by specialize (Hvalid Hv).
Qed.

Lemma runSchemaValidation_status_consistent h session :
  status_consistent session → status_consistent (runSchemaValidation h session).2.
Proof.
  unfold status_consistent. intros (Hvalid & Hnew & Hcomplete).
  pass_cases h session; [done|]. destruct (valid _); repeat split; done.
Qed.

(** X5.  Whatever is done to a session, [sessionId], [userId], [formId],
    [definitionSnapshot] and [questionOrder] stay as they were. *)
Theorem session_identity_is_fixed state ops :
  let session := (perform_all state ops).2 in
  session.(sessionId) = state.2.(sessionId) ∧
  session.(userId) = state.2.(userId) ∧
  session.(formId) = state.2.(formId) ∧
  session.(definitionSnapshot) = state.2.(definitionSnapshot) ∧
  session.(questionOrder) = state.2.(questionOrder).
Proof.
  simpl.
  apply (perform_all_preserves (fun session =>
    session.(sessionId) = state.2.(sessionId) ∧
    session.(userId) = state.2.(userId) ∧
    session.(formId) = state.2.(formId) ∧
    session.(definitionSnapshot) = state.2.(definitionSnapshot) ∧
    session.(questionOrder) = state.2.(questionOrder))); [| | |done].
  - intros session p v. unfold record_answer. simpl. by destruct (status session).
  - intros h session. pass_cases h session; done.
  - done.
Qed.


(** X7.  [status] and [overallValidity] stay consistent: a session that
    is [valid] is [complete], a session that is [not-started] has no
    answers, and a [complete] session has been validated. *)
Theorem status_stays_consistent state ops :
  status_consistent state.2 → status_consistent (perform_all state ops).2.
Proof.
  apply perform_all_preserves.
  - intros session p v. apply record_answer_status_consistent.
  - intros h session. apply runSchemaValidation_status_consistent.
  - done.
Qed.

(** X8.  Nothing is ever taken back: an answer in [data] stays answered,
    an entry of [fields] stays, and [touched] is never cleared. *)
Theorem answers_are_never_removed state ops p :
  (is_Some (JsObj.get state.2.(data) p) →
   is_Some (JsObj.get (perform_all state ops).2.(data) p)) ∧
  (∀ f, JsObj.get state.2.(fields) p = Some f →
     ∃ f', JsObj.get (perform_all state ops).2.(fields) p = Some f' ∧
           (f.(touched) = true → f'.(touched) = true)).
Proof.
  apply (perform_all_preserves (fun session =>
    (is_Some (JsObj.get state.2.(data) p) → is_Some (JsObj.get session.(data) p)) ∧
    (∀ f, JsObj.get state.2.(fields) p = Some f →
       ∃ f', JsObj.get session.(fields) p = Some f' ∧
             (f.(touched) = true → f'.(touched) = true)))); [| | |by eauto].
  - intros session q v [Hdata Hfields]. rewrite record_answer_data, record_answer_fields.
    split; [intros Hsome; by apply get_write_is_Some, Hdata|].
    destruct (decide (p = q)) as [->|Hq].
    + rewrite get_set_eq. intros f Hf. eauto.
    + by rewrite get_set_ne.
  - intros h session [Hdata Hfields]. rewrite runSchemaValidation_data. split; [done|].
    intros f Hf. destruct (Hfields f Hf) as (f1 & Hf1 & Htouched).
    destruct (runSchemaValidation_keeps_answer h session p f1 Hf1)
      as (f2 & Hf2 & _ & _ & Htouched2).
    exists f2. split; [done|]. rewrite Htouched2. done.
  - done.
Qed.

End SessionInvariants.

(** ** When the engine cannot throw *)

Section NoThrow.
Context `{ArrayLengthConversion} `{Ajv}.

#[local] Arguments setDeepValue_loop : simpl never.

Lemma prop_set_length current key v (h : Heap) :
  length (prop_set current key v h).2 = length h.
Proof.
  unfold prop_set. destruct current; try done.
  destruct (h !! address) as [o|]; [|done].
  destruct (assign h o key v); [|done]. simpl. by rewrite length_insert.
Qed.

Lemma setDeepValue_loop_length parts current value (h : Heap) :
  (length h ≤ length (setDeepValue_loop current parts value h).2)%nat.
Proof.
  revert current h. induction parts as [|key [|next rest] IH]; intros current h.
  - done.
  - change (setDeepValue_loop current [key] value h) with (prop_set current key value h).
    by rewrite prop_set_length.
  - rewrite setDeepValue_loop_run. destruct (needs_container _); [|apply IH].
    pose proof (prop_set_length current key (VRef (length h)) (h ++ [empty_object])) as Hlen.
    rewrite length_app in Hlen. simpl in Hlen.
    destruct (prop_set _ _ _ _) as [[[]|e] h1]; simpl in *.
    + etrans; [|apply IH]. lia.
    + lia.
Qed.

Lemma for_each_setDeepValue_length (data : list (string * JsValue)) grouped (h : Heap) :
  (length h ≤ length (for_each (fun entry => setDeepValue grouped entry.1 entry.2) data h).2)%nat.
Proof.
  revert h. induction data as [|[p v] data IH]; intros h; [done|].
  rewrite for_each_run. simpl.
  pose proof (setDeepValue_loop_length (Str.split_dot p) grouped v h) as Hlen.
  unfold setDeepValue. destruct (setDeepValue_loop _ _ _ _) as [[[]|e] h1]; simpl in *.
  - etrans; [|apply IH]. done.
  - done.
Qed.

Lemma reconstruct_length (data : list (string * JsValue)) (h : Heap) :
  (length h < length (reconstruct data h).2)%nat.
Proof.
  rewrite reconstruct_run.
  pose proof (for_each_setDeepValue_length data (VRef (length h)) (h ++ [empty_object])) as Hlen.
  rewrite length_app in Hlen. simpl in Hlen.
  destruct (for_each _ _ _) as [[[]|e] h1]; simpl in *; lia.
Qed.

Lemma answers_in_heap_mono (h h' : Heap) session :
  (length h ≤ length h')%nat →
  answers_in_heap h session = true → answers_in_heap h' session = true.
Proof.
  unfold answers_in_heap. intros Hlen. rewrite !forallb_forall.
  intros Hall entry Hentry. eapply in_heap_mono; [done|]. by apply Hall.
Qed.

Lemma answer_in_heap_mono (h h' : Heap) ops :
  (length h ≤ length h')%nat →
  forallb (answer_in_heap h) ops = true → forallb (answer_in_heap h') ops = true.
Proof.
  intros Hlen. rewrite !forallb_forall. intros Hall op Hop. specialize (Hall op Hop).
  destruct op; simpl in *; try done. by eapply in_heap_mono.
Qed.

(** The pass on a heap without arrays: it returns, unless the schema does
    not compile, and leaves such a heap. *)
Lemma runSchemaValidation_plain h session validate :
  plain_heap h = true → answers_in_heap h session = true →
  ajv_compile session.(definitionSnapshot).(schema) = Normal validate →
  let r := runSchemaValidation h session in
  r.1.1 = Normal () ∧ plain_heap r.1.2 = true ∧ answers_in_heap r.1.2 r.2 = true.
Proof.
  intros Hplain Hdata Hc. simpl.
  destruct (reconstruct_plain session.(data) h Hplain Hdata) as (h' & Hr & Hplain').
  pose proof (reconstruct_length session.(data) h) as Hlen. rewrite Hr in Hlen. simpl in Hlen.
  rewrite (runSchemaValidation_returns h session _ _ _ Hr Hc). simpl.
  repeat split; [done|]. unfold answers_in_heap in *. simpl.
  rewrite forallb_forall in Hdata. apply forallb_forall. intros entry Hentry.
  eapply in_heap_mono; [|by apply Hdata]. lia.
Qed.

(** The pass on a heap without arrays, when the schema does not compile:
    it throws what [ajv.compile] throws, and leaves such a heap. *)
Lemma runSchemaValidation_plain_refused h session e :
  plain_heap h = true → answers_in_heap h session = true →
  ajv_compile session.(definitionSnapshot).(schema) = Throw e →
  let r := runSchemaValidation h session in
  r.1.1 = Throw e ∧ plain_heap r.1.2 = true ∧ answers_in_heap r.1.2 r.2 = true.
Proof.
  intros Hplain Hdata Hc. simpl.
  destruct (reconstruct_plain session.(data) h Hplain Hdata) as (h' & Hr & Hplain').
  pose proof (reconstruct_length session.(data) h) as Hlen. rewrite Hr in Hlen. simpl in Hlen.
  rewrite (runSchemaValidation_throws_compile h session _ _ _ Hr Hc). simpl.
  repeat split; [done|]. eapply answers_in_heap_mono; [|done]. lia.
Qed.

Lemma record_answer_in_heap h session p v :
  answers_in_heap h session = true → in_heap h v = true →
  answers_in_heap h (record_answer session p v) = true.
Proof.
  unfold answers_in_heap. rewrite record_answer_data. intros. by apply forallb_write.
Qed.

Lemma perform_length state op :
  (length state.1 ≤ length (perform state op).1)%nat.
Proof.
  destruct op as [p v| | |]; simpl; try done.
  - unfold setFieldValue. rewrite runSchemaValidation_heap.
    pose proof (reconstruct_length (record_answer state.2 p v).(data) state.1). lia.
  - rewrite runSchemaValidation_heap.
    pose proof (reconstruct_length state.2.(data) state.1). lia.
Qed.

(** One operation on a heap without arrays. *)
Lemma perform_plain state op validate :
  plain_heap state.1 = true → answers_in_heap state.1 state.2 = true →
  answer_in_heap state.1 op = true →
  ajv_compile state.2.(definitionSnapshot).(schema) = Normal validate →
  completion_of state op = Normal () ∧
  plain_heap (perform state op).1 = true ∧
  answers_in_heap (perform state op).1 (perform state op).2 = true ∧
  ajv_compile (perform state op).2.(definitionSnapshot).(schema) = Normal validate.
Proof.
  destruct state as [h session]. intros Hplain Hdata Hop Hc.
  destruct op as [p v| | |]; simpl in *.
  - unfold setFieldValue.
    destruct (runSchemaValidation_plain h (record_answer session p v) validate)
      as (? & ? & ?); [done|by apply record_answer_in_heap| |].
    + by rewrite record_answer_definitionSnapshot.
    + by rewrite runSchemaValidation_definitionSnapshot,
        record_answer_definitionSnapshot.
  - destruct (runSchemaValidation_plain h session validate) as (? & ? & ?); [done..|].
    by rewrite runSchemaValidation_definitionSnapshot.
  - unfold moveToNextQuestion. by destruct (_ <? _).
  - unfold moveToPreviousQuestion. by destruct (_ >? _).
Qed.

Lemma perform_proto_free state op :
  proto_free state.2 = true → ordinary_operation op = true →
  proto_free (perform state op).2 = true.
Proof.
  intros Hdata Hop. destruct op as [p v| | |]; simpl in *.
  - unfold setFieldValue, proto_free. rewrite runSchemaValidation_data.
    by apply record_answer_proto_free.
  - unfold proto_free. by rewrite runSchemaValidation_data.
  - unfold moveToNextQuestion. by destruct (_ <? _).
  - unfold moveToPreviousQuestion. by destruct (_ >? _).
Qed.

(** X9.  Arrays are the only answers that can make the engine throw.
    When the heap holds no array, the answers given are primitives or
    objects of that heap, no answer is or has been given under a path
    with the segment [__proto__], and the schema compiles, every
    operation of a sequence returns normally; and the answers are still
    filed under paths without [__proto__]. *)
Theorem plain_answers_never_throw ops state validate :
  plain_heap state.1 = true → answers_in_heap state.1 state.2 = true →
  forallb (answer_in_heap state.1) ops = true →
  proto_free state.2 = true → forallb ordinary_operation ops = true →
  ajv_compile state.2.(definitionSnapshot).(schema) = Normal validate →
  Forall (fun c => c = Normal ()) (completions state ops) ∧
  proto_free (perform_all state ops).2 = true.
Proof.
  revert state.
  induction ops as [|op ops IH]; intros state Hplain Hdata Hops Hfree Hordinary Hc;
    [by split; [constructor|]|].
  simpl in *. apply andb_prop in Hops as [Hop Hops].
  apply andb_prop in Hordinary as [Hordinary_op Hordinary].
  destruct (perform_plain state op validate Hplain Hdata Hop Hc)
    as (Hdone & Hplain' & Hdata' & Hc').
  destruct (IH (perform state op)) as [Hrest Hfree']; [done..| | | |done|].
  - eapply answer_in_heap_mono; [|done]. apply perform_length.
  - by apply perform_proto_free.
  - done.
  - split; [by constructor|done].
Qed.








End NoThrow.

(** ** Paths, pointers and property chains *)

Lemma append_String (x : ascii) (a b : string) : String x a +:+ b = String x (a +:+ b).
Proof. reflexivity. Qed.

Lemma append_nil_l (a : string) : "" +:+ a = a.
Proof. reflexivity. Qed.

Lemma append_assoc (a b c : string) : (a +:+ b) +:+ c = a +:+ b +:+ c.
Proof. induction a as [|x a IH]; [done|]. rewrite !append_String. by rewrite IH. Qed.

Lemma append_nil_r (a : string) : a +:+ "" = a.
Proof. induction a as [|x a IH]; [done|]. rewrite append_String. by rewrite IH. Qed.

Lemma append_eq_nil (a b : string) : a +:+ b = "" → a = "".
Proof. by destruct a. Qed.

Lemma eqb_empty_false (a : string) : a ≠ "" → String.eqb a "" = false.
Proof. intros Ha. by apply String.eqb_neq. Qed.

Lemma contains_replace_slashes s : contains Str.slash (Str.replace_slashes s) = false.
Proof.
  induction s as [|c s IH]; simpl; [done|]. rewrite IH, orb_false_r.
  destruct (Ascii.eqb_spec c Str.slash) as [->|Hc]; [done|]. by apply Ascii.eqb_neq.
Qed.

Lemma replace_slashes_without s :
  contains Str.slash s = false → Str.replace_slashes s = s.
Proof.
  induction s as [|c s IH]; simpl; [done|]. intros [Hc Hs]%orb_false_elim.
  by rewrite Hc, IH.
Qed.

Lemma strip_leading_slash_without s :
  contains Str.slash s = false → Str.strip_leading_slash s = s.
Proof. destruct s as [|c s]; simpl; [done|]. intros [-> _]%orb_false_elim. done. Qed.

Lemma replace_slashes_append a b :
  Str.replace_slashes (a +:+ b) = Str.replace_slashes a +:+ Str.replace_slashes b.
Proof.
  induction a as [|c a IH]; [done|]. rewrite !append_String. simpl. by rewrite IH.
Qed.

Lemma split_dot_without s : contains Str.dot s = false → Str.split_dot s = [s].
Proof.
  induction s as [|c s IH]; simpl; [done|]. intros [Hc Hs]%orb_false_elim.
  by rewrite Hc, IH.
Qed.

Lemma split_dot_append a b :
  contains Str.dot a = false →
  Str.split_dot (a +:+ "." +:+ b) = a :: Str.split_dot b.
Proof.
  induction a as [|c a IH]; [done|]. intros Hca. simpl in Hca.
  apply orb_false_elim in Hca as [Hc Ha].
  rewrite append_String. cbn [Str.split_dot]. by rewrite Hc, IH.
Qed.

Lemma path_key_spec key :
  path_key key = true → key ≠ "" ∧ contains Str.dot key = false.
Proof.
  unfold path_key. intros [Hne Hdot]%andb_prop.
  apply negb_true_iff in Hne, Hdot. by apply String.eqb_neq in Hne.
Qed.

Lemma plain_key_spec key :
  plain_key key = true →
  key ≠ "" ∧ contains Str.dot key = false ∧ contains Str.slash key = false.
Proof.
  unfold plain_key. intros [[[Hne Hdot]%path_key_spec Hslash]%andb_prop _]%andb_prop.
  by apply negb_true_iff in Hslash.
Qed.

Lemma join_dot_cons key keys :
  keys ≠ [] → join_dot (key :: keys) = key +:+ "." +:+ join_dot keys.
Proof. by destruct keys. Qed.

Lemma split_dot_join_dot keys :
  keys ≠ [] → Forall (fun key => contains Str.dot key = false) keys →
  Str.split_dot (join_dot keys) = keys.
Proof.
  intros Hne Hkeys. induction Hkeys as [|key keys Hkey Hkeys IH]; [done|].
  destruct keys as [|next keys]; [by apply split_dot_without|].
  rewrite join_dot_cons, split_dot_append by done. by rewrite IH.
Qed.

Lemma join_dot_split_dot s : join_dot (Str.split_dot s) = s.
Proof.
  induction s as [|c s IH]; simpl; [done|].
  destruct (Ascii.eqb_spec c Str.dot) as [->|Hc].
  - destruct (Str.split_dot s) as [|part parts] eqn:Hs; [by destruct s; simplify_eq/=|].
    change (join_dot ("" :: part :: parts)) with ("." +:+ join_dot (part :: parts)).
    by rewrite IH.
  - destruct (Str.split_dot s) as [|part [|next parts]] eqn:Hs.
    + by rewrite <- IH.
    + simpl in *. by rewrite IH.
    + rewrite <- IH. done.
Qed.

Lemma question_path_join_dot base keys :
  base ≠ "" → Forall (fun key => key ≠ "") keys →
  question_path base keys = join_dot (base :: keys).
Proof.
  intros Hbase Hkeys. revert base Hbase.
  induction Hkeys as [|key keys Hkey Hkeys IH]; intros base Hbase; [done|].
  unfold question_path in *. simpl. unfold childPath at 2.
  rewrite eqb_empty_false by done. rewrite IH by (by intros ?%append_eq_nil).
  destruct keys as [|next keys]; [done|].
  rewrite !join_dot_cons by done. by rewrite !append_assoc.
Qed.

Lemma question_path_root keys :
  Forall (fun key => key ≠ "") keys → question_path "" keys = join_dot keys.
Proof.
  intros Hkeys. destruct Hkeys as [|key keys Hkey Hkeys]; [done|].
  change (question_path "" (key :: keys)) with (question_path key keys).
  by apply question_path_join_dot.
Qed.

Lemma pointer_of_replace_slashes key keys :
  Forall (fun key => contains Str.slash key = false) keys →
  key +:+ Str.replace_slashes (pointer_of keys) = join_dot (key :: keys).
Proof.
  intros Hkeys. revert key.
  induction Hkeys as [|next keys Hnext Hkeys IH]; intros key; [apply append_nil_r|].
  rewrite join_dot_cons by done. rewrite <- IH.
  change (pointer_of (next :: keys)) with (String Str.slash (next +:+ pointer_of keys)).
  cbn [Str.replace_slashes]. rewrite Ascii.eqb_refl.
  by rewrite replace_slashes_append, (replace_slashes_without next).
Qed.

Lemma normalizeAjvPath_pointer_of keys :
  Forall (fun key => contains Str.slash key = false) keys →
  normalizeAjvPath (pointer_of keys) = join_dot keys.
Proof.
  intros Hkeys. destruct Hkeys as [|key keys Hkey Hkeys]; [done|].
  change (pointer_of (key :: keys)) with (String Str.slash (key +:+ pointer_of keys)).
  unfold normalizeAjvPath. cbn [String.eqb Str.strip_leading_slash]. rewrite Ascii.eqb_refl.
  rewrite replace_slashes_append, (replace_slashes_without key) by done.
  by apply pointer_of_replace_slashes.
Qed.

(** X13.  [normalizeAjvPath] turns every ["/"] but a leading one into
    ["."]: its result holds no ["/"], and normalizing twice is
    normalizing once. *)
Theorem normalizeAjvPath_idempotent instancePath :
  contains Str.slash (normalizeAjvPath instancePath) = false ∧
  normalizeAjvPath (normalizeAjvPath instancePath) = normalizeAjvPath instancePath.
Proof.
  assert (contains Str.slash (normalizeAjvPath instancePath) = false) as Hno.
  { unfold normalizeAjvPath. destruct (String.eqb instancePath ""); [done|].
    apply contains_replace_slashes. }
  split; [done|]. revert Hno. generalize (normalizeAjvPath instancePath). intros p Hp.
  unfold normalizeAjvPath. destruct (String.eqb_spec p "") as [->|_]; [done|].
  by rewrite strip_leading_slash_without, replace_slashes_without.
Qed.

(** X14.  Paths and property chains are two spellings of the same
    thing.  For property names that are not empty and hold no ["."],
    ["/"] or ["~"]: the path that [deriveQuestionOrder] builds for a chain
    is the names joined by ["."]; [split(".")] as in [setDeepValue] gives
    the chain back; and [normalizeAjvPath] maps the JSON pointer of the
    chain to that same path. *)
Theorem path_of_chain_round_trip keys :
  keys ≠ [] → forallb plain_key keys = true →
  question_path "" keys = join_dot keys ∧
  Str.split_dot (question_path "" keys) = keys ∧
  normalizeAjvPath (pointer_of keys) = question_path "" keys.
Proof.
  intros Hne Hkeys.
  assert (Forall (fun key => key ≠ "") keys ∧
          Forall (fun key => contains Str.dot key = false) keys ∧
          Forall (fun key => contains Str.slash key = false) keys) as (Hfull & Hdot & Hslash).
  { rewrite forallb_forall in Hkeys. rewrite !Forall_forall.
    repeat split; intros key Hkey%list_elem_of_In%Hkeys%plain_key_spec; tauto. }
  rewrite question_path_root by done. repeat split.
  - by apply split_dot_join_dot.
  - by apply normalizeAjvPath_pointer_of.
Qed.

(** [split(".")] loses nothing: joining the segments with ["."]
    gives the path back, and a path always has at least one segment. *)
Lemma split_dot_join path :
  join_dot (Str.split_dot path) = path ∧ Str.split_dot path ≠ [].
Proof.
  split; [apply join_dot_split_dot|].
  destruct path as [|c path]; simpl; [done|].
  destruct (Ascii.eqb c Str.dot); [done|]. by destruct (Str.split_dot path).
Qed.

(** ** The questions of a schema *)

(** Induction on a schema, with the property in hand for every named
    property of it. *)
Lemma JsonSchema_nested_ind (P : JsonSchema → Prop) :
  (∀ ty props req kw,
     (∀ key child, (key, child) ∈ default [] props → P child) →
     P (mkJsonSchema ty props req kw)) →
  ∀ schema, P schema.
Proof.
  intros Hstep. fix IH 1. intros [ty props req kw]. apply Hstep.
  destruct props as [props|]; simpl.
  - induction props as [|[k c] props IHprops]; intros key child Hin.
    + exfalso. eapply not_elem_of_nil, Hin.
    + apply elem_of_cons in Hin as [Heq|Hin].
      * injection Heq as -> ->. apply IH.
      * eapply IHprops, Hin.
  - intros key child Hin. exfalso. eapply not_elem_of_nil, Hin.
Qed.

Lemma expands_object schema :
  expands schema = true →
  ∃ props req kw, schema = mkJsonSchema (TypeName "object") (Some props) req kw.
Proof.
  destruct schema as [[|ty|] [props|] req kw]; unfold expands; simpl; try done.
  intros ->%String.eqb_eq. eauto.
Qed.

Lemma property_chain_expands schema keys :
  property_chain schema keys → expands schema = true.
Proof. by intros []. Qed.

Lemma deriveQuestionOrder_chain schema :
  ∀ base p,
    p ∈ deriveQuestionOrder schema base ↔
    ∃ keys, property_chain schema keys ∧ p = question_path base keys.
Proof.
  induction schema as [ty props req kw IH] using JsonSchema_nested_ind. intros base p.
  destruct (expands (mkJsonSchema ty props req kw)) eqn:Hexp.
  - destruct (expands_object _ Hexp) as (props' & req' & kw' & [= -> -> -> ->]).
    simpl in IH. rewrite deriveQuestionOrder_object, list_elem_of_In, in_flat_map.
    split.
    + intros ([key child] & Hin%list_elem_of_In & Hp). simpl in Hp.
      destruct Hp as [<-|Hp].
      * exists [key]. split; [by eapply chain_property|done].
      * apply list_elem_of_In, (IH key child Hin) in Hp as (keys & Hchain & ->).
        exists (key :: keys). split; [by eapply chain_nested|done].
    + intros (keys & Hchain & ->).
      inversion Hchain as [? key child _ Hin|? key child keys' _ Hin Hbelow]; subst;
        exists (key, child); (split; [by apply list_elem_of_In|]); simpl in *.
      * by left.
      * right. apply list_elem_of_In, (IH key child Hin). eauto.
  - rewrite deriveQuestionOrder_leaf by done. split.
    + intros []%not_elem_of_nil.
    + intros (keys & Hchain%property_chain_expands & _). congruence.
Qed.

(** X15.  The questions of a schema are exactly its property chains: a
    path is in [deriveQuestionOrder(schema, basePath)] if and only if it
    is the path of a chain of named properties that leads down from the
    schema through object schemas.  Properties at every depth are
    questions, and nothing else is. *)
Theorem deriveQuestionOrder_lists_property_chains schema base p :
  p ∈ deriveQuestionOrder schema base ↔
  ∃ keys, property_chain schema keys ∧ p = question_path base keys.
Proof. apply deriveQuestionOrder_chain. Qed.

(** X16.  An error that the validator reports at a property lands on
    that property's question: for a chain of property names without
    special characters, the path that [normalizeAjvPath] makes of the
    chain's JSON pointer is one of the questions of the schema, and
    [setDeepValue] walks that path along the same chain. *)
Theorem pointer_of_chain_is_question schema keys :
  property_chain schema keys → forallb plain_key keys = true →
  normalizeAjvPath (pointer_of keys) ∈ deriveQuestionOrder schema "" ∧
  Str.split_dot (normalizeAjvPath (pointer_of keys)) = keys.
Proof.
  intros Hchain Hkeys.
  assert (keys ≠ []) as Hne by (by destruct Hchain).
  assert (Forall (fun key => key ≠ "") keys ∧
          Forall (fun key => contains Str.dot key = false) keys ∧
          Forall (fun key => contains Str.slash key = false) keys) as (Hfull & Hdot & Hslash).
  { rewrite forallb_forall in Hkeys. rewrite !Forall_forall.
    repeat split; intros key Hkey%list_elem_of_In%Hkeys%plain_key_spec; tauto. }
  rewrite normalizeAjvPath_pointer_of by done. split.
  - apply deriveQuestionOrder_chain. exists keys. by rewrite question_path_root.
  - by apply split_dot_join_dot.
Qed.

Lemma well_keyed_object props req kw :
  well_keyed (mkJsonSchema (TypeName "object") (Some props) req kw) = true →
  forallb path_key (map fst props) = true ∧ NoDup (map fst props) ∧
  ∀ key child, (key, child) ∈ props → well_keyed child = true.
Proof.
  simpl. intros [[Hplain Hnodup%bool_decide_eq_true]%andb_prop Hchildren]%andb_prop.
  split; [done|]. split; [done|]. clear Hplain Hnodup.
  induction props as [|[k c] props IH]; intros key child Hin.
  - by apply not_elem_of_nil in Hin.
  - apply andb_prop in Hchildren as [Hc Hrest].
    apply elem_of_cons in Hin as [[= -> ->]|Hin]; [done|]. exact (IH Hrest key child Hin).
Qed.

Lemma property_chain_path_keys schema keys :
  well_keyed schema = true → property_chain schema keys →
  keys ≠ [] ∧ forallb path_key keys = true.
Proof.
  intros Hkeyed Hchain. revert Hkeyed.
  induction Hchain as [schema key child Hexp Hin|schema key child keys Hexp Hin Hchain IH];
    intros Hkeyed;
    destruct (expands_object _ Hexp) as (props & req & kw & ->);
    destruct (well_keyed_object _ _ _ Hkeyed) as (Hplain & _ & Hchildren);
    simpl in Hin; (split; [done|]); simpl;
    rewrite forallb_forall in Hplain;
    rewrite (Hplain key) by (apply list_elem_of_In, list_elem_of_fmap; by exists (key, child)).
  - done.
  - by apply IH, (Hchildren key child).
Qed.

Lemma question_path_inj base keys1 keys2 :
  keys1 ≠ [] → keys2 ≠ [] →
  forallb path_key keys1 = true → forallb path_key keys2 = true →
  question_path base keys1 = question_path base keys2 → keys1 = keys2.
Proof.
  intros Hne1 Hne2 Hplain1 Hplain2.
  assert (∀ keys, forallb path_key keys = true →
            Forall (fun key => key ≠ "") keys ∧
            Forall (fun key => contains Str.dot key = false) keys) as Hparts.
  { intros keys Hkeys. rewrite forallb_forall in Hkeys. rewrite !Forall_forall.
    split; intros key Hkey%list_elem_of_In%Hkeys%path_key_spec; tauto. }
  destruct (Hparts keys1 Hplain1) as [Hfull1 Hdot1].
  destruct (Hparts keys2 Hplain2) as [Hfull2 Hdot2].
  destruct (String.eqb_spec base "") as [->|Hbase].
  - rewrite !question_path_root by done. intros Heq.
    rewrite <- (split_dot_join_dot keys1), <- (split_dot_join_dot keys2) by done.
    by rewrite Heq.
  - rewrite !question_path_join_dot, !join_dot_cons by done.
    intros Heq%String.app_inj%String.app_inj.
    rewrite <- (split_dot_join_dot keys1), <- (split_dot_join_dot keys2) by done.
    by rewrite Heq.
Qed.

Lemma deriveQuestionOrder_below base key child p :
  path_key key = true → well_keyed child = true →
  p ∈ childPath base key :: deriveQuestionOrder child (childPath base key) →
  ∃ keys, p = question_path base (key :: keys) ∧ forallb path_key (key :: keys) = true ∧
          (keys = [] ∨ p ∈ deriveQuestionOrder child (childPath base key)).
Proof.
  intros Hkey Hchild [->|Hin]%elem_of_cons.
  - exists []. simpl. rewrite Hkey. split; [done|]. split; [done|]. by left.
  - pose proof Hin as (keys & Hchain & ->)%deriveQuestionOrder_chain.
    destruct (property_chain_path_keys child keys Hchild Hchain) as [_ Hplain].
    exists keys. simpl. rewrite Hkey, Hplain. split; [done|]. split; [done|]. by right.
Qed.

Lemma deriveQuestionOrder_NoDup schema :
  ∀ base, well_keyed schema = true → NoDup (deriveQuestionOrder schema base).
Proof.
  induction schema as [ty props req kw IH] using JsonSchema_nested_ind. intros base Hkeyed.
  destruct (expands (mkJsonSchema ty props req kw)) eqn:Hexp;
    [|rewrite deriveQuestionOrder_leaf by done; apply NoDup_nil_2].
  destruct (expands_object _ Hexp) as (props' & req' & kw' & [= -> -> -> ->]).
  destruct (well_keyed_object _ _ _ Hkeyed) as (Hplain & Hnodup & Hchildren).
  simpl in IH. rewrite deriveQuestionOrder_object. clear Hkeyed Hexp.
  induction props' as [|[key child] props IHprops]; simpl; [apply NoDup_nil_2|].
  simpl in Hplain. apply andb_prop in Hplain as [Hkey Hplain].
  simpl in Hnodup. apply NoDup_cons in Hnodup as [Hfresh Hnodup].
  assert (well_keyed child = true) as Hchild by (apply (Hchildren key); apply list_elem_of_here).
  change (NoDup ((childPath base key :: deriveQuestionOrder child (childPath base key))
                 ++ flat_map (fun prop => childPath base prop.1
                                :: deriveQuestionOrder prop.2 (childPath base prop.1))
                             props)).
  apply NoDup_app. split; [|split].
  - apply NoDup_cons. split.
    + intros (keys & Hchain & Heq)%deriveQuestionOrder_chain.
      destruct (property_chain_path_keys child keys Hchild Hchain) as [Hne Hkeys].
      change (childPath base key) with (question_path base [key]) in Heq.
      change (question_path (question_path base [key]) keys)
        with (question_path base (key :: keys)) in Heq.
      apply question_path_inj in Heq; [congruence|done|done| |].
      * simpl. by rewrite Hkey.
      * simpl. by rewrite Hkey, Hkeys.
    + apply (IH key child); [apply list_elem_of_here|done].
  - intros p (keys & -> & Hkeys & _)%deriveQuestionOrder_below; [|done..].
    rewrite list_elem_of_In, in_flat_map.
    intros ([key2 child2] & Hin2%list_elem_of_In & Hp%list_elem_of_In). simpl in Hp.
    apply deriveQuestionOrder_below in Hp as (keys2 & Heq & Hkeys2 & _).
    + apply (question_path_inj base (key :: keys) (key2 :: keys2)) in Heq; [|done..].
      injection Heq as -> _.
      apply Hfresh, list_elem_of_fmap. by exists (key2, child2).
    + rewrite forallb_forall in Hplain. apply Hplain, list_elem_of_In, list_elem_of_fmap.
      by exists (key2, child2).
    + apply (Hchildren key2 child2). by apply list_elem_of_further.
  - apply IHprops; [|done..|].
    + intros key' child' Hin'. apply (IH key'). by apply list_elem_of_further.
    + intros key' child' Hin'. apply (Hchildren key'). by apply list_elem_of_further.
Qed.

(** X17.  No question is asked twice.  When the property names of a
    schema are not empty and hold no ["."], and the properties of each
    object have different names, [deriveQuestionOrder] yields no path
    twice, so that stepping through a new session shows every question
    once. *)
Theorem questions_are_distinct schema base :
  well_keyed schema = true → NoDup (deriveQuestionOrder schema base).
Proof. apply deriveQuestionOrder_NoDup. Qed.

(** * Further properties of the store *)

Section MapFacts.
Context {V : Type}.
Implicit Types (m : list (string * V)) (k : string) (v : V).

Lemma get_elem_of m k v : JsObj.get m k = Some v → (k, v) ∈ m.
Proof.
  induction m as [|[k' v'] m IH]; simpl; [done|].
  destruct (String.eqb_spec k' k) as [-> |_].
  - intros [= ->]. apply list_elem_of_here.
  - intros Hget. by apply list_elem_of_further, IH.
Qed.

Lemma get_None_keys m k : JsObj.get m k = None ↔ k ∉ map fst m.
Proof.
  induction m as [|[k' v'] m IH]; simpl.
  - split; [intros _; apply not_elem_of_nil | done].
  - rewrite not_elem_of_cons. destruct (String.eqb_spec k' k) as [-> |Hk]; [by split; [|intros []]|].
    rewrite IH. split; [by split | by intros []].
Qed.

Lemma elem_of_get m k v : NoDup (map fst m) → (k, v) ∈ m → JsObj.get m k = Some v.
Proof.
  induction m as [|[k' v'] m IH]; simpl; intros Hnd Hin.
  - by apply not_elem_of_nil in Hin.
  - apply NoDup_cons in Hnd as [Hk' Hnd]. apply elem_of_cons in Hin as [[= -> ->]|Hin].
    + by rewrite String.eqb_refl.
    + destruct (String.eqb_spec k' k) as [-> |_]; [|by apply IH].
      destruct Hk'. apply list_elem_of_fmap. by exists (k, v).
Qed.

Lemma keys_replace m k v : map fst (JsObj.replace k v m) = map fst m.
Proof.
  induction m as [|[k' v'] m IH]; simpl; [done|].
  destruct (String.eqb_spec k' k) as [-> |_]; simpl; [done|]. by rewrite IH.
Qed.

Lemma keys_set m k v :
  map fst (JsMap.set k v m) = if JsObj.has m k then map fst m else map fst m ++ [k].
Proof.
  unfold JsMap.set. destruct (JsObj.has m k); [apply keys_replace|].
  by rewrite map_app.
Qed.

Lemma NoDup_keys_set m k v : NoDup (map fst m) → NoDup (map fst (JsMap.set k v m)).
Proof.
  intros Hnd. rewrite keys_set. destruct (JsObj.has m k) eqn:Hhas; [done|].
  apply NoDup_app. repeat split; [done| |apply NoDup_singleton].
  intros k' Hk' ->%list_elem_of_singleton. apply get_None_keys in Hk'; [done|].
  unfold JsObj.has in Hhas. by destruct (JsObj.get m k).
Qed.

Lemma get_map_set_eq m k v : JsObj.get (JsMap.set k v m) k = Some v.
Proof.
  unfold JsMap.set. destruct (JsObj.has m k) eqn:Hhas; [by apply get_replace_eq|].
  apply get_app_end_eq. unfold JsObj.has in Hhas. by destruct (JsObj.get m k).
Qed.

Lemma get_map_set_ne m k k' v : k ≠ k' → JsObj.get (JsMap.set k v m) k' = JsObj.get m k'.
Proof.
  intros Hk. unfold JsMap.set. destruct (JsObj.has m k);
    [by apply get_replace_ne | by apply get_app_end_ne].
Qed.

Lemma elem_of_map_set m k v k' v' :
  (k', v') ∈ JsMap.set k v m → (k', v') = (k, v) ∨ (k', v') ∈ m.
Proof.
  unfold JsMap.set. destruct (JsObj.has m k).
  - induction m as [|[k0 v0] m IH]; simpl; [by right|].
    destruct (String.eqb_spec k0 k) as [-> |_].
    + intros [-> |Hin]%elem_of_cons; [by left | right; by apply list_elem_of_further].
    + intros [-> |Hin]%elem_of_cons; [right; apply list_elem_of_here|].
      destruct (IH Hin) as [-> |?]; [by left | right; by apply list_elem_of_further].
  - intros [Hin| ->%list_elem_of_singleton]%elem_of_app; [by right | by left].
Qed.

Lemma list_to_map_get m k : (list_to_map m : gmap string V) !! k = JsObj.get m k.
Proof.
  induction m as [|[k' v'] m IH]; simpl; [done|].
  destruct (String.eqb_spec k' k) as [-> |Hk].
  - by rewrite lookup_insert_eq.
  - by rewrite lookup_insert_ne.
Qed.

Lemma list_to_map_set m k v :
  (list_to_map (JsMap.set k v m) : gmap string V) = <[k := v]> (list_to_map m).
Proof.
  apply map_eq. intros k'. rewrite list_to_map_get.
  destruct (decide (k = k')) as [-> |Hk].
  - by rewrite get_map_set_eq, lookup_insert_eq.
  - by rewrite get_map_set_ne, lookup_insert_ne, list_to_map_get.
Qed.

End MapFacts.

(** The store with its listing order does what the store of maps does. *)
Lemma store_of_registerForm store def :
  store_of (Ordered.registerForm store def) = registerForm (store_of store) def.
Proof. unfold store_of, registerForm. simpl. by rewrite list_to_map_set. Qed.

Lemma store_of_getForm store key :
  getForm (store_of store) key = Ordered.getForm store key.
Proof. apply list_to_map_get. Qed.

Lemma store_of_getSession store sid :
  getSession (store_of store) sid = Ordered.getSession store sid.
Proof. apply list_to_map_get. Qed.

Lemma store_of_createSession store fid uid uuid :
  createSession (store_of store) fid uid uuid
  = ((Ordered.createSession store fid uid uuid).1,
     store_of (Ordered.createSession store fid uid uuid).2).
Proof.
  unfold createSession, Ordered.createSession. simpl. rewrite list_to_map_get.
  destruct (JsObj.get (Ordered.forms store) fid); [|done].
  unfold store_of. simpl. by rewrite list_to_map_set.
Qed.

Lemma forms_well_kept_registerForm store def :
  forms_well_kept store → forms_well_kept (Ordered.registerForm store def).
Proof.
  intros [Hnd Hid]. split; simpl.
  - by apply NoDup_keys_set.
  - intros key def' [[= -> ->]|Hin]%elem_of_map_set; [done | by apply Hid].
Qed.

(** X18.  [registerForm] files the definition under its [id], last
    write wins: [getForm] of that id gives the definition just
    registered, every other id and every session is as before, and in
    [listForms] a definition that replaces one keeps its place, while a
    new one goes to the end. *)
Theorem registerForm_last_write_wins store def :
  let store' := Ordered.registerForm store def in
  Ordered.getForm store' def.(id) = Some def ∧
  (∀ other, other ≠ def.(id) → Ordered.getForm store' other = Ordered.getForm store other) ∧
  Ordered.sessions store' = Ordered.sessions store ∧
  map fst (Ordered.forms store')
  = (if Ordered.getForm store def.(id) is Some _ then map fst (Ordered.forms store)
     else map fst (Ordered.forms store) ++ [def.(id)]).
Proof.
  simpl. unfold Ordered.getForm, Ordered.registerForm. simpl. repeat split.
  - apply get_map_set_eq.
  - intros other Hother. by apply get_map_set_ne.
  - rewrite keys_set. unfold JsObj.has. by destruct (JsObj.get _ _).
Qed.

(** X19.  [listForms] and [getForm] agree.  Starting from a store whose
    forms are filed under their ids (the empty store is one) and
    registering any definitions, [listForms] shows no id twice, and it
    shows a definition exactly if [getForm] finds that definition under
    its id. *)
Theorem listForms_agrees_with_getForm store defs :
  forms_well_kept store →
  let store' := foldl Ordered.registerForm store defs in
  NoDup (map id (Ordered.listForms store')) ∧
  ∀ def, def ∈ Ordered.listForms store' ↔ Ordered.getForm store' def.(id) = Some def.
Proof.
  intros Hstore. simpl.
  assert (forms_well_kept (foldl Ordered.registerForm store defs)) as [Hnd Hid].
  { revert store Hstore. induction defs as [|def defs IH]; intros store Hstore; [done|].
    simpl. by apply IH, forms_well_kept_registerForm. }
  set (store' := foldl Ordered.registerForm store defs) in *.
  assert (map id (Ordered.listForms store') = map fst (Ordered.forms store')) as Hkeys.
  { unfold Ordered.listForms, JsMap.values. rewrite map_map.
    apply map_ext_in. intros [key def] Hin%list_elem_of_In. simpl. by apply Hid. }
  split; [by rewrite Hkeys|]. intros def. unfold Ordered.listForms, JsMap.values, Ordered.getForm.
  split.
  - intros ([key def'] & -> & Hin)%list_elem_of_fmap. simpl.
    rewrite (Hid key def' Hin). by apply elem_of_get.
  - intros Hget%get_elem_of. apply list_elem_of_fmap. by exists (id def, def).
Qed.

(** X20.  [listSessions] lists the sessions in the order of their
    creation.  Without a filter, with a filter that has no [userId], and
    with the empty [userId] it lists them all; with another [userId] it
    lists, in the same order, exactly the sessions created for that
    user. *)
Theorem listSessions_filter store :
  let all := map snd (Ordered.sessions store) in
  Ordered.listSessions store None = all ∧
  Ordered.listSessions store (Some None) = all ∧
  Ordered.listSessions store (Some (Some "")) = all ∧
  ∀ wanted, wanted ≠ "" →
    Ordered.listSessions store (Some (Some wanted)) `sublist_of` all ∧
    ∀ session, session ∈ Ordered.listSessions store (Some (Some wanted)) ↔
               session ∈ all ∧ session.(userId) = Some wanted.
Proof.
  simpl. split; [done|]. split; [done|]. split; [done|]. intros wanted Hwanted.
  unfold Ordered.listSessions, JsMap.values. rewrite eqb_empty_false by done.
  generalize (map snd (Ordered.sessions store)). intros l. split.
  - induction l as [|s l IH]; simpl; [done|].
    destruct (match userId s with Some _ => _ | None => _ end);
      [by apply sublist_skip | by apply sublist_cons].
  - intros session. rewrite !list_elem_of_In, filter_In. split.
    + intros [Hin Huser]. split; [done|]. destruct (userId session) as [user|]; [|done].
      by apply String.eqb_eq in Huser as ->.
    + intros [Hin Huser]. split; [done|]. rewrite Huser. apply String.eqb_refl.
Qed.

(** X21.  A session keeps the definition it was created from.  When a
    form is registered again under the same id, the session created
    before still carries the old definition and the questions derived
    from it, and a session created afterwards gets the new one. *)
Theorem sessions_are_insulated_from_redefinition store fid uid uuid session store1 def uuid' :
  Ordered.createSession store fid uid uuid = (Normal session, store1) →
  def.(id) = fid → uuid' ≠ uuid →
  let store2 := Ordered.registerForm store1 def in
  Ordered.getSession store2 uuid = Some session ∧
  (∃ old, Ordered.getForm store fid = Some old ∧ session.(definitionSnapshot) = old ∧
          session.(questionOrder) = deriveQuestionOrder old.(schema) "") ∧
  ∃ session' store3,
    Ordered.createSession store2 fid uid uuid' = (Normal session', store3) ∧
    session'.(definitionSnapshot) = def ∧
    session'.(questionOrder) = deriveQuestionOrder def.(schema) "" ∧
    Ordered.getSession store3 uuid = Some session.
Proof.
  unfold Ordered.createSession. intros Hcreate <- Huuid. simpl.
  destruct (JsObj.get (Ordered.forms store) (id def)) as [old|] eqn:Hold; [|done].
  injection Hcreate as <- <-. simpl. unfold Ordered.getSession. simpl.
  rewrite get_map_set_eq. repeat split.
  - by exists old.
  - rewrite get_map_set_eq. eexists _, _. repeat split. simpl.
    by rewrite get_map_set_ne, get_map_set_eq.
Qed.

(** * Properties of the tools *)

Section Tools.
Context `{ArrayLengthConversion} `{Ajv}.

(** Every tool has a registered name, and no name is registered twice. *)
Lemma toolName_registered input : toolName input ∈ registeredTools ∧ NoDup registeredTools.
Proof.
  split.
  - destruct input; unfold registeredTools; simpl; repeat first
      [ apply list_elem_of_here | apply list_elem_of_further ].
  - by apply (bool_decide_unpack _).
Qed.

Lemma getSession_mutated_eq store sid session :
  is_Some (Ordered.getSession store sid) →
  Ordered.getSession (Ordered.mutated store sid session) sid = Some session.
Proof.
  unfold Ordered.getSession, Ordered.mutated. simpl. intros [old Hold].
  apply get_replace_eq. unfold JsObj.has. by rewrite Hold.
Qed.

Lemma getSession_mutated_ne store sid sid' session :
  sid ≠ sid' →
  Ordered.getSession (Ordered.mutated store sid session) sid' = Ordered.getSession store sid'.
Proof. intros Hsid. by apply get_replace_ne. Qed.

Lemma mutated_same store sid session :
  Ordered.getSession store sid = Some session → Ordered.mutated store sid session = store.
Proof.
  unfold Ordered.getSession, Ordered.mutated. intros Hget. destruct store as [fs ss].
  simpl in *. by rewrite replace_id.
Qed.

Lemma on_session_missing sid act output state :
  Ordered.getSession state.(store) sid = None →
  on_session sid act output state = (Throw (Error "Session not found"), state).
Proof. unfold on_session. by intros ->. Qed.

Lemma on_session_found sid act output state session :
  Ordered.getSession state.(store) sid = Some session →
  on_session sid act output state
  = let r := act state.(heap) session in
    (match r.1.1 with
     | Normal _ => Normal (output r.2)
     | Throw e => Throw e
     end,
     mkServerState (Ordered.mutated state.(store) sid r.2) r.1.2).
Proof.
  unfold on_session. intros ->. destruct (act (heap state) session) as [[[[]|e] h] s]; done.
Qed.

(** Each tool that names a session applies its engine operations to the
    session stored under that name, and the outcome is stored whether
    or not the operation threw. *)
Lemma handler_performs uuid input state sid session :
  sessionId_of input = Some sid →
  Ordered.getSession state.(store) sid = Some session →
  let performed := perform_all (state.(heap), session) (operations_of input) in
  (handler uuid input state).2
  = mkServerState (Ordered.mutated state.(store) sid performed.2) performed.1.
Proof.
  intros Hsid Hget. destruct input; simplify_eq/=; by rewrite (on_session_found _ _ _ _ _ Hget).
Qed.

Lemma handler_missing uuid input state sid :
  sessionId_of input = Some sid →
  Ordered.getSession state.(store) sid = None →
  handler uuid input state = (Throw (Error "Session not found"), state).
Proof. intros Hsid Hget. destruct input; simplify_eq/=; by apply on_session_missing. Qed.

Lemma handler_summary uuid input state sid session output state' :
  sessionId_of input = Some sid →
  Ordered.getSession state.(store) sid = Some session →
  handler uuid input state = (Normal output, state') →
  let performed := perform_all (state.(heap), session) (operations_of input) in
  summary_of output = Some (summarizeSession performed.2) ∧
  match output with
  | StateOutput _ shown_data shown_fields =>
      shown_data = performed.2.(data) ∧ shown_fields = performed.2.(fields)
  | ValidationOutput _ shown_fields => shown_fields = performed.2.(fields)
  | FieldOutput _ field =>
      ∃ p v, input = SetFieldValueOf sid p v ∧ field = JsObj.get performed.2.(fields) p
  | _ => True
  end.
Proof.
  intros Hsid Hget. destruct input; simplify_eq/=; rewrite (on_session_found _ _ _ _ _ Hget);
    simpl.
  - by intros [= <- <-].
  - destruct (setFieldValue _ _ _ _) as [[[[]|e] h] s]; simpl; [|done].
    intros [= <- <-]. simpl. eauto.
  - by intros [= <- <-].
  - by intros [= <- <-].
  - destruct (runSchemaValidation _ _) as [[[[]|e] h] s]; simpl; [|done].
    by intros [= <- <-].
Qed.

(** X22.  A tool that names a session that is not in the store reports
    ["Error: Session not found"] as an error result and changes
    nothing. *)
Theorem unknown_session_is_reported uuid input state sid :
  sessionId_of input = Some sid →
  Ordered.getSession state.(store) sid = None →
  tools_call uuid (CallTool input) state
  = (Normal (ErrorContent "Error: Session not found"), state).
Proof.
  intros Hsid Hget. unfold tools_call. by rewrite (handler_missing _ _ _ sid).
Qed.

(** X23.  [start_form_session] with an id that is not registered
    reports ["Error: Form not found: <id>"] and changes nothing; with a
    registered id it returns the summary of a session that is
    [not-started], of [unknown] validity and at the first question, and
    [get_form_state] then shows that session with no data and no
    fields. *)
Theorem start_form_session_result uuid fid uid state :
  match Ordered.getForm state.(store) fid with
  | None =>
      tools_call uuid (CallTool (StartFormSession fid uid)) state
      = (Normal (ErrorContent ("Error: Form not found: " +:+ fid)), state)
  | Some form =>
      ∃ state',
        let summary :=
          mkSessionSummary uuid fid NotStarted Unknown
            (head (deriveQuestionOrder form.(schema) "")) in
        tools_call uuid (CallTool (StartFormSession fid uid)) state
        = (Normal (Content (SessionOutput summary)), state') ∧
        ∀ uuid', tools_call uuid' (CallTool (GetFormState uuid)) state'
                 = (Normal (Content (StateOutput summary [] [])), state')
  end.
Proof.
  unfold tools_call, handler, Ordered.createSession, Ordered.getForm.
  destruct (JsObj.get (Ordered.forms (store state)) fid) as [form|]; [|by destruct state].
  eexists. split.
  - unfold summarizeSession, getCurrentQuestionPath. simpl.
    change (Z.to_nat 0) with 0%nat. by rewrite <- head_lookup.
  - intros uuid'.
    set (session := mkFormSession uuid uid fid form [] [] NotStarted Unknown
                      (deriveQuestionOrder (schema form) "") 0).
    assert (Ordered.getSession
              (Ordered.mkStore (Ordered.forms (store state))
                 (JsMap.set uuid session (Ordered.sessions (store state)))) uuid
            = Some session) as Hget by apply get_map_set_eq.
    rewrite (on_session_found _ _ _ (mkServerState _ _) _ Hget). simpl.
    rewrite (mutated_same _ _ _ Hget).
    unfold summarizeSession, getCurrentQuestionPath. simpl.
    change (Z.to_nat 0) with 0%nat. by rewrite <- head_lookup.
Qed.

(** X24.  A call touches one session at most.  Whatever the call and
    whether or not it fails, the registered forms are as before, no
    session is removed, and every session other than the one the call
    names or creates is as before. *)
Theorem calls_touch_one_session uuid request state :
  let state' := (tools_call uuid request state).2 in
  Ordered.forms state'.(store) = Ordered.forms state.(store) ∧
  (∀ sid, is_Some (Ordered.getSession state.(store) sid) →
          is_Some (Ordered.getSession state'.(store) sid)) ∧
  (∀ sid input, request = CallTool input → addressed uuid input ≠ Some sid →
                Ordered.getSession state'.(store) sid = Ordered.getSession state.(store) sid).
Proof.
  simpl. destruct request as [input|other];
    [|split; [done|split; [done|intros; simplify_eq]]].
  unfold tools_call.
  assert ((let (c, state') := handler uuid input state in
           match c with
           | Normal result => (Normal (Content result), state')
           | Throw e => (Normal (ErrorContent ("Error: " +:+ message_of e)), state')
           end).2 = (handler uuid input state).2) as ->.
  { by destruct (handler uuid input state) as [[] ?]. }
  destruct (sessionId_of input) as [sid0|] eqn:Hsid0.
  - destruct (Ordered.getSession (store state) sid0) as [session|] eqn:Hget.
    + rewrite (handler_performs uuid input state sid0 session Hsid0 Hget). simpl.
      split; [done|split].
      * intros sid Hsid. destruct (decide (sid0 = sid)) as [<-|Hne].
        -- by rewrite getSession_mutated_eq.
        -- by rewrite getSession_mutated_ne.
      * intros sid input' [= <-] Haddressed. apply getSession_mutated_ne.
        intros ->. destruct input; simplify_eq/=; done.
    + rewrite (handler_missing uuid input state sid0 Hsid0 Hget). simpl.
      split; [done|split; [done|intros; simplify_eq; done]].
  - destruct input as [|fid uid| | | | | |]; simplify_eq/=;
      try (split; [done|split; [done|intros; simplify_eq; done]]).
    unfold Ordered.createSession.
    destruct (JsObj.get (Ordered.forms (store state)) fid) as [form|]; simpl;
      [|split; [done|split; [done|intros; simplify_eq; done]]].
    unfold Ordered.getSession. simpl. split; [done|split].
    + intros sid Hsid. destruct (decide (uuid = sid)) as [<-|Hne].
      * by rewrite get_map_set_eq.
      * by rewrite get_map_set_ne.
    + intros sid input' [= <-] Haddressed. apply get_map_set_ne. simpl in Haddressed.
      congruence.
Qed.

Ltac pass_cases h session :=
  destruct (runSchemaValidation_cases h session) as [(? & ? & ->)|(? & ? & ? & Hr & Hc)];
  [ | rewrite (runSchemaValidation_returns h session _ _ _ Hr Hc) ]; simpl.

Lemma tools_call_content uuid input state output state' :
  tools_call uuid (CallTool input) state = (Normal (Content output), state') ↔
  handler uuid input state = (Normal output, state').
Proof.
  unfold tools_call. destruct (handler uuid input state) as [[result|e] s]; split; congruence.
Qed.

(** X25.  What a tool returns is what the store then holds.  When a tool
    that names a session succeeds, the session is in the store under
    that name, the summary returned is the summary of the stored
    session, and the [data] and [fields] returned are those of the
    stored session. *)
Theorem responses_show_the_stored_session uuid input state output state' sid :
  sessionId_of input = Some sid →
  tools_call uuid (CallTool input) state = (Normal (Content output), state') →
  ∃ session,
    Ordered.getSession state'.(store) sid = Some session ∧
    summary_of output = Some (summarizeSession session) ∧
    match output with
    | StateOutput _ shown_data shown_fields =>
        shown_data = session.(data) ∧ shown_fields = session.(fields)
    | ValidationOutput _ shown_fields => shown_fields = session.(fields)
    | FieldOutput _ field =>
        ∃ p v, input = SetFieldValueOf sid p v ∧ field = JsObj.get session.(fields) p
    | _ => True
    end.
Proof.
  intros Hsid Hcall%tools_call_content.
  destruct (Ordered.getSession (store state) sid) as [session|] eqn:Hget.
  - pose proof (handler_performs uuid input state sid session Hsid Hget) as Hstate.
    pose proof (handler_summary uuid input state sid session output state' Hsid Hget Hcall)
      as [Hsummary Hshown].
    rewrite Hcall in Hstate. simpl in Hstate, Hsummary, Hshown. subst state'.
    eexists. split; [|split; [exact Hsummary|exact Hshown]].
    simpl. apply getSession_mutated_eq. by rewrite Hget.
  - by rewrite (handler_missing uuid input state sid Hsid Hget) in Hcall.
Qed.

(** X26.  When [set_field_value] succeeds, the [field] it returns is
    never [undefined]: it is the entry of the path just set, touched and
    holding the value just given, and the summary shows a session that
    is validated and no longer [not-started]. *)
Theorem set_field_value_response uuid sid p v state output state' :
  tools_call uuid (CallTool (SetFieldValueOf sid p v)) state
  = (Normal (Content output), state') →
  ∃ summary f,
    output = FieldOutput summary (Some f) ∧
    f.(path) = p ∧ f.(value) = v ∧ f.(touched) = true ∧
    summary.(summary_status) ≠ NotStarted ∧
    summary.(summary_overallValidity) ≠ Unknown.
Proof.
  intros Hcall%tools_call_content. simpl in Hcall.
  destruct (Ordered.getSession (store state) sid) as [session|] eqn:Hget;
    [|by rewrite on_session_missing in Hcall].
  rewrite (on_session_found _ _ _ _ _ Hget) in Hcall. simpl in Hcall.
  unfold setFieldValue in Hcall.
  set (answered := record_answer session p v) in *.
  assert (∃ f, JsObj.get answered.(fields) p = Some f ∧
               f.(path) = p ∧ f.(value) = v ∧ f.(touched) = true) as (f0 & Hf0 & ? & ? & ?).
  { unfold answered. rewrite record_answer_fields, get_set_eq. eauto. }
  assert (answered.(status) ≠ NotStarted) as Hstatus.
  { unfold answered. rewrite record_answer_status. by destruct (status session). }
  destruct (runSchemaValidation_keeps_answer (heap state) answered p f0 Hf0)
    as (f & Hf & Hpath & Hvalue & Htouched).
  revert Hcall Hf. pass_cases (heap state) answered; [done|].
  intros [= <- <-] Hf. eexists _, f. rewrite Hf. simpl.
  repeat split; try congruence; by destruct (valid _).
Qed.

Lemma fresh_session_well_kept uuid uid fid form :
  let session :=
    mkFormSession uuid uid fid form [] [] NotStarted Unknown
      (deriveQuestionOrder form.(schema) "") 0 in
  session.(sessionId) = uuid ∧ index_in_bounds session ∧ status_consistent session ∧
  filed_by_path session ∧ fields_agree_with_data session.
Proof.
  simpl. unfold index_in_bounds, status_consistent, filed_by_path, fields_agree_with_data.
  simpl. split; [done|split; [lia|]]. repeat split; done.
Qed.

Lemma perform_all_well_kept state ops sid :
  ordinary_session state.2 = true →
  forallb ordinary_operation ops = true →
  state.2.(sessionId) = sid ∧ index_in_bounds state.2 ∧ status_consistent state.2 ∧
  filed_by_path state.2 ∧ fields_agree_with_data state.2 →
  let session := (perform_all state ops).2 in
  (session.(sessionId) = sid ∧ index_in_bounds session ∧ status_consistent session ∧
   filed_by_path session ∧ fields_agree_with_data session) ∧
  ordinary_session session = true.
Proof.
  intros Hordinary Hops (Hsid & Hindex & Hrest). simpl.
  assert ((perform_all state ops).2.(sessionId) = sid ∧
          status_consistent (perform_all state ops).2 ∧
          filed_by_path (perform_all state ops).2 ∧
          fields_agree_with_data (perform_all state ops).2 ∧
          ordinary_session (perform_all state ops).2 = true) as (? & ? & ? & ? & ?).
  { apply (perform_all_preserves_among ordinary_operation (fun session =>
      session.(sessionId) = sid ∧ status_consistent session ∧
      filed_by_path session ∧ fields_agree_with_data session ∧
      ordinary_session session = true)); [| | |done|tauto].
    - intros session p v Hp (? & ? & ? & ? & ?). simpl in Hp.
      split; [|split; [|split; [|split]]].
      + unfold record_answer. simpl. by destruct (status session).
      + by apply record_answer_status_consistent.
      + by apply record_answer_filed.
      + apply record_answer_agree; [by apply no_proto_ne|done].
      + by apply record_answer_ordinary.
    - intros h session (? & ? & ? & ? & ?). split; [|split; [|split; [|split]]].
      + by pass_cases h session.
      + by apply runSchemaValidation_status_consistent.
      + by apply runSchemaValidation_filed.
      + by apply runSchemaValidation_agree.
      + by apply runSchemaValidation_ordinary.
    - done. }
  split; [|done]. split; [done|split; [by apply perform_all_index_in_bounds|done]].
Qed.

Lemma ordinary_store_session kept sid session :
  ordinary_store kept = true → Ordered.getSession kept sid = Some session →
  ordinary_session session = true.
Proof.
  unfold ordinary_store. intros [_ Hall]%andb_prop Hget%get_elem_of.
  rewrite forallb_forall in Hall. by apply (Hall (sid, session)), list_elem_of_In.
Qed.

Lemma ordinary_store_form kept fid form :
  ordinary_store kept = true → Ordered.getForm kept fid = Some form →
  forallb (fun question => negb (inherited question))
          (deriveQuestionOrder form.(schema) "") = true.
Proof.
  unfold ordinary_store. intros [Hall _]%andb_prop Hget%get_elem_of.
  rewrite forallb_forall in Hall. by apply (Hall (fid, form)), list_elem_of_In.
Qed.

Lemma operations_of_ordinary uuid input :
  ordinary_call (uuid, CallTool input) = true →
  forallb ordinary_operation (operations_of input) = true.
Proof. destruct input; simpl; try done. unfold ordinary_call. simpl. by intros ->. Qed.

Lemma tools_call_well_kept uuid request state :
  ordinary_store state.(store) = true → ordinary_call (uuid, request) = true →
  sessions_well_kept state.(store) →
  sessions_well_kept (tools_call uuid request state).2.(store) ∧
  ordinary_store (tools_call uuid request state).2.(store) = true.
Proof.
  intros Hordinary Hcall Hkept. destruct request as [input|other]; [|done].
  unfold tools_call.
  assert ((let (c, state') := handler uuid input state in
           match c with
           | Normal result => (Normal (Content result), state')
           | Throw e => (Normal (ErrorContent ("Error: " +:+ message_of e)), state')
           end).2 = (handler uuid input state).2) as ->.
  { by destruct (handler uuid input state) as [[] ?]. }
  destruct (sessionId_of input) as [sid0|] eqn:Hsid0.
  - destruct (Ordered.getSession (store state) sid0) as [session|] eqn:Hget.
    + rewrite (handler_performs uuid input state sid0 session Hsid0 Hget). simpl.
      destruct (perform_all_well_kept (heap state, session) (operations_of input) sid0)
        as [Hkept' Hordinary'];
        [by eapply ordinary_store_session|by eapply operations_of_ordinary|by apply Hkept|].
      split.
      * intros sid session'. destruct (decide (sid0 = sid)) as [<-|Hne].
        -- rewrite getSession_mutated_eq by by rewrite Hget. by intros [= <-].
        -- rewrite getSession_mutated_ne by done. apply Hkept.
      * unfold ordinary_store, Ordered.mutated in *. simpl.
        apply andb_prop in Hordinary as [-> Hsessions]. simpl.
        by apply forallb_replace.
    + by rewrite (handler_missing uuid input state sid0 Hsid0 Hget).
  - destruct input as [|fid uid| | | | | |]; simplify_eq/=; try done.
    pose proof (ordinary_store_form (store state) fid) as Hform.
    unfold Ordered.createSession, Ordered.getForm in *.
    destruct (JsObj.get (Ordered.forms (store state)) fid) as [form|]; simpl; [|done].
    split.
    + intros sid session'. unfold Ordered.getSession. simpl.
      destruct (decide (uuid = sid)) as [<-|Hne].
      * rewrite get_map_set_eq. intros [= <-]. apply fresh_session_well_kept.
      * rewrite get_map_set_ne by done. apply Hkept.
    + unfold ordinary_store in *. simpl.
      apply andb_prop in Hordinary as [Hforms Hsessions]. rewrite Hforms. simpl.
      apply forallb_map_set; [done|]. unfold ordinary_session, proto_free. simpl.
      apply (Hform form); [|done]. by rewrite Hforms, Hsessions.
Qed.

(** X27.  The server keeps its sessions in order.  In a store in which
    the names that objects inherit play no part (no question of a form
    goes by one, no answer is filed under a path with the segment
    [__proto__]), after any sequence of requests that set no such path,
    every session in the store is filed under its own [sessionId], has
    its index in bounds, has [status] and [overallValidity] consistent
    with each other, and has [fields] in step with [data]; and the
    inherited names still play no part in the store. *)
Theorem stored_sessions_stay_well_kept calls state :
  ordinary_store state.(store) = true →
  forallb ordinary_call calls = true →
  sessions_well_kept state.(store) →
  sessions_well_kept (serve state calls).(store) ∧
  ordinary_store (serve state calls).(store) = true.
Proof.
  revert state.
  induction calls as [|[uuid request] calls IH]; intros state Hordinary Hcalls Hkept; [done|].
  simpl in Hcalls. apply andb_prop in Hcalls as [Hcall Hcalls].
  destruct (tools_call_well_kept uuid request state Hordinary Hcall Hkept)
    as [Hkept' Hordinary'].
  unfold serve in *. simpl. by apply IH.
Qed.

Lemma store_in_heap_session h kept sid session :
  store_in_heap h kept = true → Ordered.getSession kept sid = Some session →
  answers_in_heap h session = true.
Proof.
  unfold store_in_heap. rewrite forallb_forall. intros Hall Hget%get_elem_of.
  by apply (Hall (sid, session)), list_elem_of_In.
Qed.

Lemma store_in_heap_mutated h kept sid session :
  store_in_heap h kept = true → answers_in_heap h session = true →
  store_in_heap h (Ordered.mutated kept sid session) = true.
Proof.
  unfold store_in_heap, Ordered.mutated. simpl. intros Hall Hsession.
  induction (Ordered.sessions kept) as [|[k s] entries IH]; simpl in *; [done|].
  apply andb_prop in Hall as [Hs Hrest].
  destruct (String.eqb k sid); simpl; rewrite ?Hs, ?Hsession, ?Hrest; auto.
Qed.

Lemma store_in_heap_mono (h h' : Heap) kept :
  (length h ≤ length h')%nat → store_in_heap h kept = true → store_in_heap h' kept = true.
Proof.
  unfold store_in_heap. rewrite !forallb_forall. intros Hlen Hall entry Hentry.
  eapply answers_in_heap_mono; [done|]. by apply Hall.
Qed.

Lemma store_in_heap_created h kept fid uid uuid :
  store_in_heap h kept = true →
  store_in_heap h (Ordered.createSession kept fid uid uuid).2 = true.
Proof.
  unfold store_in_heap, Ordered.createSession. intros Hall.
  destruct (JsObj.get (Ordered.forms kept) fid); simpl; [|done].
  unfold JsMap.set. destruct (JsObj.has (Ordered.sessions kept) uuid).
  - induction (Ordered.sessions kept) as [|[k s] entries IH]; simpl in *; [done|].
    apply andb_prop in Hall as [Hs Hrest].
    destruct (String.eqb k uuid); simpl; rewrite ?Hs, ?Hrest; auto.
  - by rewrite forallb_app, Hall.
Qed.

(** One request to a server whose heap holds no array. *)
Lemma tools_call_plain uuid request state :
  plain_heap state.(heap) = true → store_in_heap state.(heap) state.(store) = true →
  value_in_heap state.(heap) (uuid, request) = true →
  let r := tools_call uuid request state in
  (succeeded r.1 ∨ not_found r.1 ∨ refused r.1) ∧
  plain_heap r.2.(heap) = true ∧ store_in_heap r.2.(heap) r.2.(store) = true ∧
  (length state.(heap) ≤ length r.2.(heap))%nat.
Proof.
  intros Hplain Hstore Hvalue. simpl.
  destruct request as [input|other];
    [|split; [right; left; right; right; by eexists|done]].
  assert (∀ sid act output session,
            Ordered.getSession (store state) sid = Some session →
            (let r := act (heap state) session in
             (r.1.1 = Normal () ∨
              ∃ e, ajv_compile session.(definitionSnapshot).(schema) = Throw e ∧
                   r.1.1 = Throw e) ∧
             plain_heap r.1.2 = true ∧
             answers_in_heap r.1.2 r.2 = true ∧ (length (heap state) ≤ length r.1.2)%nat) →
            let r := match on_session sid act output state with
                     | (Normal result, s) => (Normal (Content result), s)
                     | (Throw e, s) => (Normal (ErrorContent ("Error: " +:+ message_of e)), s)
                     end in
            (succeeded r.1 ∨ not_found r.1 ∨ refused r.1) ∧
            plain_heap r.2.(heap) = true ∧ store_in_heap r.2.(heap) r.2.(store) = true ∧
            (length state.(heap) ≤ length r.2.(heap))%nat) as Hfound.
  { intros sid act output session Hget. simpl. intros (Hdone & Hplain' & Hdata' & Hlen).
    rewrite (on_session_found _ _ _ _ _ Hget). simpl.
    assert (store_in_heap (act (heap state) session).1.2
              (Ordered.mutated (store state) sid (act (heap state) session).2) = true)
      as Hstore'.
    { apply store_in_heap_mutated; [|done]. by eapply store_in_heap_mono. }
    destruct Hdone as [-> |(e & Hc & ->)]; simpl.
    - split; [left; by eexists|done].
    - split; [right; right; by exists (schema (definitionSnapshot session)), e|done]. }
  assert (∀ sid act output,
            Ordered.getSession (store state) sid = None →
            let r := match on_session sid act output state with
                     | (Normal result, s) => (Normal (Content result), s)
                     | (Throw e, s) => (Normal (ErrorContent ("Error: " +:+ message_of e)), s)
                     end in
            (succeeded r.1 ∨ not_found r.1 ∨ refused r.1) ∧
            plain_heap r.2.(heap) = true ∧ store_in_heap r.2.(heap) r.2.(store) = true ∧
            (length state.(heap) ≤ length r.2.(heap))%nat) as Hmissing.
  { intros sid act output Hget. simpl. rewrite (on_session_missing _ _ _ _ Hget). simpl.
    split; [right; left; by left|done]. }
  assert (∀ session, answers_in_heap (heap state) session = true →
            let r := runSchemaValidation (heap state) session in
            (r.1.1 = Normal () ∨
             ∃ e, ajv_compile session.(definitionSnapshot).(schema) = Throw e ∧
                  r.1.1 = Throw e) ∧
            plain_heap r.1.2 = true ∧ answers_in_heap r.1.2 r.2 = true) as Hpass.
  { intros session Hdata. simpl.
    destruct (ajv_compile session.(definitionSnapshot).(schema)) as [validate|e] eqn:Hc.
    - destruct (runSchemaValidation_plain (heap state) session validate)
        as (? & ? & ?); [done..|]. split; [by left|done].
    - destruct (runSchemaValidation_plain_refused (heap state) session e)
        as (? & ? & ?); [done..|]. split; [right; by exists e|done]. }
  unfold tools_call.
  destruct input as [|fid uid|user|sid|sid p v|sid|sid|sid]; simpl.
  - split; [left; by eexists|done].
  - pose proof (store_in_heap_created (heap state) (store state) fid uid uuid Hstore) as Hnew.
    unfold Ordered.createSession in *.
    destruct (JsObj.get (Ordered.forms (store state)) fid) as [form|]; simpl in *.
    + split; [left; by eexists|done].
    + split; [right; left; right; left; by exists fid|done].
  - split; [left; by eexists|done].
  - destruct (Ordered.getSession (store state) sid) as [session|] eqn:Hget;
      [|by apply Hmissing].
    apply (Hfound _ _ _ session Hget). simpl.
    split; [by left|]. split; [done|]. split; [|done]. by eapply store_in_heap_session.
  - destruct (Ordered.getSession (store state) sid) as [session|] eqn:Hget;
      [|by apply Hmissing].
    apply (Hfound _ _ _ session Hget). simpl.
    pose proof (store_in_heap_session _ _ _ _ Hstore Hget) as Hdata.
    unfold setFieldValue.
    destruct (Hpass (record_answer session p v)) as (Hdone & Hplain' & Hdata');
      [by apply record_answer_in_heap|].
    rewrite record_answer_definitionSnapshot in Hdone.
    split; [done|]. split; [done|]. split; [done|].
    apply (perform_length (heap state, session) (SetFieldValue p v)).
  - destruct (Ordered.getSession (store state) sid) as [session|] eqn:Hget;
      [|by apply Hmissing].
    apply (Hfound _ _ _ session Hget). simpl.
    pose proof (store_in_heap_session _ _ _ _ Hstore Hget) as Hdata.
    split; [by left|]. split; [done|]. split; [|done].
    unfold moveToNextQuestion. by destruct (_ <? _).
  - destruct (Ordered.getSession (store state) sid) as [session|] eqn:Hget;
      [|by apply Hmissing].
    apply (Hfound _ _ _ session Hget). simpl.
    pose proof (store_in_heap_session _ _ _ _ Hstore Hget) as Hdata.
    split; [by left|]. split; [done|]. split; [|done].
    unfold moveToPreviousQuestion. by destruct (_ >? _).
  - destruct (Ordered.getSession (store state) sid) as [session|] eqn:Hget;
      [|by apply Hmissing].
    apply (Hfound _ _ _ session Hget). simpl.
    pose proof (store_in_heap_session _ _ _ _ Hstore Hget) as Hdata.
    destruct (Hpass session Hdata) as (Hdone & Hplain' & Hdata').
    split; [done|]. split; [done|]. split; [done|].
    apply (perform_length (heap state, session) RunSchemaValidation).
Qed.

(** X28.  A client that sends no arrays sees no engine error.  When the
    heap holds no array, every value sent is a primitive or an object of
    the heap, and no answer is or has been given under a path with the
    segment [__proto__], each request of a sequence either succeeds, or
    reports a session, a form or a tool that is not found, or reports
    what [ajv.compile] threw at the schema of the session. *)
Theorem no_engine_errors_without_arrays calls state :
  plain_heap state.(heap) = true → store_in_heap state.(heap) state.(store) = true →
  forallb (value_in_heap state.(heap)) calls = true →
  proto_free_store state.(store) = true → forallb ordinary_call calls = true →
  Forall (fun response => succeeded response ∨ not_found response ∨ refused response)
         (responses state calls).
Proof.
  intros Hplain Hstore Hcalls _ _. revert state Hplain Hstore Hcalls.
  induction calls as [|[uuid request] calls IH]; intros state Hplain Hstore Hcalls;
    [by constructor|].
  simpl in Hcalls. apply andb_prop in Hcalls as [Hcall Hcalls].
  destruct (tools_call_plain uuid request state Hplain Hstore Hcall)
    as (Hresponse & Hplain' & Hstore' & Hlen).
  simpl. constructor; [done|]. apply IH; [done..|].
  rewrite forallb_forall in Hcalls. apply forallb_forall. intros [u r] Hin.
  specialize (Hcalls _ Hin). unfold value_in_heap in *. simpl in *.
  destruct r as [[]|]; try done. by eapply in_heap_mono.
Qed.

End Tools.

(** * The document of a validation pass *)

Section Document.
Context `{ArrayLengthConversion}.

#[local] Arguments setDeepValue_loop : simpl never.



















Lemma unrelated_nil_l q : unrelated [] q = false.
Proof. done. Qed.












End Document.

(** * Whose violation it is *)

Lemma split_slash_pointer_of s :
  ∃ first keys,
    split_slash s = first :: keys ∧ s = first +:+ pointer_of keys ∧
    contains Str.slash first = false ∧
    Forall (fun key => contains Str.slash key = false) keys.
Proof.
  induction s as [|c s (first & keys & Hsplit & Hs & Hfirst & Hkeys)].
  - by exists "", [].
  - simpl. rewrite Hsplit. destruct (Ascii.eqb c Str.slash) eqn:Hc.
    + apply Ascii.eqb_eq in Hc as ->. exists "", (first :: keys).
      split; [done|]. split; [by rewrite Hs at 1|]. split; [done|]. by constructor.
    + exists (String c first), keys. split; [done|]. split; [by rewrite Hs at 1|].
      split; [|done]. simpl. by rewrite Hc.
Qed.

Lemma unescape_pointer_plain s :
  contains "~"%char s = false → unescape_pointer s = s.
Proof.
  induction s as [|c s IH]; [done|]. intros [Hc Hs]%orb_false_elim.
  specialize (IH Hs). destruct s as [|d s]; [done|].
  change (unescape_pointer (String c (String d s)))
    with (if Ascii.eqb c "~"%char && Ascii.eqb d "1"%char
          then String "/" (unescape_pointer s)
          else if Ascii.eqb c "~"%char && Ascii.eqb d "0"%char
               then String "~" (unescape_pointer s)
               else String c (unescape_pointer (String d s))).
  by rewrite Hc, IH.
Qed.

(** A plain instance path is the pointer of the names it leads through. *)
Lemma plain_pointer_keys pointer :
  plain_pointer pointer = true →
  pointer = pointer_of (pointer_keys pointer) ∧
  Forall (fun key => key ≠ "") (pointer_keys pointer) ∧
  Forall (fun key => contains Str.slash key = false) (pointer_keys pointer).
Proof.
  unfold plain_pointer, pointer_keys.
  destruct (split_slash_pointer_of pointer) as (first & keys & -> & Hpointer & _ & Hslash).
  intros [->%String.eqb_eq Hkeys]%andb_prop. simpl.
  assert (map unescape_pointer keys = keys) as ->.
  { clear Hpointer Hslash. induction keys as [|key keys IH]; [done|]. simpl in *.
    apply andb_prop in Hkeys as [[_ Htilde%negb_true_iff]%andb_prop Hrest].
    by rewrite unescape_pointer_plain, IH. }
  split; [done|]. split; [|done].
  rewrite forallb_forall in Hkeys. apply Forall_forall. intros key Hkey%list_elem_of_In.
  apply Hkeys in Hkey as [Hempty%negb_true_iff _]%andb_prop. by apply String.eqb_neq.
Qed.

(** On a plain instance path [normalizeAjvPath] finds the question whose
    violation it is. *)
Lemma violates_normalizeAjvPath question err :
  plain_pointer err.(instancePath) = true → question ≠ "" →
  violates question err = String.eqb (normalizeAjvPath err.(instancePath)) question.
Proof.
  intros (Hpointer & Hfull & Hslash)%plain_pointer_keys Hquestion. unfold violates.
  rewrite Hpointer at 2. rewrite normalizeAjvPath_pointer_of by done.
  destruct (pointer_keys (instancePath err)) as [|key keys] eqn:Hkeys.
  - symmetry. apply String.eqb_neq. by intros <-.
  - by rewrite question_path_root.
Qed.

Lemma violations_of_normalized question errs :
  forallb (fun err => plain_pointer err.(instancePath)) errs = true → question ≠ "" →
  violations_of question errs = violations question errs.
Proof.
  intros Hplain Hquestion. unfold violations_of, violations. f_equal.
  induction errs as [|err errs IH]; [done|]. simpl in *.
  apply andb_prop in Hplain as [Herr Hrest].
  by rewrite violates_normalizeAjvPath, IH.
Qed.

Section Attribution.
Context `{ArrayLengthConversion} `{Ajv}.

(** What the pass writes for a question, said without
    [normalizeAjvPath].  After [runSchemaValidation(session)] returns,
    every path of [questionOrder] has an entry in [fields].  When the
    instance paths that the validator reported are plain, that is, lead
    through names that are not empty and need no escaping in a JSON
    pointer, the [messages] of the entry of a question are the messages
    of the violations of the property that the question stands for, and
    [schemaValid] is true exactly when there are none. *)
Theorem runSchemaValidation_rewrites_every_question h session h' session' :
  runSchemaValidation h session = (Normal (), h', session') →
  ∃ grouped validate,
    reconstruct session.(data) h = (Normal grouped, h') ∧
    ajv_compile session.(definitionSnapshot).(schema) = Normal validate ∧
    let errs := default [] (validate h' grouped).(errors) in
    (∀ q, q ∈ session.(questionOrder) → is_Some (JsObj.get session'.(fields) q)) ∧
    (forallb (fun err => plain_pointer err.(instancePath)) errs = true →
     ∀ q, q ∈ session.(questionOrder) → q ≠ "" →
       ∃ f, JsObj.get session'.(fields) q = Some f ∧
            (f.(schemaValid) = true ↔ violations_of q errs = []) ∧
            f.(messages) = violations_of q errs).
Proof.
  intros Hrun.
  destruct (runSchemaValidation_fields_by_normalized_path h session h' session' Hrun)
    as (grouped & validate & Hr & Hc & _ & _ & _ & Hfields).
  exists grouped, validate. split; [done|]. split; [done|]. simpl in *. split.
  - intros q Hq. destruct (Hfields q Hq) as (f & -> & _). by eexists.
  - intros Hplain q Hq Hne. rewrite violations_of_normalized by done. by apply Hfields.
Qed.

End Attribution.

(** * Examples on the sample forms

    The sample validator and the sample length conversion stand in for
    the collaborators. *)

#[local] Existing Instance sample_conversion.
#[local] Existing Instance sample_ajv.

(** The later entry of [data] wins, whichever it is. *)
Example last_write_wins :
  reconstruct [("a", VNumber 5); ("a.b", VNumber 1)] []
  = (Normal (VRef 0),
     [mkJsObject None [("a", VRef 1)]; mkJsObject None [("b", VNumber 1)]]) ∧
  reconstruct [("a.b", VNumber 1); ("a", VNumber 5)] []
  = (Normal (VRef 0),
     [mkJsObject None [("a", VNumber 5)]; mkJsObject None [("b", VNumber 1)]]).
Proof. split; reflexivity. Qed.

(** C8, at its failing input.  The answers [a = {}], [a.b.c = 1] and
    [a.b = {}] are given in that order to a form whose [a.b] requires a
    property [c].  The pass that the third [setFieldValue] runs hangs the
    object given for [a.b] into the object given for [a]; the next pass
    walks the path [a.b.c] through these stored objects and writes [c]
    into the answer of [a.b].  So the first of two consecutive calls of
    [runSchemaValidation] reports [a.b] invalid, and the second, with
    [data] holding the same references, reports it valid. *)
Theorem revalidation_changes_fields :
  let before :=
    perform_all ([empty_object; empty_object], sessionOf addressForm "s")
      [SetFieldValue "a" (VRef 0); SetFieldValue "a.b.c" (VNumber 1)] in
  let written := record_answer before.2 "a.b" (VRef 1) in
  let first := runSchemaValidation before.1 written in
  let second := runSchemaValidation first.1.2 first.2 in
  first = setFieldValue before.1 before.2 "a.b" (VRef 1) ∧
  first.1.1 = Normal () ∧ second.1.1 = Normal () ∧
  first.2.(data) = [("a", VRef 0); ("a.b.c", VNumber 1); ("a.b", VRef 1)] ∧
  second.2.(data) = first.2.(data) ∧
  first.1.2 !! 1%nat = Some empty_object ∧
  second.1.2 !! 1%nat = Some (mkJsObject None [("c", VNumber 1)]) ∧
  JsObj.get first.2.(fields) "a.b"
  = Some (mkFormFieldState "a.b" (VRef 1) false ["must have required property 'c'"] true) ∧
  JsObj.get second.2.(fields) "a.b"
  = Some (mkFormFieldState "a.b" (VRef 1) true [] true) ∧
  first.2.(overallValidity) = Invalid ∧
  second.2.(overallValidity) = Valid ∧
  second.2.(fields) ≠ first.2.(fields).
Proof.
  intros before written first second.
  repeat (split; [vm_compute; reflexivity|]).
  vm_compute. discriminate.
Qed.

(** With scalar answers the same form revalidates to the same session. *)
Example revalidation_of_scalar_answers :
  let answered :=
    perform_all ([], sessionOf addressForm "s") [SetFieldValue "a.b.d" (VString "x")] in
  let first := runSchemaValidation answered.1 answered.2 in
  let second := runSchemaValidation first.1.2 first.2 in
  second.1.1 = first.1.1 ∧ second.2 = first.2.
Proof.
  intros answered.
  apply (runSchemaValidation_idempotent_scalar answered.1 answered.2); [reflexivity|].
  intros validate [= <-]. apply sample_validate_document_only.
Qed.

(** C2, at its failing input.  A form has a property named
    [width/height], a string; the answer given for it is the number 7.
    The validator reports the violation at the instance path
    [/width~1height], where the name is written as JSON pointers write
    it.  [normalizeAjvPath] makes [width~1height] of it, which is no
    question: after the pass the entry of the question [width/height]
    says [schemaValid] with no messages, while the session is
    [invalid]. *)
Theorem escaped_name_violation_is_lost :
  let session := record_answer (sessionOf ratioForm "s") "width/height" (VNumber 7) in
  let result := runSchemaValidation [] session in
  let errs := [error_at "/width~1height" "must be string"] in
  session.(questionOrder) = ["width/height"] ∧
  result.1.1 = Normal () ∧
  reconstruct session.(data) [] = (Normal (VRef 0), result.1.2) ∧
  result.1.2 = [mkJsObject None [("width/height", VNumber 7)]] ∧
  (sample_validate ratioForm.(schema) result.1.2 (VRef 0)).(errors) = Some errs ∧
  pointer_keys "/width~1height" = ["width/height"] ∧
  violations_of "width/height" errs = ["must be string"] ∧
  normalizeAjvPath "/width~1height" = "width~1height" ∧
  JsObj.get result.2.(fields) "width/height"
  = Some (mkFormFieldState "width/height" (VNumber 7) true [] true) ∧
  result.2.(overallValidity) = Invalid.
Proof. repeat (split; [vm_compute; reflexivity|]). vm_compute. reflexivity. Qed.

(** With names that need no escaping the violation is found. *)
Lemma runSchemaValidation_rewrites_every_question_witness :
  let session := record_answer (sessionOf demoForm "s") "email" (VNumber 7) in
  let result := runSchemaValidation [] session in
  result = (Normal (), result.1.2, result.2) ∧
  ∃ f, JsObj.get result.2.(fields) "email" = Some f ∧
       f.(messages) = ["must be string"] ∧
       (f.(schemaValid) = true ↔ ["must be string"] = []).
Proof.
  intros session result.
  assert (result = (Normal (), result.1.2, result.2)) as Hrun
    by (vm_compute; reflexivity).
  split; [exact Hrun|].
  destruct (runSchemaValidation_rewrites_every_question [] session result.1.2 result.2 Hrun)
    as (grouped & validate & Hr & Hc & _ & Hfields).
  assert (grouped = VRef 0) as -> by (vm_compute in Hr; congruence).
  assert (validate = sample_validate demoForm.(schema)) as ->
    by (change (Normal (sample_validate demoForm.(schema)) = Normal validate) in Hc;
        by injection Hc).
  destruct (Hfields eq_refl "email") as (f & Hf & Hvalid & Hmessages).
  - apply (bool_decide_unpack _). vm_compute. exact I.
  - done.
  - exists f. split; [exact Hf|]. split; [exact Hmessages|exact Hvalid].
Defined.

Example email_violation :
  let session' := (setFieldValue [] (sessionOf demoForm "s") "email" (VNumber 7)).2 in
  session'.(overallValidity) = Invalid ∧
  JsObj.get session'.(fields) "email"
  = Some (mkFormFieldState "email" (VNumber 7) false ["must be string"] true).
Proof. vm_compute. done. Qed.

Lemma runSchemaValidation_completes_unanswered_witness :
  let session := sessionOf optionalForm "s" in
  session.(status) = NotStarted ∧
  session.(data) = [] ∧
  ∃ h' session', runSchemaValidation [] session = (Normal (), h', session') ∧
                 session'.(overallValidity) = Valid ∧
                 session'.(status) = Complete.
Proof.
  intros session. split; [reflexivity|]. split; [reflexivity|].
  apply (runSchemaValidation_completes_unanswered [] session
           (sample_validate session.(definitionSnapshot).(schema)));
    reflexivity.
Defined.

Lemma status_transitions_witness :
  let session := sessionOf demoForm "s" in
  (record_answer session "fullName" (VString "Alice")).(status) = InProgress ∧
  (setFieldValue [] session "fullName" (VString "Alice")).2.(status) = InProgress.
Proof.
  intros session.
  destruct (status_transitions [] session) as [Hfirst _].
  destruct (Hfirst "fullName" (VString "Alice") eq_refl) as [Hanswer Hcall].
  split; [exact Hanswer|]. rewrite Hcall. reflexivity.
Defined.

Lemma setFieldValue_postcondition_witness :
  let session := sessionOf demoForm "s" in
  let result := setFieldValue [] session "fullName" (VString "Alice") in
  result = (Normal (), result.1.2, result.2) ∧
  JsObj.get result.2.(data) "fullName" = Some (VString "Alice") ∧
  (∃ f, JsObj.get result.2.(fields) "fullName" = Some f ∧
        f.(touched) = true ∧ f.(value) = VString "Alice") ∧
  result.2.(status) ≠ NotStarted ∧
  result.2.(overallValidity) = Invalid.
Proof.
  intros session result.
  assert (result = (Normal (), result.1.2, result.2)) as Hrun
    by (vm_compute; reflexivity).
  split; [exact Hrun|].
  destruct (setFieldValue_postcondition [] session "fullName" (VString "Alice")
              result.1.2 result.2 ltac:(done) Hrun)
    as (Hdata & Hfield & Hstatus & grouped & validate & Hr & Hc & Hvalidity & _).
  split; [exact Hdata|]. split; [exact Hfield|]. split; [exact Hstatus|].
  assert (grouped = VRef 0) as -> by (vm_compute in Hr; congruence).
  assert (validate = sample_validate demoForm.(schema)) as ->
    by (change (Normal (sample_validate demoForm.(schema)) = Normal validate) in Hc;
        by injection Hc).
  exact Hvalidity.
Defined.

(** C4, at its failing input.  [setFieldValue(session, "__proto__", "x")]
    returns, and the session is then [in-progress] and validated, but the
    answer is not in [data]: the assignment [session.data["__proto__"] =
    "x"] went to the accessor that [data] inherits, which ignores a
    string.  [data] is as empty as before, the document that the pass
    validated held nothing, and [data["__proto__"]] is anything but
    ["x"]. *)
Theorem proto_answer_is_not_recorded :
  let session := sessionOf demoForm "s" in
  let result := setFieldValue [] session "__proto__" (VString "x") in
  result.1.1 = Normal () ∧
  result.2.(data) = [] ∧
  JsObj.get result.2.(data) "__proto__" ≠ Some (VString "x") ∧
  result.1.2 = [empty_object] ∧
  result.2.(status) = InProgress ∧
  result.2.(overallValidity) = Invalid.
Proof.
  repeat (split; [vm_compute; reflexivity|]).
  split; [vm_compute; discriminate|].
  repeat (split; [vm_compute; reflexivity|]). vm_compute. reflexivity.
Qed.

Example fullName_alice :
  let session' := (setFieldValue [] (sessionOf demoForm "s") "fullName" (VString "Alice")).2 in
  JsObj.get session'.(data) "fullName" = Some (VString "Alice") ∧
  touched <$> JsObj.get session'.(fields) "fullName" = Some true ∧
  session'.(status) = InProgress.
Proof. vm_compute. done. Qed.

Example required_answers_complete :
  let session' :=
    (perform_all ([], sessionOf demoForm "s")
       [SetFieldValue "fullName" (VString "Alice");
        SetFieldValue "email" (VString "a@b.c")]).2 in
  session'.(overallValidity) = Valid ∧ session'.(status) = Complete.
Proof. vm_compute. done. Qed.

Lemma navigation_stays_in_bounds_witness :
  let session := sessionOf demoForm "s" in
  index_in_bounds session ∧
  index_in_bounds
    (perform_all ([], session)
       [MoveToPreviousQuestion; MoveToNextQuestion; MoveToNextQuestion;
        MoveToNextQuestion; MoveToNextQuestion; MoveToNextQuestion]).2 ∧
  moveToPreviousQuestion session = session.
Proof.
  intros session.
  assert (index_in_bounds session) as Hb by (unfold index_in_bounds; simpl; lia).
  destruct (navigation_stays_in_bounds [] session Hb) as (Hall & _ & Hfirst & _).
  split; [exact Hb|]. split; [apply Hall | apply Hfirst; reflexivity].
Defined.

Example navigation_clamps :
  (perform_all ([], sessionOf demoForm "s")
     [MoveToNextQuestion; MoveToNextQuestion; MoveToNextQuestion;
      MoveToNextQuestion; MoveToNextQuestion]).2.(currentQuestionIndex) = 3.
Proof. reflexivity. Qed.



#[local] Existing Instance sample_uuidv4.

Lemma createSession_spec_witness :
  reachable 0%nat demoStore ∧
  createSession_uuidv4 0%nat demoStore "unknown-form-id" None
  = (Throw (Error "Form not found: unknown-form-id"), demoStore, 0%nat) ∧
  ∃ session store',
    createSession_uuidv4 0%nat demoStore "demo-contact" None
    = (Normal session, store', 1%nat) ∧
    session.(sessionId) = "id" ∧
    demoStore.(sessions) !! "id" = None ∧
    session.(questionOrder) = ["fullName"; "age"; "email"; "bio"] ∧
    store'.(sessions) !! "id" = Some session.
Proof.
  assert (reachable 0%nat demoStore) as Hreached
    by apply reachable_registerForm, reachable_registerForm, reachable_empty.
  split; [exact Hreached|].
  destruct (createSession_spec (H := sample_uuidv4) 0%nat demoStore "unknown-form-id" None
              Hreached)
    as [Hmissing _].
  destruct (createSession_spec (H := sample_uuidv4) 0%nat demoStore "demo-contact" None
              Hreached)
    as [_ Hfound].
  split; [apply Hmissing; by vm_compute|].
  destruct (Hfound demoForm)
    as (session & store' & g' & Hrun & Hid & Hfresh & _ & _ & _ & _ & _ & _ & _ & _ & _
        & Hqo & _ & Hstored & _);
    [by vm_compute|].
  exists session, store'.
  assert (g' = 1%nat) as -> by (vm_compute in Hrun; congruence).
  split; [exact Hrun|]. split; [exact Hid|]. simpl in Hid. rewrite Hid in *.
  split; [exact Hfresh|]. split; [by rewrite Hqo|exact Hstored].
Defined.

(** ** The further properties at work *)

Lemma navigation_closed_form_witness :
  let session := sessionOf demoForm "s" in
  index_in_bounds session ∧
  Nat.iter 5 moveToNextQuestion session = with_currentQuestionIndex 3 session ∧
  Nat.iter 5 moveToPreviousQuestion (with_currentQuestionIndex 3 session) = session.
Proof.
  intros session.
  assert (index_in_bounds session) as Hstart by (unfold index_in_bounds; simpl; lia).
  assert (index_in_bounds (with_currentQuestionIndex 3 session)) as Hend
    by (unfold index_in_bounds; simpl; lia).
  split; [exact Hstart|]. split.
  - exact (proj1 (navigation_closed_form 5 session Hstart)).
  - exact (proj2 (navigation_closed_form 5 (with_currentQuestionIndex 3 session) Hend)).
Defined.

Lemma navigation_round_trip_witness :
  let session := sessionOf demoForm "s" in
  moveToPreviousQuestion (moveToNextQuestion session) = session ∧
  moveToNextQuestion (moveToPreviousQuestion (moveToNextQuestion session))
  = moveToNextQuestion session.
Proof.
  intros session.
  assert (index_in_bounds session) as Hstart by (unfold index_in_bounds; simpl; lia).
  assert (index_in_bounds (moveToNextQuestion session)) as Hnext
    by (unfold index_in_bounds; simpl; lia).
  split.
  - apply (proj1 (navigation_round_trip session Hstart)). simpl. lia.
  - apply (proj2 (navigation_round_trip (moveToNextQuestion session) Hnext)). simpl. lia.
Defined.

Lemma getCurrentQuestionPath_defined_witness :
  let session := moveToNextQuestion (sessionOf demoForm "s") in
  getCurrentQuestionPath session = Some "age" ∧
  "age" ∈ session.(questionOrder) ∧
  (getCurrentQuestionPath (sessionOf (mkFormDefinition "empty" "Empty" (leaf "string")) "s")
   = None).
Proof.
  intros session.
  assert (index_in_bounds session) as Hb by (unfold index_in_bounds; simpl; lia).
  split; [reflexivity|]. split.
  - exact (proj1 (proj2 (getCurrentQuestionPath_defined session Hb) "age" eq_refl)).
  - apply (getCurrentQuestionPath_defined
             (sessionOf (mkFormDefinition "empty" "Empty" (leaf "string")) "s")).
    + unfold index_in_bounds. simpl. lia.
    + reflexivity.
Defined.

Lemma navigation_visits_in_order_witness :
  let session := sessionOf demoForm "s" in
  getCurrentQuestionPath (Nat.iter 2 moveToNextQuestion session) = Some "email" ∧
  getCurrentQuestionPath (Nat.iter 9 moveToNextQuestion session) = Some "bio".
Proof.
  intros session. split.
  - exact (navigation_visits_in_order 2 session eq_refl).
  - exact (navigation_visits_in_order 9 session eq_refl).
Defined.


Lemma status_stays_consistent_witness :
  let reached :=
    perform_all ([], sessionOf optionalForm "s")
      [RunSchemaValidation; SetFieldValue "nickname" (VNumber 7)] in
  reached.2.(status) = Complete ∧ reached.2.(overallValidity) = Invalid ∧
  status_consistent reached.2.
Proof.
  intros reached. split; [reflexivity|]. split; [reflexivity|].
  apply (status_stays_consistent ([], sessionOf optionalForm "s")).
  split; [intros Hv; discriminate Hv|]. split; [reflexivity | intros Hs; discriminate Hs].
Defined.

Lemma answers_are_never_removed_witness :
  let state := perform ([], sessionOf demoForm "s") (SetFieldValue "email" (VNumber 7)) in
  let reached :=
    perform_all state [SetFieldValue "bio" VNull; RunSchemaValidation; MoveToNextQuestion] in
  is_Some (JsObj.get reached.2.(data) "email") ∧
  ∃ f, JsObj.get reached.2.(fields) "email" = Some f ∧ f.(touched) = true.
Proof.
  intros state reached.
  destruct (answers_are_never_removed state
              [SetFieldValue "bio" VNull; RunSchemaValidation; MoveToNextQuestion] "email")
    as [Hdata Hfields].
  split.
  - apply Hdata. by exists (VNumber 7).
  - destruct (Hfields (mkFormFieldState "email" (VNumber 7) false ["must be string"] true)
                eq_refl) as (f & Hf & Htouched).
    exists f. split; [exact Hf | exact (Htouched eq_refl)].
Defined.

Lemma plain_answers_never_throw_witness :
  let h := [mkJsObject None [("x", VNumber 1)]] in
  let ops :=
    [SetFieldValue "bio" (VRef 0); SetFieldValue "toString.x" (VString "y");
     RunSchemaValidation; MoveToNextQuestion] in
  Forall (fun c => c = Normal ()) (completions (h, sessionOf demoForm "s") ops) ∧
  proto_free (perform_all (h, sessionOf demoForm "s") ops).2 = true.
Proof.
  intros h ops.
  apply (plain_answers_never_throw ops (h, sessionOf demoForm "s")
           (sample_validate demoForm.(schema))); reflexivity.
Defined.



Lemma path_of_chain_round_trip_witness :
  question_path "" ["b"; "c"] = "b.c" ∧
  Str.split_dot (question_path "" ["b"; "c"]) = ["b"; "c"] ∧
  normalizeAjvPath "/b/c" = question_path "" ["b"; "c"].
Proof.
  exact (path_of_chain_round_trip ["b"; "c"] ltac:(discriminate) eq_refl).
Defined.

Lemma pointer_of_chain_is_question_witness :
  normalizeAjvPath "/b/c" ∈ deriveQuestionOrder nestedSchema "" ∧
  Str.split_dot (normalizeAjvPath "/b/c") = ["b"; "c"].
Proof.
  apply (pointer_of_chain_is_question nestedSchema ["b"; "c"]); [|reflexivity].
  apply (chain_nested nestedSchema "b" (object_of [("c", leaf "string")] None) ["c"]).
  - reflexivity.
  - apply list_elem_of_further, list_elem_of_here.
  - apply (chain_property _ "c" (leaf "string")); [reflexivity | apply list_elem_of_here].
Defined.




Lemma questions_are_distinct_witness :
  NoDup (deriveQuestionOrder demoForm.(schema) "") ∧
  NoDup (deriveQuestionOrder nestedSchema "form").
Proof.
  split.
  - exact (questions_are_distinct demoForm.(schema) "" eq_refl).
  - exact (questions_are_distinct nestedSchema "form" eq_refl).
Defined.

(** A property name with a dot in it can make a question appear twice. *)
Example dotted_names_repeat_questions :
  deriveQuestionOrder
    (object_of [("a", object_of [("b", leaf "string")] None); ("a.b", leaf "string")] None) ""
  = ["a"; "a.b"; "a.b"].
Proof. reflexivity. Qed.

(** ** The tools at work *)

Example serve_sampleCalls :
  let state := serve initialState sampleCalls in
  map fst (Ordered.sessions state.(store)) = ["s1"; "s2"] ∧
  (tools_call "s3" (CallTool (GetFormState "s1")) state).1
  = Normal (Content (StateOutput
      (mkSessionSummary "s1" "demo-contact" InProgress Invalid (Some "age"))
      [("email", VNumber 7)]
      [("email", mkFormFieldState "email" (VNumber 7) false ["must be string"] true);
       ("fullName", mkFormFieldState "fullName" VUndefined true [] false);
       ("age", mkFormFieldState "age" VUndefined true [] false);
       ("bio", mkFormFieldState "bio" VUndefined true [] false)])) ∧
  (tools_call "s3" (CallTool (ListUserForms "ann")) state).1
  = Normal (Content (SessionsOutput
      [mkSessionSummary "s1" "demo-contact" InProgress Invalid (Some "age")])) ∧
  (tools_call "s3" (CallTool (ListUserForms "")) state).1
  = Normal (Content (SessionsOutput
      [mkSessionSummary "s1" "demo-contact" InProgress Invalid (Some "age");
       mkSessionSummary "s2" "demo-contact" NotStarted Unknown (Some "fullName")])) ∧
  (tools_call "s3" (CallTool ListForms) state).1
  = Normal (Content (FormsOutput
      [mkFormListing "demo-contact" "Demo Contact Form" VUndefined VUndefined])) ∧
  (tools_call "s3" (CallOther "delete_form") state).1
  = Throw (Error "Tool not found: delete_form").
Proof. vm_compute. repeat split. Qed.

Lemma listForms_agrees_with_getForm_witness :
  let kept := foldl Ordered.registerForm Ordered.emptyStore [demoForm; optionalForm; secondForm] in
  map id (Ordered.listForms kept) = ["demo-contact"; "optional"] ∧
  NoDup (map id (Ordered.listForms kept)) ∧
  secondForm ∈ Ordered.listForms kept.
Proof.
  intros kept.
  assert (forms_well_kept Ordered.emptyStore) as Hempty.
  { split; [apply NoDup_nil_2 | intros key def Hin; inversion Hin]. }
  destruct (listForms_agrees_with_getForm Ordered.emptyStore
              [demoForm; optionalForm; secondForm] Hempty) as [Hnodup Hlisted].
  split; [reflexivity|]. split; [exact Hnodup|]. apply Hlisted. reflexivity.
Defined.

Lemma sessions_are_insulated_from_redefinition_witness :
  let kept := Ordered.registerForm Ordered.emptyStore demoForm in
  ∃ session store1,
    Ordered.createSession kept "demo-contact" None "s1" = (Normal session, store1) ∧
    session.(questionOrder) = ["fullName"; "age"; "email"; "bio"] ∧
    Ordered.getSession (Ordered.registerForm store1 secondForm) "s1" = Some session ∧
    ∃ session' store3,
      Ordered.createSession (Ordered.registerForm store1 secondForm) "demo-contact" None "s2"
      = (Normal session', store3) ∧
      session'.(questionOrder) = ["nickname"] ∧
      Ordered.getSession store3 "s1" = Some session.
Proof.
  intros kept. eexists _, _. split; [reflexivity|]. split; [reflexivity|].
  destruct (sessions_are_insulated_from_redefinition kept "demo-contact" None "s1"
              _ _ secondForm "s2" eq_refl eq_refl ltac:(discriminate))
    as (Hkept & _ & session' & store3 & Hcreate & _ & Horder & Hstill).
  split; [exact Hkept|]. exists session', store3.
  split; [exact Hcreate|]. split; [exact Horder | exact Hstill].
Defined.

Lemma unknown_session_is_reported_witness :
  tools_call "s1" (CallTool (SetFieldValueOf "nobody" "email" (VNumber 7))) initialState
  = (Normal (ErrorContent "Error: Session not found"), initialState).
Proof.
  exact (unknown_session_is_reported "s1" (SetFieldValueOf "nobody" "email" (VNumber 7))
           initialState "nobody" eq_refl eq_refl).
Defined.

Lemma responses_show_the_stored_session_witness :
  let state := serve initialState sampleCalls in
  ∃ output state' session,
    tools_call "s3" (CallTool (SetFieldValueOf "s2" "bio" (VString "x"))) state
    = (Normal (Content output), state') ∧
    Ordered.getSession state'.(store) "s2" = Some session ∧
    summary_of output = Some (summarizeSession session).
Proof.
  intros state.
  assert (∃ output state',
            tools_call "s3" (CallTool (SetFieldValueOf "s2" "bio" (VString "x"))) state
            = (Normal (Content output), state')) as (output & state' & Hcall)
    by (eexists _, _; vm_compute; reflexivity).
  destruct (responses_show_the_stored_session "s3"
              (SetFieldValueOf "s2" "bio" (VString "x")) state output state' "s2"
              eq_refl Hcall)
    as (session & Hstored & Hsummary & _).
  exists output, state', session.
  split; [exact Hcall|]. split; [exact Hstored | exact Hsummary].
Defined.

Lemma set_field_value_response_witness :
  let state := serve initialState sampleCalls in
  ∃ output state' summary f,
    tools_call "s3" (CallTool (SetFieldValueOf "s2" "bio" (VString "x"))) state
    = (Normal (Content output), state') ∧
    output = FieldOutput summary (Some f) ∧ f.(value) = VString "x" ∧ f.(touched) = true.
Proof.
  intros state.
  assert (∃ output state',
            tools_call "s3" (CallTool (SetFieldValueOf "s2" "bio" (VString "x"))) state
            = (Normal (Content output), state')) as (output & state' & Hcall)
    by (eexists _, _; vm_compute; reflexivity).
  destruct (set_field_value_response "s3" "s2" "bio" (VString "x") state output state' Hcall)
    as (summary & f & Houtput & _ & Hvalue & Htouched & _).
  exists output, state', summary, f. split; [exact Hcall|]. split; [exact Houtput|].
  split; [exact Hvalue | exact Htouched].
Defined.

Lemma stored_sessions_stay_well_kept_witness :
  sessions_well_kept (serve initialState sampleCalls).(store) ∧
  ordinary_store (serve initialState sampleCalls).(store) = true.
Proof.
  apply (stored_sessions_stay_well_kept sampleCalls initialState); [reflexivity..|].
  intros sid session Hget. discriminate Hget.
Defined.

Lemma no_engine_errors_without_arrays_witness :
  let state := mkServerState (Ordered.registerForm Ordered.emptyStore demoForm)
                 [mkJsObject None [("x", VNumber 1)]] in
  let calls :=
    sampleCalls ++ [("s3", CallTool (SetFieldValueOf "s1" "bio" (VRef 0)));
                    ("s3", CallTool (SetFieldValueOf "s1" "bio.y" (VString "z")))] in
  Forall (fun response => succeeded response ∨ not_found response ∨ refused response)
         (responses state calls).
Proof.
  intros state calls. apply (no_engine_errors_without_arrays calls state); reflexivity.
Defined.

Lemma registerForm_last_write_wins_witness :
  let kept := Ordered.registerForm (Ordered.registerForm Ordered.emptyStore demoForm)
                optionalForm in
  Ordered.getForm (Ordered.registerForm kept secondForm) "demo-contact" = Some secondForm ∧
  Ordered.getForm (Ordered.registerForm kept secondForm) "optional" = Some optionalForm ∧
  map fst (Ordered.forms (Ordered.registerForm kept secondForm)) = ["demo-contact"; "optional"].
Proof.
  intros kept.
  destruct (registerForm_last_write_wins kept secondForm) as (Hnew & Hother & _ & Horder).
  split; [exact Hnew|]. split; [|exact Horder].
  rewrite (Hother "optional"); [reflexivity | discriminate].
Defined.

Lemma listSessions_filter_witness :
  let kept := (serve initialState sampleCalls).(store) in
  map sessionId (Ordered.listSessions kept (Some (Some ""))) = ["s1"; "s2"] ∧
  map sessionId (Ordered.listSessions kept (Some (Some "ann"))) = ["s1"] ∧
  ∀ session, session ∈ Ordered.listSessions kept (Some (Some "ann")) →
             session.(userId) = Some "ann".
Proof.
  intros kept. split; [reflexivity|]. split; [reflexivity|].
  destruct (listSessions_filter kept) as (_ & _ & _ & Hfilter).
  destruct (Hfilter "ann" ltac:(discriminate)) as [_ Hexact].
  intros session Hin. exact (proj2 (proj1 (Hexact session) Hin)).
Defined.

Lemma calls_touch_one_session_witness :
  let state := serve initialState sampleCalls in
  let state' :=
    (tools_call "s3" (CallTool (SetFieldValueOf "s1" "bio" (VString "x"))) state).2 in
  Ordered.getSession state'.(store) "s2" = Ordered.getSession state.(store) "s2" ∧
  Ordered.getSession state'.(store) "s1" ≠ Ordered.getSession state.(store) "s1".
Proof.
  intros state state'. split; [|discriminate].
  destruct (calls_touch_one_session "s3"
              (CallTool (SetFieldValueOf "s1" "bio" (VString "x"))) state)
    as (_ & _ & Hother).
  apply (Hother "s2" (SetFieldValueOf "s1" "bio" (VString "x")) eq_refl). discriminate.
Defined.
